(** * Image thumbnail pipeline: a shallow embedding of [src/imageProcessor.ts]
      and of the process wiring of [src/index.ts].

    The TypeScript program reads a CSV of (id, url, index) rows, fetches every
    image, stores a thumbnail in the [images] collection and keeps a ledger of
    failures in [failed_images].  Everything outside the repository (the
    MongoDB server, the HTTP hosts, the image codec, the WHATWG URL parser,
    the file system) is an explicit [World]; the program itself is a state
    and exception monad over a [State] that holds the two collections, the
    connection flag, a logical clock and the trace of effects. *)

From Stdlib Require Import ZArith Lia Ascii String List Bool.
From Stdlib Require Import DecimalString DecimalZ DecimalPos.
From stdpp Require Import base option list gmap strings fin_maps sorting.
Import ListNotations.

Local Open Scope string_scope.
Local Open Scope Z_scope.
Local Open Scope list_scope.

(* ===================================================================== *)
(** ** JavaScript string and number primitives used by the program *)
(* ===================================================================== *)

Module JS.

(** A string is the UTF-8 form of the text, as [readFile(path, 'utf-8')]
    decodes it: a code point below U+0080 is one byte, one below U+0800 a
    lead byte 0xC2..0xDF with one continuation byte 0x80..0xBF, one below
    U+10000 a lead byte 0xE0..0xEF with two continuation bytes. *)

(** WhiteSpace and LineTerminator of ECMAScript, by code point: what
    [String.prototype.trim] strips and [parseInt] skips. TAB to CR, SPACE,
    U+00A0, U+1680, U+2000 to U+200A, U+2028, U+2029, U+202F, U+205F,
    U+3000 and U+FEFF. None of them lies beyond U+FFFF. *)
Definition isWhiteSpace (codePoint : N) : bool :=
  ((9 <=? codePoint) && (codePoint <=? 13) || (codePoint =? 32) || (codePoint =? 160)
   || (codePoint =? 5760) || (8192 <=? codePoint) && (codePoint <=? 8202)
   || (codePoint =? 8232) || (codePoint =? 8233) || (codePoint =? 8239)
   || (codePoint =? 8287) || (codePoint =? 12288) || (codePoint =? 65279))%N.

Definition continuation (c : ascii) : option N :=
  let n := N_of_ascii c in
  if ((128 <=? n) && (n <? 192))%N then Some (n - 128)%N else None.

(** The code point that one, two or three bytes encode, if they do. *)
Definition codePoint1 (c1 : ascii) : option N :=
  let n1 := N_of_ascii c1 in
  if (n1 <? 128)%N then Some n1 else None.

Definition codePoint2 (c1 c2 : ascii) : option N :=
  let n1 := N_of_ascii c1 in
  if ((194 <=? n1) && (n1 <? 224))%N
  then match continuation c2 with
       | Some x2 => Some ((n1 - 192) * 64 + x2)%N
       | None => None
       end
  else None.

Definition codePoint3 (c1 c2 c3 : ascii) : option N :=
  let n1 := N_of_ascii c1 in
  if ((224 <=? n1) && (n1 <? 240))%N
  then match continuation c2, continuation c3 with
       | Some x2, Some x3 => Some ((n1 - 224) * 4096 + x2 * 64 + x3)%N
       | _, _ => None
       end
  else None.

Definition whiteSpace (codePoint : option N) : bool :=
  match codePoint with
  | Some n => isWhiteSpace n
  | None => false
  end.

(** [String.prototype.trimStart]: the white-space code points at the head
    are dropped, whatever their length in bytes. *)
Fixpoint trimStart (s : string) : string :=
  match s with
  | String c1 r1 =>
      if whiteSpace (codePoint1 c1) then trimStart r1
      else
        match r1 with
        | String c2 r2 =>
            if whiteSpace (codePoint2 c1 c2) then trimStart r2
            else
              match r2 with
              | String c3 r3 =>
                  if whiteSpace (codePoint3 c1 c2 c3) then trimStart r3 else s
              | EmptyString => s
              end
        | EmptyString => s
        end
  | EmptyString => s
  end.

(** [String.prototype.trimEnd]: a tail of nothing but white space is
    dropped. *)
Fixpoint trimEnd (s : string) : string :=
  match s with
  | EmptyString => EmptyString
  | String c s' =>
      match trimStart s with
      | EmptyString => EmptyString
      | _ => String c (trimEnd s')
      end
  end.

Definition trim (s : string) : string := trimEnd (trimStart s).

(** [s.split(sep)] for a one-character separator; never returns []. *)
Fixpoint split (sep : ascii) (s : string) : list string :=
  match s with
  | EmptyString => [EmptyString]
  | String c s' =>
      if Ascii.eqb c sep then EmptyString :: split sep s'
      else match split sep s' with
           | [] => [String c EmptyString]
           | f :: fs => String c f :: fs
           end
  end.

Definition lowerChar (c : ascii) : ascii :=
  let n := N_of_ascii c in
  if ((65 <=? n) && (n <=? 90))%N then ascii_of_N (n + 32) else c.

(** [String.prototype.toLowerCase], on the letters A to Z. The program
    compares the result with [id], [url] and [index] only, and no letter
    beyond ASCII has a lower case made of the letters of these names. *)
Fixpoint toLowerCase (s : string) : string :=
  match s with
  | EmptyString => EmptyString
  | String c s' => String (lowerChar c) (toLowerCase s')
  end.

(** Truthiness of a string value: only the empty string is falsy. *)
Definition truthy (s : string) : bool :=
  match s with EmptyString => false | _ => true end.

Definition digit_of (c : ascii) : option Z :=
  let n := Z.of_N (N_of_ascii c) in
  if (48 <=? n) && (n <=? 57) then Some (n - 48) else None.

(** The longest prefix of decimal digits, read most significant first;
    [acc] is [None] as long as no digit was seen. *)
Fixpoint parseDigits (s : string) (acc : option Z) : option Z :=
  match s with
  | EmptyString => acc
  | String c s' =>
      match digit_of c with
      | Some d => parseDigits s' (Some (10 * default 0 acc + d))
      | None => acc
      end
  end.

(** A Number that holds an integer is written as that integer. The doubles
    among the integers are those below 2^53 in magnitude and, beyond, those
    of 53 significant bits up to (2^53 - 1) * 2^971. The two infinities lie
    beyond every double and are written [Infinity] and [- Infinity]. NaN is
    not written: where the program can meet it the Number is an [option],
    and NaN is [None]. *)
Definition Infinity : Z := Z.shiftl 1 1024.

(** The Number value of a non-negative integer: the nearest double, the
    even one of two that are equally near, and [Infinity] from
    2^1024 - 2^970 on. *)
Definition round_nonneg (z : Z) : Z :=
  if z <? Z.shiftl 1 53 then z
  else
    let e := Z.log2 z - 52 in
    let q := Z.shiftr z e in
    let r := z - Z.shiftl q e in
    let half := Z.shiftl 1 (e - 1) in
    let q' := if r <? half then q
              else if half <? r then q + 1
              else if Z.even q then q else q + 1 in
    if Infinity <=? Z.shiftl q' e then Infinity else Z.shiftl q' e.

Definition round_double (z : Z) : Z :=
  if z <? 0 then - round_nonneg (- z) else round_nonneg z.

(** [parseInt(s, 10)]: leading white space is skipped, one sign is
    accepted, then the longest digit prefix is read and its value becomes
    a Number, the nearest double as V8 computes it from all the digits;
    [None] is NaN. *)
Definition parseInt (s : string) : option Z :=
  match trimStart s with
  | String "-" r => (fun z => round_double (- z)) <$> parseDigits r None
  | String "+" r => round_double <$> parseDigits r None
  | r => round_double <$> parseDigits r None
  end.

(** The decimal numeral of an integer. *)
Definition decimal (z : Z) : string := NilZero.string_of_int (Z.to_int z).

(** The multiple of [unit] nearest to the double [z] among the two around
    it whose Number value is [z]; of two equally near, the one with the
    even multiplier. *)
Definition candidate (z unit : Z) : option Z :=
  let lo := z / unit * unit in
  let hi := lo + unit in
  match bool_decide (round_double lo = z), bool_decide (round_double hi = z) with
  | true, true =>
      if z - lo <? hi - z then Some lo
      else if hi - z <? z - lo then Some hi
      else if Z.even (z / unit) then Some lo else Some hi
  | true, false => Some lo
  | false, true => Some hi
  | false, false => None
  end.

(** The shortest numeral that reads back as the positive double [z]: the
    value [s * 10^x] with the fewest digits in [s] and, among those, the
    nearest to [z]. The search goes from [unit = 10^x] down to 1, where [z]
    itself is found. *)
Fixpoint shortest (z unit : Z) (x : nat) : Z * nat :=
  match candidate z unit with
  | Some c => (c, x)
  | None =>
      match x with
      | O => (z, O)
      | S x' => shortest z (unit / 10) x'
      end
  end.

(** [d.ddde+n]: the digits of [s], a point after the first when there are
    more, and the exponent of the first digit. *)
Definition exponential (s : Z) (x : nat) : string :=
  match decimal s with
  | String d EmptyString => String d ("e+" +:+ decimal (Z.of_nat x))
  | String d ds =>
      String d ("." +:+ ds +:+ "e+" +:+ decimal (Z.of_nat (x + String.length ds)))
  | EmptyString => EmptyString
  end.

(** [Number.prototype.toString()] on a positive Number that holds an
    integer: the digits of the shortest numeral followed by its zeros when
    that is below 10^21, the exponential form from there on. No numeral
    has more digits than [z] has bits. *)
Definition toString_pos (z : Z) : string :=
  if Infinity <=? z then "Infinity"
  else
    let digits := (Z.to_nat (Z.log2 z) + 1)%nat in
    let '(c, x) := shortest z (10 ^ Z.of_nat digits) digits in
    if c <? 10 ^ 21 then decimal c
    else exponential (c / 10 ^ Z.of_nat x) x.

Definition toString (z : Z) : string :=
  if z =? 0 then "0"
  else if z <? 0 then "-" +:+ toString_pos (- z)
  else toString_pos z.

End JS.

(* ===================================================================== *)
(** ** lodash *)
(* ===================================================================== *)

Module Lodash.

(** Slices of [n = S k] elements; the fuel is the length of the input,
    which bounds the number of slices. *)
Fixpoint chunk_aux {A} (fuel : nat) (n : nat) (l : list A) : list (list A) :=
  match fuel, l with
  | O, _ => []
  | _, [] => []
  | S fuel', _ => take n l :: chunk_aux fuel' n (drop n l)
  end.

(** [_.chunk(array, size)]: [size] is clamped with [Math.max(size, 0)]
    and the result is [[]] when the array is empty or [size < 1]. *)
Definition chunk {A} (l : list A) (size : Z) : list (list A) :=
  if size <? 1 then [] else chunk_aux (length l) (Z.to_nat size) l.

End Lodash.

(* ===================================================================== *)
(** ** Data model ([types.ts], [schemas.ts]) *)
(* ===================================================================== *)

Definition Buffer := list Byte.byte.

(** A thrown [Error]; only its [message] is ever read. *)
Record Error := mkError { message : string }.

(** Modelled from the spec: the interface [CSVRow] of [types.ts] is not
    among the sources. Its fields are the three strings that [readCSV] and
    [retryFailed] build and [processChunk] reads; the InputRow of the
    specification, with the index still as text. *)
Module CSVRow.
Record t := mk { id : string; index : string; url : string }.
End CSVRow.

(** Modelled from the spec: the interface [ProcessingResult] of [types.ts]
    is not among the sources either; [processImages] and [retryFailed]
    build it with these three numbers. *)
Module ProcessingResult.
Record t := mk { total : Z; processed : Z; failed : Z }.
End ProcessingResult.

Module ProcessorConfig.
Record t := mk { mongoUri : string; batchSize : Z; maxFileSize : Z; thumbnailSize : Z }.
End ProcessorConfig.

(** Documents of the [images] collection.  The schema declares [id] unique,
    so the collection is a finite map from [id] to the other fields. The
    [index] is a Number that holds an integer or an infinity ([JS.Infinity]). *)
Module IImage.
Record t := mk { index : Z; thumbnail : Buffer }.
End IImage.

(** Documents of the [failed_images] collection, keyed by [id] as well.
    [attempts] is only ever written by [$inc: { attempts: 1 }]. *)
Module IFailedImage.
Record t := mk { index : Z; url : string; error : string;
                 attempts : nat; lastAttempt : nat }.
End IFailedImage.

(** Calls that reach the MongoDB server. *)
Inductive StoreOp :=
| Connect
| Disconnect
| ImageFindOne (id : string)
| ImageUpdateOne (id : string)
| ImageCreate (id : string)
| FailedDeleteOne (id : string)
| FailedFindOneAndUpdate (id : string)
| FailedFind.

Inductive LogLevel := LError | LInfo.

(** The log lines of the program, one constructor per template string. *)
Inductive LogMsg :=
| MongoConnected
| InitializationFailed (e : Error)
| CSVReadingFailed (e : Error)
| UpdatedExisting (id : string)
| CreatedNew (id : string)
| FailedToProcess (id url : string) (e : Error)
(** `Batch ${index + 1}/${chunks.length} completed. Progress:
     ${processedCount}/${rows.length} (${failedCount} failures)` *)
| BatchCompleted (batch nchunks : nat) (processedCount : Z) (nrows : nat) (failedCount : Z)
| MongoDisconnected
| CleanupError (e : Error)
| StartingToProcess (nrows : nat)
| ProcessingFailed (e : Error)
| ProcessingResultMsg (r : ProcessingResult.t).

(** Everything the program does to the outside, in the order it happens. *)
Inductive Event :=
| EvStore (op : StoreOp)
| EvHttpGet (url : string)
| EvStat
| EvReadFile
| EvLog (level : LogLevel) (msg : LogMsg)
| EvConsoleError (e : Error)
| EvExit (code : Z).

(** The outside world.  Time is a logical clock that advances by one at
    every awaited call; what a call answers may depend on when it is made. *)
Record World := mkWorld {
  (** [Some msg]: the store call made at that time rejects with [Error(msg)]. *)
  store_rejects : StoreOp -> nat -> option string;
  (** [axios.get(url, {responseType: 'arraybuffer', timeout, maxContentLength})] *)
  axios_get : string -> nat -> Z -> string + Buffer;
  (** [sharp(data).resize(size, size, {fit: 'cover', ...}).toBuffer()] *)
  sharp_resize : Buffer -> Z -> string + Buffer;
  (** [new URL(url)] does not throw *)
  URL_parses : string -> bool;
  (** [fs.promises.stat(filePath)]: the size, or the error message *)
  fs_stat : nat -> string + Z;
  (** [fs.promises.readFile(filePath, 'utf-8')]: the text, or the error
      message *)
  fs_readFile : nat -> string + string
}.

Record State := mkState {
  images : gmap string IImage.t;
  failed_images : gmap string IFailedImage.t;
  connected : bool;
  now : nat;
  trace : list Event
}.

Definition set_images (f : gmap string IImage.t -> gmap string IImage.t) (s : State) : State :=
  mkState (f (images s)) (failed_images s) (connected s) (now s) (trace s).

Definition set_failed_images
    (f : gmap string IFailedImage.t -> gmap string IFailedImage.t) (s : State) : State :=
  mkState (images s) (f (failed_images s)) (connected s) (now s) (trace s).

Definition set_connected (b : bool) (s : State) : State :=
  mkState (images s) (failed_images s) b (now s) (trace s).

(* ===================================================================== *)
(** ** The monad of the program: state, and exceptions that keep the state *)
(* ===================================================================== *)

Inductive Outcome (A : Type) :=
| Ok (a : A) (s : State)
| Throw (e : Error) (s : State).
Arguments Ok {A} a s.
Arguments Throw {A} e s.

Definition M (A : Type) := State -> Outcome A.

Definition ret {A} (a : A) : M A := fun s => Ok a s.

Definition bind {A B} (m : M A) (k : A -> M B) : M B :=
  fun s => match m s with
           | Ok a s' => k a s'
           | Throw e s' => Throw e s'
           end.

Definition throw {A} (e : Error) : M A := fun s => Throw e s.

(** [try { m } catch (error) { h error }] *)
Definition try_catch {A} (m : M A) (h : Error -> M A) : M A :=
  fun s => match m s with
           | Ok a s' => Ok a s'
           | Throw e s' => h e s'
           end.

Declare Scope prog_scope.
Delimit Scope prog_scope with prog.
Notation "x <- m ;; k" := (bind m (fun x => k))
  (at level 100, m at next level, right associativity) : prog_scope.
Notation "m ;;; k" := (bind m (fun _ => k))
  (at level 100, right associativity) : prog_scope.
Local Open Scope prog_scope.

Definition final_state {A} (o : Outcome A) : State :=
  match o with Ok _ s => s | Throw _ s => s end.

(** The state once [ev] has happened. *)
Definition record_event (ev : Event) (s : State) : State :=
  mkState (images s) (failed_images s) (connected s) (now s) (trace s ++ [ev]).

(** The state once the awaited call [ev] has been made: the clock moved. *)
Definition advance (ev : Event) (s : State) : State :=
  mkState (images s) (failed_images s) (connected s) (S (now s)) (trace s ++ [ev]).

Definition emit (ev : Event) : M unit := fun s => Ok tt (record_event ev s).

(** An awaited external call; the result is the time at which it was made. *)
Definition await (ev : Event) : M nat := fun s => Ok (now s) (advance ev s).

Definition gets {A} (f : State -> A) : M A := fun s => Ok (f s) s.
Definition modify (f : State -> State) : M unit := fun s => Ok tt (f s).

(** [new Date()] *)
Definition newDate : M nat := gets now.

Module logger.
Definition info (m : LogMsg) : M unit := emit (EvLog LInfo m).
Definition error (m : LogMsg) : M unit := emit (EvLog LError m).
End logger.

(* ===================================================================== *)
(** ** The program *)
(* ===================================================================== *)

Section Program.

Context (w : World) (config : ProcessorConfig.t).

(** *** The mongoose layer *)

(** Modelled from the spec: [models.ts], which makes [ImageModel] and
    [FailedImageModel] out of the two schemas, is not among the sources. The
    calls below are the calls [imageProcessor.ts] makes, with the meaning
    mongoose gives them and the Record Store Adapter of the specification
    states: lookup by id, create or overwrite of the image, delete and
    upsert-with-increment of the failure record, query by [attempts]. Each
    of them reaches the store through [storeCall] and can be rejected. *)
Definition storeCall (op : StoreOp) : M unit :=
  t <- await (EvStore op) ;;
  match store_rejects w op t with
  | Some msg => throw (mkError msg)
  | None => ret tt
  end.

(** Mongoose casts a value to the [Number] of the schema before the call
    is sent; NaN does not cast, every other Number does. *)
Definition castNumber (v : option Z) : M Z :=
  match v with
  | Some z => ret z
  | None => throw (mkError "Cast to Number failed for value NaN at path index")
  end.

Definition mongoose_connect : M unit :=
  storeCall Connect ;;; modify (set_connected true).

Definition mongoose_disconnect : M unit :=
  storeCall Disconnect ;;; modify (set_connected false).

(** [ImageModel.findOne({ id })] *)
Definition ImageModel_findOne (id : string) : M (option IImage.t) :=
  storeCall (ImageFindOne id) ;;; gets (fun s => images s !! id).

(** [ImageModel.updateOne({ id }, { index, thumbnail })]: no upsert. *)
Definition ImageModel_updateOne (id : string) (index : option Z) (thumbnail : Buffer) : M unit :=
  idx <- castNumber index ;;
  storeCall (ImageUpdateOne id) ;;;
  modify (set_images (fun m =>
    match m !! id with
    | Some _ => <[id := IImage.mk idx thumbnail]> m
    | None => m
    end)).

(** [ImageModel.create({ id, index, thumbnail })]; [id] is unique. *)
Definition ImageModel_create (id : string) (index : option Z) (thumbnail : Buffer) : M unit :=
  idx <- castNumber index ;;
  storeCall (ImageCreate id) ;;;
  existing <- gets (fun s => images s !! id) ;;
  match existing with
  | Some _ => throw (mkError "E11000 duplicate key error")
  | None => modify (set_images (insert id (IImage.mk idx thumbnail)))
  end.

(** [FailedImageModel.deleteOne({ id })] *)
Definition FailedImageModel_deleteOne (id : string) : M unit :=
  storeCall (FailedDeleteOne id) ;;; modify (set_failed_images (delete id)).

(** [$inc: { attempts: 1 }] under [upsert: true]: a fresh document starts
    from the increment alone. *)
Definition inc_attempts (old : option IFailedImage.t) : nat :=
  match old with
  | Some doc => S (IFailedImage.attempts doc)
  | None => 1%nat
  end.

(** [FailedImageModel.findOneAndUpdate({ id }, { id, index, url, error,
    $inc: { attempts: 1 }, lastAttempt }, { upsert: true })] *)
Definition FailedImageModel_findOneAndUpdate
    (id : string) (index : option Z) (url error : string) (lastAttempt : nat) : M unit :=
  idx <- castNumber index ;;
  storeCall (FailedFindOneAndUpdate id) ;;;
  modify (set_failed_images (fun m =>
    <[id := IFailedImage.mk idx url error (inc_attempts (m !! id)) lastAttempt]> m)).

(** [FailedImageModel.find({ attempts: { $lt: maxAttempts } })] *)
Definition FailedImageModel_find_lt (maxAttempts : nat)
    : M (list (string * IFailedImage.t)) :=
  storeCall FailedFind ;;;
  gets (fun s => filter (fun item => (IFailedImage.attempts item.2 < maxAttempts)%nat)
                        (map_to_list (failed_images s))).

(** *** [ImageProcessor] *)

Definition initialize : M unit :=
  try_catch
    (mongoose_connect ;;;
     logger.info MongoConnected ;;;
     t <- await EvStat ;;
     match fs_stat w t with
     | inl msg => throw (mkError msg)
     | inr size =>
         if ProcessorConfig.maxFileSize config <? size
         then throw (mkError ("File size exceeds limit of "
                              +:+ JS.toString (ProcessorConfig.maxFileSize config)
                              +:+ " bytes"))
         else ret tt
     end)
    (fun error => logger.error (InitializationFailed error) ;;; throw error).

Definition validateUrl (url : string) : bool := URL_parses w url.

(** A row as [readCSV] builds it: an object whose properties may be
    [undefined] ([None]). *)
Definition prop (row : gmap string (option string)) (key : string) : option string :=
  mjoin (row !! key).

Definition validateRow (row : gmap string (option string)) : bool :=
  match prop row "id", prop row "url", prop row "index" with
  | Some id, Some url, Some index =>
      JS.truthy id && JS.truthy url && JS.truthy index &&
      bool_decide (is_Some (JS.parseInt index)) && validateUrl url
  | _, _, _ => false
  end.

(** [headers.reduce((obj, header, index) => { obj[header] = values[index];
    return obj }, {})] *)
Fixpoint reduce_headers (headers : list string) (index : nat) (values : list string)
    (obj : gmap string (option string)) : gmap string (option string) :=
  match headers with
  | [] => obj
  | header :: rest => reduce_headers rest (S index) values (<[header := values !! index]> obj)
  end.

Definition mapRow (headers : list string) (row : string) : gmap string (option string) :=
  let values := map JS.trim (JS.split "," row) in
  reduce_headers headers 0 values ∅.

(** The cast [as CSVRow]; on a validated row the three properties exist. *)
Definition asCSVRow (row : gmap string (option string)) : CSVRow.t :=
  CSVRow.mk (default "" (prop row "id")) (default "" (prop row "index"))
            (default "" (prop row "url")).

Definition includes (l : list string) (x : string) : bool := bool_decide (x ∈ l).

Definition readCSV : M (list CSVRow.t) :=
  try_catch
    (t <- await EvReadFile ;;
     match fs_readFile w t with
     | inl msg => throw (mkError msg)
     | inr data =>
         let rows := filter (fun row => JS.truthy (JS.trim row) = true) (JS.split "010" data) in
         match rows with
         | [] => throw (mkError "CSV file is empty or has no headers")
         | headersLine :: rows =>
             if negb (JS.truthy headersLine)
             then throw (mkError "CSV file is empty or has no headers")
             else
               let headers := map (fun header => JS.toLowerCase (JS.trim header))
                                  (JS.split "," headersLine) in
               if negb (includes headers "id") || negb (includes headers "url")
                  || negb (includes headers "index")
               then throw (mkError "Invalid CSV structure: missing required headers")
               else
                 let mappedRows := map (mapRow headers) rows in
                 let validatedRows := filter (fun row => validateRow row = true) mappedRows in
                 ret (map asCSVRow validatedRows)
         end
     end)
    (fun error => logger.error (CSVReadingFailed error) ;;; throw error).

Definition processThumbnail (id url : string) : M Buffer :=
  try_catch
    (t <- await (EvHttpGet url) ;;
     match axios_get w url t (ProcessorConfig.maxFileSize config) with
     | inl msg => throw (mkError msg)
     | inr data =>
         match sharp_resize w data (ProcessorConfig.thumbnailSize config) with
         | inl msg => throw (mkError msg)
         | inr thumbnail => ret thumbnail
         end
     end)
    (fun error =>
       throw (mkError ("Failed to process thumbnail for ID " +:+ id +:+ ": "
                       +:+ message error))).

(** The [try] block of the loop body of [processChunk]. *)
Definition processChunk_try (row : CSVRow.t) : M unit :=
  existingImage <- ImageModel_findOne (CSVRow.id row) ;;
  thumbnail <- processThumbnail (CSVRow.id row) (CSVRow.url row) ;;
  match existingImage with
  | Some _ =>
      ImageModel_updateOne (CSVRow.id row) (JS.parseInt (CSVRow.index row)) thumbnail ;;;
      logger.info (UpdatedExisting (CSVRow.id row))
  | None =>
      ImageModel_create (CSVRow.id row) (JS.parseInt (CSVRow.index row)) thumbnail ;;;
      logger.info (CreatedNew (CSVRow.id row))
  end ;;;
  FailedImageModel_deleteOne (CSVRow.id row).

(** Its [catch] block. *)
Definition processChunk_catch (row : CSVRow.t) (error : Error) : M unit :=
  let errorMessage := message error in
  lastAttempt <- newDate ;;
  FailedImageModel_findOneAndUpdate (CSVRow.id row) (JS.parseInt (CSVRow.index row))
    (CSVRow.url row) errorMessage lastAttempt ;;;
  logger.error (FailedToProcess (CSVRow.id row) (CSVRow.url row) error).

(** One iteration of the loop: the new value of [successCount]. *)
Definition processChunk_body (row : CSVRow.t) (successCount : Z) : M Z :=
  try_catch
    (processChunk_try row ;;; ret (successCount + 1))
    (fun error => processChunk_catch row error ;;; ret successCount).

Fixpoint processChunk_loop (rows : list CSVRow.t) (successCount : Z) : M Z :=
  match rows with
  | [] => ret successCount
  | row :: rest =>
      successCount' <- processChunk_body row successCount ;;
      processChunk_loop rest successCount'
  end.

Definition processChunk (rows : list CSVRow.t) : M Z := processChunk_loop rows 0.

Fixpoint processImages_loop (chunks : list (list CSVRow.t)) (index nchunks nrows : nat)
    (processedCount failedCount : Z) : M (Z * Z) :=
  match chunks with
  | [] => ret (processedCount, failedCount)
  | currentChunk :: rest =>
      successCount <- processChunk currentChunk ;;
      let processedCount := processedCount + successCount in
      let failedCount := failedCount + (Z.of_nat (length currentChunk) - successCount) in
      logger.info (BatchCompleted (index + 1) nchunks processedCount nrows failedCount) ;;;
      processImages_loop rest (S index) nchunks nrows processedCount failedCount
  end.

Definition processImages (rows : list CSVRow.t) : M ProcessingResult.t :=
  let chunks := Lodash.chunk rows (ProcessorConfig.batchSize config) in
  counts <- processImages_loop chunks 0 (length chunks) (length rows) 0 0 ;;
  ret (ProcessingResult.mk (Z.of_nat (length rows)) counts.1 counts.2).

Definition retryFailed (maxAttempts : nat) : M ProcessingResult.t :=
  failedImages <- FailedImageModel_find_lt maxAttempts ;;
  if (length failedImages =? 0)%nat
  then ret (ProcessingResult.mk 0 0 0)
  else
    let rows := map (fun item : string * IFailedImage.t =>
                       CSVRow.mk item.1 (JS.toString (IFailedImage.index item.2))
                                 (IFailedImage.url item.2)) failedImages in
    processImages rows.

Definition cleanup : M unit :=
  try_catch
    (mongoose_disconnect ;;; logger.info MongoDisconnected)
    (fun error => logger.error (CleanupError error)).

Definition start : M ProcessingResult.t :=
  try_catch
    (initialize ;;;
     rows <- readCSV ;;
     logger.info (StartingToProcess (length rows)) ;;;
     processImages rows)
    (fun error => logger.error (ProcessingFailed error) ;;; throw error).

(** *** [index.ts] *)

Definition main : M ProcessingResult.t :=
  try_catch
    (result <- start ;;
     logger.info (ProcessingResultMsg result) ;;;
     ret result)
    (fun error => logger.error (ProcessingFailed error) ;;; throw error).

End Program.

(* ===================================================================== *)
(** ** The process: promises at the top level of [index.ts] *)
(* ===================================================================== *)

(** A settled top-level promise, or a process that has exited:
    [process.exit] ends the process at once, nothing scheduled after it
    runs. *)
Inductive Settled (A : Type) :=
| Fulfilled (a : A) (s : State)
| Rejected (e : Error) (s : State)
| Exited (code : Z) (s : State).
Arguments Fulfilled {A} a s.
Arguments Rejected {A} e s.
Arguments Exited {A} code s.

Definition P (A : Type) := State -> Settled A.

Definition lift {A} (m : M A) : P A :=
  fun s => match m s with
           | Ok a s' => Fulfilled a s'
           | Throw e s' => Rejected e s'
           end.

Definition pbind {A B} (p : P A) (k : A -> P B) : P B :=
  fun s => match p s with
           | Fulfilled a s' => k a s'
           | Rejected e s' => Rejected e s'
           | Exited c s' => Exited c s'
           end.

(** [process.exit(code)] *)
Definition process_exit {A} (code : Z) : P A :=
  fun s => Exited code (record_event (EvExit code) s).

(** [p.catch(h)] *)
Definition promise_catch {A} (p : P A) (h : Error -> P A) : P A :=
  fun s => match p s with
           | Fulfilled a s' => Fulfilled a s'
           | Rejected e s' => h e s'
           | Exited c s' => Exited c s'
           end.

(** [p.finally(f)]: [f] runs once [p] has settled and the settlement of [p]
    is passed on, unless [f] itself rejects. *)
Definition promise_finally {A} (p : P A) (f : P unit) : P A :=
  fun s => match p s with
           | Fulfilled a s' =>
               match f s' with
               | Fulfilled _ s'' => Fulfilled a s''
               | Rejected e s'' => Rejected e s''
               | Exited c s'' => Exited c s''
               end
           | Rejected e s' =>
               match f s' with
               | Fulfilled _ s'' => Rejected e s''
               | Rejected e' s'' => Rejected e' s''
               | Exited c s'' => Exited c s''
               end
           | Exited c s' => Exited c s'
           end.

Definition settled_state {A} (o : Settled A) : State :=
  match o with Fulfilled _ s | Rejected _ s | Exited _ s => s end.

Definition exit_code {A} (o : Settled A) : option Z :=
  match o with Exited c _ => Some c | _ => None end.

(** The module body of [index.ts]; [processor] is assigned on the first
    line of [main], so [if (processor)] holds when [finally] runs. *)
Definition index_ts (w : World) (config : ProcessorConfig.t) : P ProcessingResult.t :=
  promise_finally
    (promise_catch
       (lift (main w config))
       (fun error => pbind (lift (emit (EvConsoleError error))) (fun _ => process_exit 1)))
    (pbind (lift (cleanup w)) (fun _ => process_exit 0)).

(** The state of a freshly started process on an empty database. *)
Definition initial_state : State := mkState ∅ ∅ false 0 [].

(* ===================================================================== *)
(** ** Concrete worlds and configurations used in the examples *)
(* ===================================================================== *)

(** The configuration the constructor builds when nothing is overridden. *)
Definition default_config : ProcessorConfig.t :=
  ProcessorConfig.mk "mongodb://localhost:27017/image_processor" 50 (120 * 1024 * 1024) 100.

Definition config_with_batchSize (n : Z) : ProcessorConfig.t :=
  ProcessorConfig.mk "mongodb://localhost:27017/image_processor" n (120 * 1024 * 1024) 100.

Definition starts_with_http (url : string) : bool :=
  match url with
  | String "h" (String "t" (String "t" (String "p" _))) => true
  | _ => false
  end.

(** A world built from a store oracle, an HTTP oracle and the content of
    the CSV file; the codec returns its input. *)
Definition world_of (rejects : StoreOp -> nat -> option string)
    (http : string -> nat -> string + Buffer) (csv : string) : World :=
  mkWorld rejects (fun url t _ => http url t) (fun data _ => inr data)
          starts_with_http (fun _ => inr (Z.of_nat (String.length csv))) (fun _ => inr csv).

Definition store_up : StoreOp -> nat -> option string := fun _ _ => None.

(** Every host answers with the one byte 0x2a. *)
Definition http_ok : string -> nat -> string + Buffer := fun _ _ => inr [Byte.x2a].

(** Every request times out. *)
Definition http_down : string -> nat -> string + Buffer :=
  fun _ _ => inl "timeout of 5000ms exceeded".

(* ===================================================================== *)
(** ** Decidable equality of the observable data *)
(* ===================================================================== *)

#[global] Instance Error_eq_dec : EqDecision Error.
Proof. solve_decision. Defined.
#[global] Instance CSVRow_eq_dec : EqDecision CSVRow.t.
Proof. solve_decision. Defined.
#[global] Instance ProcessingResult_eq_dec : EqDecision ProcessingResult.t.
Proof. solve_decision. Defined.
#[global] Instance StoreOp_eq_dec : EqDecision StoreOp.
Proof. solve_decision. Defined.
#[global] Instance LogLevel_eq_dec : EqDecision LogLevel.
Proof. solve_decision. Defined.
#[global] Instance LogMsg_eq_dec : EqDecision LogMsg.
Proof. solve_decision. Defined.
#[global] Instance Event_eq_dec : EqDecision Event.
Proof. solve_decision. Defined.

(* ===================================================================== *)
(** ** Vocabulary of the statements *)
(* ===================================================================== *)

(** What [processThumbnail] obtains for [url] when the request is made at
    time [t]: the thumbnail, or the message of the underlying error. *)
Definition thumbnail_at (w : World) (config : ProcessorConfig.t) (url : string) (t : nat)
    : string + Buffer :=
  match axios_get w url t (ProcessorConfig.maxFileSize config) with
  | inl msg => inl msg
  | inr data => sharp_resize w data (ProcessorConfig.thumbnailSize config)
  end.

(** The events of a row whose [try] block runs to its end. *)
Definition success_events (existing : bool) (row : CSVRow.t) : list Event :=
  [ EvStore (ImageFindOne (CSVRow.id row));
    EvHttpGet (CSVRow.url row);
    EvStore (if existing then ImageUpdateOne (CSVRow.id row) else ImageCreate (CSVRow.id row));
    EvLog LInfo (if existing then UpdatedExisting (CSVRow.id row) else CreatedNew (CSVRow.id row));
    EvStore (FailedDeleteOne (CSVRow.id row)) ].

Definition has_image (s : State) (id : string) : bool :=
  bool_decide (is_Some (images s !! id)).

(** The row was processed successfully from [s], ending in [s']. *)
Definition row_succeeded (w : World) (config : ProcessorConfig.t)
    (row : CSVRow.t) (s s' : State) : Prop :=
  exists idx thumbnail,
    JS.parseInt (CSVRow.index row) = Some idx /\
    thumbnail_at w config (CSVRow.url row) (S (now s)) = inr thumbnail /\
    s' = mkState (<[CSVRow.id row := IImage.mk idx thumbnail]> (images s))
                 (delete (CSVRow.id row) (failed_images s))
                 (connected s) (4 + now s)
                 (trace s ++ success_events (has_image s (CSVRow.id row)) row).

(** The row failed from [s] with error [e] after [k] steps of its [try]
    block, and the failure was written to the ledger, ending in [s']. *)
Definition row_failed (row : CSVRow.t) (e : Error) (k : nat) (s s' : State) : Prop :=
  exists idx lastAttempt,
    JS.parseInt (CSVRow.index row) = Some idx /\
    (1 <= k <= 5)%nat /\
    (now s < lastAttempt)%nat /\
    now s' = S lastAttempt /\
    connected s' = connected s /\
    trace s' = trace s
               ++ take k (success_events (has_image s (CSVRow.id row)) row)
               ++ [ EvStore (FailedFindOneAndUpdate (CSVRow.id row));
                    EvLog LError (FailedToProcess (CSVRow.id row) (CSVRow.url row) e) ] /\
    failed_images s' =
      <[CSVRow.id row :=
          IFailedImage.mk idx (CSVRow.url row) (message e)
                          (inc_attempts (failed_images s !! CSVRow.id row)) lastAttempt]>
        (failed_images s) /\
    (forall id', id' <> CSVRow.id row -> images s' !! id' = images s !! id').

(** A progress notification: the numbers in the log line of a chunk. *)
Record Progress := mkProgress {
  batch : nat; nchunks : nat; processedCount : Z; nrows : nat; failedCount : Z
}.

(** The milestones of a pass: a row is taken up (its lookup in [images] is
    the first thing done for it) and a progress notification is logged. *)
Inductive Milestone :=
| RowStarted (id : string)
| Notified (n : Progress).

Definition milestone (ev : Event) : option Milestone :=
  match ev with
  | EvStore (ImageFindOne id) => Some (RowStarted id)
  | EvLog LInfo (BatchCompleted batch nchunks p nrows f) =>
      Some (Notified (mkProgress batch nchunks p nrows f))
  | _ => None
  end.

Definition milestones (evs : list Event) : list Milestone := omap milestone evs.

(** The ids whose failure was logged, in order. *)
Definition failure_of (ev : Event) : option string :=
  match ev with
  | EvLog LError (FailedToProcess id _ _) => Some id
  | _ => None
  end.

Definition failures (evs : list Event) : list string := omap failure_of evs.

(** The ids for which an upsert of the failure ledger was issued. *)
Definition ledger_write_of (ev : Event) : option string :=
  match ev with
  | EvStore (FailedFindOneAndUpdate id) => Some id
  | _ => None
  end.

Definition ledger_writes (evs : list Event) : list string := omap ledger_write_of evs.

Definition notification_of (m : Milestone) : option Progress :=
  match m with
  | Notified n => Some n
  | RowStarted _ => None
  end.

(** The progress notifications among the events, in order. *)
Definition notifications (evs : list Event) : list Progress :=
  omap notification_of (milestones evs).


(** The shape of the milestones of a pass over [chunks], from batch number
    [k] on with cumulative counts [p] and [f]: the rows of a chunk in order,
    then the one notification of that chunk, whose counts have grown by the
    size of the chunk in total and decreased in neither component. The last
    two indices are the counts after the last chunk. *)
Inductive pass_log (nchunks nrows : nat)
    : nat -> Z -> Z -> list (list CSVRow.t) -> list Milestone -> Z -> Z -> Prop :=
| pass_log_nil k p f : pass_log nchunks nrows k p f [] [] p f
| pass_log_cons k p f chunk chunks p' f' rest pn fn :
    p <= p' -> f <= f' ->
    p' + f' = p + f + Z.of_nat (length chunk) ->
    pass_log nchunks nrows (S k) p' f' chunks rest pn fn ->
    pass_log nchunks nrows k p f (chunk :: chunks)
      (map (fun row => RowStarted (CSVRow.id row)) chunk
         ++ Notified (mkProgress (k + 1) nchunks p' nrows f') :: rest) pn fn.

(** Rows used in the examples. *)
Definition rowA : CSVRow.t := CSVRow.mk "A" "1" "https://x/a.png".
Definition rowB : CSVRow.t := CSVRow.mk "B" "2" "https://x/b.png".
Definition rowC : CSVRow.t := CSVRow.mk "C" "3" "https://x/c.png".

(** The ids of the rows taken up, in order. *)
Definition row_started (m : Milestone) : option string :=
  match m with
  | RowStarted id => Some id
  | Notified _ => None
  end.

Definition rows_started (evs : list Event) : list string :=
  omap row_started (milestones evs).

(** The index of the row is a number: [parseInt] does not give NaN. *)
Definition index_is_number (row : CSVRow.t) : Prop :=
  is_Some (JS.parseInt (CSVRow.index row)).

(** The store accepts every upsert of the failure ledger. *)
Definition ledger_accepts (w : World) : Prop :=
  forall id t, store_rejects w (FailedFindOneAndUpdate id) t = None.

(** A store that rejects the lookup of one id and accepts everything else. *)
Definition lookup_fails_for (id : string) : StoreOp -> nat -> option string :=
  fun op _ =>
    match op with
    | ImageFindOne id' => if String.eqb id id' then Some "connection lost" else None
    | _ => None
    end.

(** A store that is down: every call is rejected. *)
Definition store_down : StoreOp -> nat -> option string :=
  fun _ _ => Some "connection lost".

(** The two observable fates of a row in the collections. *)
Definition image_stored (row : CSVRow.t) (s : State) : Prop :=
  exists img, images s !! CSVRow.id row = Some img /\
              JS.parseInt (CSVRow.index row) = Some (IImage.index img).

Definition failure_recorded (row : CSVRow.t) (s : State) : Prop :=
  exists doc, failed_images s !! CSVRow.id row = Some doc /\
              (1 <= IFailedImage.attempts doc)%nat.

Definition exactly_one (A B : Prop) : Prop := (A /\ ~ B) \/ (~ A /\ B).

(** Hosts that answer until time [t0] and time out from then on. *)
Definition http_until (t0 : nat) : string -> nat -> string + Buffer :=
  fun _ t => if (t <? t0)%nat then inr [Byte.x2a] else inl "timeout of 5000ms exceeded".

(** Hosts that time out until time [t0] and answer from then on. *)
Definition http_from (t0 : nat) : string -> nat -> string + Buffer :=
  fun _ t => if (t <? t0)%nat then inl "timeout of 5000ms exceeded" else inr [Byte.x2a].

(** A second row for the id of [rowA], with another index. *)
Definition rowA2 : CSVRow.t := CSVRow.mk "A" "2" "https://x/a.png".

(** The fate of a row at the end of a pass that started in [s0] and added
    [evs] to the trace: either no failure was logged for its id, the ledger
    has no entry for it and [images] holds the index of the row; or a
    failure was logged and the ledger holds an entry that counts one
    attempt more than before the pass. *)
Definition row_fate (s0 : State) (evs : list Event) (row : CSVRow.t) (s : State) : Prop :=
  ((CSVRow.id row ∉ failures evs) /\
   failed_images s !! CSVRow.id row = None /\ image_stored row s)
  \/
  ((CSVRow.id row ∈ failures evs) /\
   exists doc, failed_images s !! CSVRow.id row = Some doc /\
     IFailedImage.attempts doc = inc_attempts (failed_images s0 !! CSVRow.id row)).

(** The value of a decimal numeral read after the digits that gave [acc]. *)
Fixpoint uint_value (d : Decimal.uint) (acc : Z) : Z :=
  match d with
  | Decimal.Nil => acc
  | Decimal.D0 d => uint_value d (10 * acc)
  | Decimal.D1 d => uint_value d (10 * acc + 1)
  | Decimal.D2 d => uint_value d (10 * acc + 2)
  | Decimal.D3 d => uint_value d (10 * acc + 3)
  | Decimal.D4 d => uint_value d (10 * acc + 4)
  | Decimal.D5 d => uint_value d (10 * acc + 5)
  | Decimal.D6 d => uint_value d (10 * acc + 6)
  | Decimal.D7 d => uint_value d (10 * acc + 7)
  | Decimal.D8 d => uint_value d (10 * acc + 8)
  | Decimal.D9 d => uint_value d (10 * acc + 9)
  end.

(** From [s] to [s'] only rows with an id in [ids] were taken up, and the
    documents of every other id are as they were. *)
Definition touches (ids : list string) (s s' : State) : Prop :=
  exists evs, trace s' = trace s ++ evs /\
    (forall id, id ∈ rows_started evs -> id ∈ ids) /\
    (forall id, id ∉ ids ->
       images s' !! id = images s !! id /\ failed_images s' !! id = failed_images s !! id).

(** The row that [retryFailed] builds from a failure record. *)
Definition row_of_failure (item : string * IFailedImage.t) : CSVRow.t :=
  CSVRow.mk item.1 (JS.toString (IFailedImage.index item.2)) (IFailedImage.url item.2).

(** The records that [FailedImageModel.find] returns for [maxAttempts]. *)
Definition eligible (maxAttempts : nat) (s : State) : list (string * IFailedImage.t) :=
  filter (fun item => (IFailedImage.attempts item.2 < maxAttempts)%nat)
         (map_to_list (failed_images s)).

(** A ledger with a record that has used up three attempts and one that
    has not. *)
Definition docA : IFailedImage.t :=
  IFailedImage.mk 1 "https://x/a.png" "Failed to process thumbnail for ID A: timeout" 3 7.
Definition docB : IFailedImage.t :=
  IFailedImage.mk 2 "https://x/b.png" "Failed to process thumbnail for ID B: timeout" 1 9.
Definition ledger_state : State :=
  mkState ∅ (<["A" := docA]> (<["B" := docB]> ∅)) true 10 [].

(** The invariant behind [row_fate]: the pass started in [s0], has handled
    the rows [done] and is in [s]. *)
Definition fate_invariant (s0 : State) (done : list CSVRow.t) (s : State) : Prop :=
  exists evs, trace s = trace s0 ++ evs /\
    (forall id, id ∈ failures evs -> id ∈ map CSVRow.id done) /\
    (forall id, id ∉ map CSVRow.id done ->
       images s !! id = images s0 !! id /\ failed_images s !! id = failed_images s0 !! id) /\
    (forall row, row ∈ done -> row_fate s0 evs row s).

(** The last of [rows] that carries [id]. *)
Definition last_row_for (id : string) (rows : list CSVRow.t) : option CSVRow.t :=
  last (filter (fun row => CSVRow.id row = id) rows).

(** The collections at [id] once the rows [done] have all succeeded from
    [s0]: the image of the last row of that id and no ledger record, or
    what [s0] had when no row carries the id. *)
Definition all_succeeded_at (w : World) (config : ProcessorConfig.t)
    (s0 : State) (done : list CSVRow.t) (s : State) (id : string) : Prop :=
  match last_row_for id done with
  | Some row =>
      exists idx thumbnail t,
        JS.parseInt (CSVRow.index row) = Some idx /\
        thumbnail_at w config (CSVRow.url row) t = inr thumbnail /\
        images s !! id = Some (IImage.mk idx thumbnail) /\
        failed_images s !! id = None
  | None =>
      images s !! id = images s0 !! id /\ failed_images s !! id = failed_images s0 !! id
  end.

Definition success_invariant (w : World) (config : ProcessorConfig.t)
    (s0 : State) (done : list CSVRow.t) (s : State) : Prop :=
  exists evs, trace s = trace s0 ++ evs /\
    (failures evs = [] -> forall id, all_succeeded_at w config s0 done s id).

(** Hosts whose image changes at time [t0]. *)
Definition http_changing (t0 : nat) : string -> nat -> string + Buffer :=
  fun _ t => if (t <? t0)%nat then inr [Byte.x2a] else inr [Byte.x2b].

(** A property of a field of a raw row; an [undefined] field has none. *)
Definition field_has (v : option string) (P : string -> Prop) : Prop :=
  match v with
  | Some x => P x
  | None => False
  end.

(** A decimal digit, 0 to 9. *)
Definition is_digit (c : ascii) : bool :=
  let n := N_of_ascii c in ((48 <=? n) && (n <=? 57))%N.

Fixpoint all_digits (s : string) : bool :=
  match s with
  | EmptyString => true
  | String c r => is_digit c && all_digits r
  end.

(** A base-10 integer: decimal digits, at least one, after an optional
    sign, and nothing else. *)
Definition base10_integer (s : string) : bool :=
  match s with
  | String "-" r | String "+" r => negb (String.eqb r "") && all_digits r
  | _ => negb (String.eqb s "") && all_digits s
  end.

(** The text begins with a base-10 integer: a decimal digit stands first,
    after an optional sign; what follows the digits is free. *)
Definition begins_with_integer (s : string) : bool :=
  match s with
  | String "-" (String c _) | String "+" (String c _) => is_digit c
  | String c _ => is_digit c
  | EmptyString => false
  end.

(** The rule of retention in the words of the specification: the id is
    non-empty, the url is non-empty and parses as an absolute URI, and the
    index parses as a base-10 integer. *)
Definition spec_retains (w : World) (row : gmap string (option string)) : Prop :=
  field_has (prop row "id") (fun id => id <> "") /\
  field_has (prop row "url") (fun url => url <> "" /\ URL_parses w url = true) /\
  field_has (prop row "index") (fun index => base10_integer index = true).

(** The rule of retention as the code has it: the index need only begin
    with a base-10 integer. *)
Definition retains (w : World) (row : gmap string (option string)) : Prop :=
  field_has (prop row "id") (fun id => id <> "") /\
  field_has (prop row "url") (fun url => url <> "" /\ URL_parses w url = true) /\
  field_has (prop row "index") (fun index => begins_with_integer index = true).

#[global] Instance field_has_dec (v : option string) (P : string -> Prop)
    `{forall x, Decision (P x)} : Decision (field_has v P).
Proof. destruct v; cbn; apply _. Defined.

#[global] Instance spec_retains_dec (w : World) (row : gmap string (option string)) :
  Decision (spec_retains w row).
Proof. unfold spec_retains. apply _. Defined.

#[global] Instance retains_dec (w : World) (row : gmap string (option string)) :
  Decision (retains w row).
Proof. unfold retains. apply _. Defined.

(** Every field of the row that is there is a trimmed value. *)
Definition trimmed_fields (row : gmap string (option string)) : Prop :=
  forall key v, prop row key = Some v -> JS.trimStart v = v.

(** A line of nothing but white space. *)
Definition blank (line : string) : Prop := JS.trim line = "".

(** The headers of a header line, as [readCSV] normalises them. *)
Definition headers_of (headersLine : string) : list string :=
  map (fun header => JS.toLowerCase (JS.trim header)) (JS.split "," headersLine).

(** A CSV file with a valid row, a blank line, a row with a url that does
    not parse, a row with a non-numeric index and a row without id. *)
Definition sample_csv : string :=
  "id,url,index
A,https://x/a.png,1

B,not-a-url,2
C,https://x/c.png,abc
,https://x/d.png,4".


(** A CSV file whose only row has text after the digits of its index. *)
Definition trailing_text_csv : string :=
  "id,url,index
A,https://x/a.png,12abc".
(* ===================================================================== *)
(** ** The rest of [ImageProcessor] *)
(* ===================================================================== *)

(** [{ lastAttempt: -1 }]: the later attempt comes first. *)
Definition later_first (a b : string * IFailedImage.t) : Prop :=
  (IFailedImage.lastAttempt b.2 <= IFailedImage.lastAttempt a.2)%nat.

#[global] Instance later_first_dec (a b : string * IFailedImage.t) :
  Decision (later_first a b).
Proof. unfold later_first. apply _. Defined.

(** [getFailedImages]: [FailedImageModel.find({}).sort({ lastAttempt: -1 })].
    The store leaves the order of records with equal [lastAttempt] open;
    the merge sort fixes one. *)
Definition getFailedImages (w : World) : M (list (string * IFailedImage.t)) :=
  storeCall w FailedFind ;;;
  gets (fun s => merge_sort later_first (map_to_list (failed_images s))).

(** The environment variables the constructor reads, and the overrides it
    is given ([ProcessorConfig], every field optional). *)
Record Env := mkEnv { MONGO_URI : option string; DEFAULT_BATCH_SIZE : option string }.

Module PartialConfig.
Record t := mk {
  mongoUri : option string; batchSize : option Z;
  maxFileSize : option Z; thumbnailSize : option Z
}.
End PartialConfig.

(** [value || fallback] on an environment variable: unset and empty both
    give the fallback. *)
Definition or_else (value : option string) (fallback : string) : string :=
  match value with
  | Some v => if JS.truthy v then v else fallback
  | None => fallback
  end.

(** The constructor of [ImageProcessor]: the defaults, overlaid by the
    overrides that are given. A [DEFAULT_BATCH_SIZE] that [parseInt] cannot
    read gives NaN, written 0 here: the batch size is only ever passed to
    [_.chunk], which takes NaN for 0 (and an infinite size for the largest
    integer it knows: one chunk, as for [JS.Infinity] here). *)
Definition constructor (env : Env) (config : PartialConfig.t) : ProcessorConfig.t :=
  ProcessorConfig.mk
    (default (or_else (MONGO_URI env) "mongodb://localhost:27017/image_processor")
             (PartialConfig.mongoUri config))
    (default (default 0 (JS.parseInt (or_else (DEFAULT_BATCH_SIZE env) "50")))
             (PartialConfig.batchSize config))
    (default (120 * 1024 * 1024) (PartialConfig.maxFileSize config))
    (default 100 (PartialConfig.thumbnailSize config)).

(** [n] calls of [retryFailed] in a row, each of which returned. *)
Inductive retried (w : World) (config : ProcessorConfig.t) (maxAttempts : nat)
    : nat -> State -> State -> Prop :=
| retried_none s : retried w config maxAttempts 0 s s
| retried_again n s s1 s2 r :
    retryFailed w config maxAttempts s = Ok r s1 ->
    retried w config maxAttempts n s1 s2 ->
    retried w config maxAttempts (S n) s s2.

(** A row whose three fields passed the checks of [validateRow]. *)
Definition valid_row (w : World) (row : CSVRow.t) : Prop :=
  CSVRow.id row <> "" /\ CSVRow.url row <> "" /\ URL_parses w (CSVRow.url row) = true /\
  index_is_number row.

(** The awaited calls among the events that go to an image host. *)
Definition http_request_of (ev : Event) : option string :=
  match ev with
  | EvHttpGet url => Some url
  | _ => None
  end.

Definition http_requests (evs : list Event) : list string := omap http_request_of evs.

(** The two errors [readCSV] raises itself. *)
Definition csv_empty_error : Error := mkError "CSV file is empty or has no headers".
Definition csv_headers_error : Error :=
  mkError "Invalid CSV structure: missing required headers".

(** The non-blank lines of the file, as [readCSV] keeps them. *)
Definition csv_lines (data : string) : list string :=
  filter (fun row => JS.truthy (JS.trim row) = true) (JS.split "010" data).

(** A file without a line, a file whose header lacks the url column. *)
Definition blank_csv : string := "
  
".
Definition headless_csv : string := "id,index
A,1".

(** An event other than a progress notification. *)
Definition not_notification (ev : Event) : Prop :=
  match ev with
  | EvLog LInfo (BatchCompleted _ _ _ _ _) => False
  | _ => True
  end.

#[global] Instance not_notification_dec (ev : Event) : Decision (not_notification ev).
Proof. destruct ev as [| | | |[] []| |]; cbn; apply _. Defined.

(** The trace without its progress notifications. *)
Definition without_notifications (evs : list Event) : list Event :=
  filter not_notification evs.
Arguments without_notifications : simpl never.

(** Two states that differ in the progress notifications of their traces
    at most. *)
Definition same_data (s1 s2 : State) : Prop :=
  images s1 = images s2 /\ failed_images s1 = failed_images s2 /\
  connected s1 = connected s2 /\ now s1 = now s2 /\
  without_notifications (trace s1) = without_notifications (trace s2).

(** Two runs that end alike: the same result or the same error, in states
    that differ in the progress notifications of their traces at most. *)
Definition same_outcome {A} (o1 o2 : Outcome A) : Prop :=
  match o1, o2 with
  | Ok a1 s1, Ok a2 s2 => a1 = a2 /\ same_data s1 s2
  | Throw e1 s1, Throw e2 s2 => e1 = e2 /\ same_data s1 s2
  | _, _ => False
  end.

(** The configuration with another batch size. *)
Definition with_batchSize (n : Z) (config : ProcessorConfig.t) : ProcessorConfig.t :=
  ProcessorConfig.mk (ProcessorConfig.mongoUri config) n
                     (ProcessorConfig.maxFileSize config)
                     (ProcessorConfig.thumbnailSize config).

(** The result of a pass, from the count of one chunk that holds all rows. *)
Definition flat_result (p f : Z) (nrows : nat) (o : Outcome Z) : Outcome (Z * Z) :=
  match o with
  | Ok n s' => Ok (p + n, f + (Z.of_nat nrows - n)) s'
  | Throw e s' => Throw e s'
  end.


(** No white-space code point stands at the head of the string. *)
Definition trimStart_fixed (s : string) : Prop :=
  match s with
  | String c1 r1 =>
      JS.whiteSpace (JS.codePoint1 c1) = false /\
      match r1 with
      | String c2 r2 =>
          JS.whiteSpace (JS.codePoint2 c1 c2) = false /\
          match r2 with
          | String c3 _ => JS.whiteSpace (JS.codePoint3 c1 c2 c3) = false
          | EmptyString => True
          end
      | EmptyString => True
      end
  | EmptyString => True
  end.

(** U+00A0 NO-BREAK SPACE and U+FEFF, the byte order mark, in UTF-8. *)
Definition nbsp : string := String (ascii_of_N 194) (String (ascii_of_N 160) "").
Definition bom : string :=
  String (ascii_of_N 239) (String (ascii_of_N 187) (String (ascii_of_N 191) "")).

(** A double that is printed with all its digits: below 10^21 in
    magnitude. *)
Definition below_1e21 (z : Z) : Prop := JS.round_double z = z /\ - 10 ^ 21 < z < 10 ^ 21.

(** A finite Number. *)
Definition finite (z : Z) : Prop := - JS.Infinity < z < JS.Infinity.


(** The rows of a call that returned. *)
Definition ok_rows (o : Outcome (list CSVRow.t)) : option (list CSVRow.t) :=
  match o with
  | Ok rows _ => Some rows
  | Throw _ _ => None
  end.

(** What goes wrong for a row taken up in [s], if anything does: the
    lookup of its image is rejected, its thumbnail cannot be obtained, the
    write of its image is rejected, or the delete of its ledger record is
    rejected. These are the failures of a row; the error is what the call
    that failed threw. *)
Definition failure_cause (w : World) (config : ProcessorConfig.t) (row : CSVRow.t)
    (s : State) : option Error :=
  let id := CSVRow.id row in
  match store_rejects w (ImageFindOne id) (now s) with
  | Some msg => Some (mkError msg)
  | None =>
      match thumbnail_at w config (CSVRow.url row) (S (now s)) with
      | inl msg =>
          Some (mkError ("Failed to process thumbnail for ID " +:+ id +:+ ": " +:+ msg))
      | inr _ =>
          let write := if has_image s id then ImageUpdateOne id else ImageCreate id in
          match store_rejects w write (S (S (now s))) with
          | Some msg => Some (mkError msg)
          | None => mkError <$> store_rejects w (FailedDeleteOne id) (S (S (S (now s))))
          end
      end
  end.

(** A run over rows in which every failure of a row is absorbed: a row
    for which nothing goes wrong succeeds; a row for which something does
    has that error written to the ledger and logged, is counted, and the
    run goes on with the next row. Progress notifications may be logged in
    between. The last index counts the rows that failed. *)
Inductive absorbed (w : World) (config : ProcessorConfig.t)
    : list CSVRow.t -> State -> State -> nat -> Prop :=
| absorbed_done s : absorbed w config [] s s 0
| absorbed_success row rows s s1 s' n :
    failure_cause w config row s = None ->
    row_succeeded w config row s s1 ->
    absorbed w config rows s1 s' n ->
    absorbed w config (row :: rows) s s' n
| absorbed_failure row rows e k s s1 s' n :
    failure_cause w config row s = Some e ->
    row_failed row e k s s1 ->
    absorbed w config rows s1 s' n ->
    absorbed w config (row :: rows) s s' (S n)
| absorbed_notified rows m s s' n :
    absorbed w config rows (record_event (EvLog LInfo m) s) s' n ->
    absorbed w config rows s s' n.

(* ===================================================================== *)
(** * Properties *)
(* ===================================================================== *)

(** ** The empty pass *)

(** C10: on the empty row sequence [processImages] returns
    {total: 0, processed: 0, failed: 0} and leaves the whole state, trace
    included, as it was: no progress notification is logged and no store or
    fetch call is made, whatever the batch size and the world. *)
Theorem processImages_nil (w : World) (config : ProcessorConfig.t) (s : State) :
  processImages w config [] s = Ok (ProcessingResult.mk 0 0 0) s.
Proof.
  unfold processImages, Lodash.chunk.
  destruct (ProcessorConfig.batchSize config <? 1); reflexivity.
Qed.

(** ** Process exit behaviour *)

Lemma index_ts_rejected (w : World) (config : ProcessorConfig.t) (s s1 : State) (e : Error) :
  main w config s = Throw e s1 ->
  index_ts w config s =
    Exited 1 (record_event (EvExit 1) (record_event (EvConsoleError e) s1)).
Proof.
  intros Hmain.
  unfold index_ts, promise_finally, promise_catch, lift, pbind.
  rewrite Hmain. reflexivity.
Qed.

Lemma index_ts_fulfilled (w : World) (config : ProcessorConfig.t) (s s1 : State)
    (r : ProcessingResult.t) :
  main w config s = Ok r s1 ->
  exists s2, final_state (cleanup w s1) = s2 /\
    index_ts w config s =
      Exited 0 (record_event (EvExit 0) s2).
Proof.
  intros Hmain.
  unfold index_ts, promise_finally, promise_catch, lift, pbind.
  rewrite Hmain.
  destruct (cleanup w s1) as [[] s2|e s2] eqn:Hc; simpl.
  - exists s2. split; reflexivity.
  - exfalso. revert Hc. unfold cleanup, try_catch.
    destruct (bind _ _ s1); unfold logger.error, emit; discriminate.
Qed.

(** C9, at a run that fails after the connection was opened (the CSV file
    is empty): the process logs the error and exits with status 1, but
    [process.exit(1)] in the [catch] callback ends it before the [finally]
    callback runs, so [cleanup] is never called: no disconnect is issued
    and the connection is still open at exit. *)
Theorem index_ts_failure_skips_cleanup :
  let o := index_ts (world_of store_up http_ok "") default_config initial_state in
  exit_code o = Some 1 /\
  (EvLog LError (ProcessingFailed (mkError "CSV file is empty or has no headers"))
     ∈ trace (settled_state o)) /\
  (EvStore Connect ∈ trace (settled_state o)) /\
  (EvStore Disconnect ∉ trace (settled_state o)) /\
  connected (settled_state o) = true.
Proof.
  cbv zeta. split; [|split; [|split; [|split]]].
  - vm_compute. reflexivity.
  - apply (bool_decide_unpack _). vm_compute. exact I.
  - apply (bool_decide_unpack _). vm_compute. exact I.
  - apply (bool_decide_unpack _). vm_compute. exact I.
  - vm_compute. reflexivity.
Qed.

(** ** The primitives on small inputs *)

Example trim_examples :
  JS.trim "  a b	" = "a b" /\ JS.trim " 	 " = "" /\ JS.toLowerCase " URL" = " url".
Proof. repeat split; reflexivity. Qed.

(** White space beyond ASCII is stripped as well: a byte order mark and a
    no-break space around a value, and a line that holds nothing else. *)
Example trim_unicode_examples :
  JS.trim (bom +:+ "id" +:+ nbsp) = "id" /\ JS.trim (bom +:+ nbsp +:+ " ") = "".
Proof. split; vm_compute; reflexivity. Qed.

Example split_examples :
  JS.split "," "A,https://x/a.png,,1" = ["A"; "https://x/a.png"; ""; "1"] /\
  JS.split "," "" = [""].
Proof. repeat split; reflexivity. Qed.

(** [parseInt] reads a prefix: text after the digits is ignored. *)
Example parseInt_examples :
  JS.parseInt "12" = Some 12 /\ JS.parseInt "12abc" = Some 12 /\
  JS.parseInt " -7" = Some (-7) /\ JS.parseInt "1.5" = Some 1 /\
  JS.parseInt "abc" = None /\ JS.parseInt "" = None /\ JS.parseInt "-" = None.
Proof. repeat split; vm_compute; reflexivity. Qed.

(** Beyond 2^53 the value read is the nearest double, and a numeral too
    long for a double reads as [Infinity]. *)
Example parseInt_rounds :
  JS.parseInt "9007199254740993" = Some 9007199254740992 /\
  JS.parseInt "1e+21" = Some 1 /\ JS.parseInt "Infinity" = None.
Proof. repeat split; vm_compute; reflexivity. Qed.

Example toString_examples :
  JS.toString 0 = "0" /\ JS.toString (-1200) = "-1200" /\
  JS.toString (2 ^ 60) = "1152921504606847000" /\
  JS.toString (10 ^ 21) = "1e+21" /\
  JS.toString (10 ^ 21 + 2 ^ 20) = "1.000000000000001e+21" /\
  JS.toString JS.Infinity = "Infinity" /\ JS.toString (- JS.Infinity) = "-Infinity".
Proof. repeat split; vm_compute; reflexivity. Qed.

Example chunk_examples :
  Lodash.chunk [1; 2; 3; 4; 5] 2 = [[1; 2]; [3; 4]; [5]] /\
  Lodash.chunk [1; 2; 3] 0 = [] /\
  Lodash.chunk [1; 2; 3] 7 = [[1; 2; 3]].
Proof. repeat split; reflexivity. Qed.

(** ** White space at the two ends of a string *)

(** The head of a string: a white-space code point of one, two or three
    bytes followed by the rest, or no white space. *)
Lemma trimStart_cases (s : string) :
  (trimStart_fixed s /\ JS.trimStart s = s) \/
  (exists c1 r1, s = String c1 r1 /\ JS.whiteSpace (JS.codePoint1 c1) = true /\
     JS.trimStart s = JS.trimStart r1) \/
  (exists c1 c2 r2, s = String c1 (String c2 r2) /\
     JS.whiteSpace (JS.codePoint2 c1 c2) = true /\ JS.trimStart s = JS.trimStart r2) \/
  (exists c1 c2 c3 r3, s = String c1 (String c2 (String c3 r3)) /\
     JS.whiteSpace (JS.codePoint3 c1 c2 c3) = true /\ JS.trimStart s = JS.trimStart r3).
Proof.
  destruct s as [|c1 r1]; [left; split; [exact I|reflexivity]|].
  cbn [JS.trimStart trimStart_fixed].
  destruct (JS.whiteSpace (JS.codePoint1 c1)) eqn:H1; [right; left; eauto|].
  destruct r1 as [|c2 r2]; [left; split; [done|reflexivity]|].
  destruct (JS.whiteSpace (JS.codePoint2 c1 c2)) eqn:H2; [right; right; left; eauto 6|].
  destruct r2 as [|c3 r3]; [left; split; [done|reflexivity]|].
  destruct (JS.whiteSpace (JS.codePoint3 c1 c2 c3)) eqn:H3;
    [right; right; right; eauto 8|].
  left. split; [done|reflexivity].
Qed.

Lemma trimStart_length (s : string) : (String.length (JS.trimStart s) <= String.length s)%nat.
Proof.
  remember (String.length s) as n eqn:Hn.
  revert s Hn. induction n as [n IH] using lt_wf_ind. intros s ->.
  destruct (trimStart_cases s)
    as [[_ ->]|[(c1 & r1 & -> & _ & ->)|[(c1 & c2 & r2 & -> & _ & ->)
        |(c1 & c2 & c3 & r3 & -> & _ & ->)]]]; [lia|..]; cbn [String.length].
  - specialize (IH (String.length r1) ltac:(cbn; lia) r1 eq_refl). lia.
  - specialize (IH (String.length r2) ltac:(cbn; lia) r2 eq_refl). lia.
  - specialize (IH (String.length r3) ltac:(cbn; lia) r3 eq_refl). lia.
Qed.

(** [trimStart] leaves a string as it is exactly when no white space
    stands at its head. *)
Lemma trimStart_fixed_iff (s : string) : JS.trimStart s = s <-> trimStart_fixed s.
Proof.
  split.
  - intros Hfix.
    destruct (trimStart_cases s)
      as [[Hok _]|[(c1 & r1 & -> & _ & Heq)|[(c1 & c2 & r2 & -> & _ & Heq)
          |(c1 & c2 & c3 & r3 & -> & _ & Heq)]]]; [exact Hok|exfalso..];
      rewrite Hfix in Heq.
    + pose proof (trimStart_length r1) as Hlen. rewrite <- Heq in Hlen. cbn in Hlen. lia.
    + pose proof (trimStart_length r2) as Hlen. rewrite <- Heq in Hlen. cbn in Hlen. lia.
    + pose proof (trimStart_length r3) as Hlen. rewrite <- Heq in Hlen. cbn in Hlen. lia.
  - destruct s as [|c1 [|c2 [|c3 r3]]]; cbn [trimStart_fixed JS.trimStart]; [done|..].
    + by intros [-> _].
    + by intros (-> & -> & _).
    + by intros (-> & -> & ->).
Qed.

Lemma trimStart_idem (s : string) : JS.trimStart (JS.trimStart s) = JS.trimStart s.
Proof.
  remember (String.length s) as n eqn:Hn.
  revert s Hn. induction n as [n IH] using lt_wf_ind. intros s ->.
  destruct (trimStart_cases s)
    as [[_ Heq]|[(c1 & r1 & -> & _ & ->)|[(c1 & c2 & r2 & -> & _ & ->)
        |(c1 & c2 & c3 & r3 & -> & _ & ->)]]].
  - by rewrite !Heq.
  - apply (IH (String.length r1)); [cbn; lia|reflexivity].
  - apply (IH (String.length r2)); [cbn; lia|reflexivity].
  - apply (IH (String.length r3)); [cbn; lia|reflexivity].
Qed.

Lemma trimEnd_empty (s : string) : JS.trimEnd s = "" <-> JS.trimStart s = "".
Proof.
  destruct s as [|c s]; [done|]. cbn [JS.trimEnd].
  destruct (JS.trimStart (String c s)); [done|]. split; discriminate.
Qed.

Lemma trimEnd_cons (c : ascii) (s : string) :
  JS.trimStart (String c s) <> "" -> JS.trimEnd (String c s) = String c (JS.trimEnd s).
Proof. intros Hne. cbn [JS.trimEnd]. by destruct (JS.trimStart (String c s)). Qed.

(** What [trim] returns has no white space at its head. *)
Lemma trimStart_trimEnd (s : string) :
  trimStart_fixed s -> trimStart_fixed (JS.trimEnd s).
Proof.
  intros Hfix. pose proof (proj2 (trimStart_fixed_iff s) Hfix) as Heq.
  destruct s as [|c1 r1]; [done|].
  rewrite trimEnd_cons by (rewrite Heq; discriminate).
  destruct Hfix as [H1 Hfix]. split; [exact H1|].
  destruct r1 as [|c2 r2]; [done|].
  cbn [JS.trimEnd]. destruct (JS.trimStart (String c2 r2)); [done|].
  destruct Hfix as [H2 Hfix]. split; [exact H2|].
  destruct r2 as [|c3 r3]; [done|].
  cbn [JS.trimEnd]. by destruct (JS.trimStart (String c3 r3)).
Qed.

Lemma trimStart_trim (s : string) : JS.trimStart (JS.trim s) = JS.trim s.
Proof.
  apply trimStart_fixed_iff, trimStart_trimEnd, trimStart_fixed_iff, trimStart_idem.
Qed.

(** A string that [trim] empties is emptied by [trimStart] already. *)
Lemma blank_trimStart (line : string) : blank line -> JS.trimStart line = "".
Proof.
  unfold blank, JS.trim. intros Hblank%trimEnd_empty. by rewrite trimStart_idem in Hblank.
Qed.

Lemma whiteSpace_not_comma (c1 : ascii) :
  JS.whiteSpace (JS.codePoint1 c1) = true -> c1 <> ","%char.
Proof. intros Hws ->. discriminate Hws. Qed.

Lemma codePoint2_not_comma (c1 c2 : ascii) :
  JS.whiteSpace (JS.codePoint2 c1 c2) = true -> c1 <> ","%char /\ c2 <> ","%char.
Proof.
  unfold JS.codePoint2. intros Hws. split; intros ->.
  - discriminate Hws.
  - change (JS.continuation ",") with (@None N) in Hws.
    destruct (_ && _)%N in Hws; discriminate Hws.
Qed.

Lemma codePoint3_not_comma (c1 c2 c3 : ascii) :
  JS.whiteSpace (JS.codePoint3 c1 c2 c3) = true ->
  c1 <> ","%char /\ c2 <> ","%char /\ c3 <> ","%char.
Proof.
  unfold JS.codePoint3. intros Hws. split_and!; intros ->.
  - discriminate Hws.
  - change (JS.continuation ",") with (@None N) in Hws.
    destruct (_ && _)%N in Hws; discriminate Hws.
  - change (JS.continuation ",") with (@None N) in Hws.
    destruct (_ && _)%N in Hws; [|discriminate Hws].
    destruct (JS.continuation c2) in Hws; discriminate Hws.
Qed.

Lemma split_not_sep (c : ascii) (s : string) :
  c <> ","%char -> JS.split "," s = [s] -> JS.split "," (String c s) = [String c s].
Proof.
  intros Hne Hs. cbn [JS.split].
  destruct (Ascii.eqb_spec c ","); [done|]. by rewrite Hs.
Qed.

(** A line of nothing but white space has no comma: it is one value. *)
Lemma blank_split (line : string) : blank line -> JS.split "," line = [line].
Proof.
  intros Hblank%blank_trimStart.
  remember (String.length line) as n eqn:Hn.
  revert line Hn Hblank. induction n as [n IH] using lt_wf_ind. intros s -> Hblank.
  destruct (trimStart_cases s)
    as [[_ Heq]|[(c1 & r1 & -> & Hws & Heq)|[(c1 & c2 & r2 & -> & Hws & Heq)
        |(c1 & c2 & c3 & r3 & -> & Hws & Heq)]]]; rewrite Heq in Hblank.
  - by subst s.
  - apply split_not_sep; [by apply whiteSpace_not_comma|].
    apply (IH (String.length r1)); [cbn; lia|reflexivity|exact Hblank].
  - apply codePoint2_not_comma in Hws as [Hc1 Hc2].
    do 2 (apply split_not_sep; [done|]).
    apply (IH (String.length r2)); [cbn; lia|reflexivity|exact Hblank].
  - apply codePoint3_not_comma in Hws as (Hc1 & Hc2 & Hc3).
    do 3 (apply split_not_sep; [done|]).
    apply (IH (String.length r3)); [cbn; lia|reflexivity|exact Hblank].
Qed.

(** A character below U+0080 that is no white space stays at the head. *)
Lemma trimStart_head (c : ascii) (r : string) :
  (N_of_ascii c < 128)%N -> JS.isWhiteSpace (N_of_ascii c) = false ->
  JS.trimStart (String c r) = String c r.
Proof.
  intros Hascii Hws. apply trimStart_fixed_iff. cbn [trimStart_fixed].
  assert (JS.whiteSpace (JS.codePoint1 c) = false) as H1.
  { unfold JS.codePoint1. by destruct (N_of_ascii c <? 128)%N. }
  assert (forall c2, JS.codePoint2 c c2 = None) as H2.
  { intros c2. unfold JS.codePoint2.
    destruct (N.leb_spec 194 (N_of_ascii c)); [lia|reflexivity]. }
  assert (forall c2 c3, JS.codePoint3 c c2 c3 = None) as H3.
  { intros c2 c3. unfold JS.codePoint3.
    destruct (N.leb_spec 224 (N_of_ascii c)); [lia|reflexivity]. }
  split; [exact H1|]. destruct r as [|c2 [|c3 r3]]; rewrite ?H2, ?H3; done.
Qed.

(** ** Numbers and their numerals *)

Lemma digit_of_cases (c : ascii) (d : Z) :
  JS.digit_of c = Some d ->
  c ∈ ["0"; "1"; "2"; "3"; "4"; "5"; "6"; "7"; "8"; "9"]%char.
Proof.
  destruct c as [[] [] [] [] [] [] [] []]; intros Hd; try discriminate Hd;
    repeat first [left | right].
Qed.

Lemma parseDigits_acc (s : string) (acc : Z) : is_Some (JS.parseDigits s (Some acc)).
Proof.
  revert acc. induction s as [|c s IH]; intros acc; cbn [JS.parseDigits]; [eauto|].
  destruct (JS.digit_of c); [apply IH|eauto].
Qed.

(** A text that begins with a digit, after a minus sign or not, is read
    as a number. *)
Lemma parseInt_digit_head (c : ascii) (d : Z) (r : string) :
  JS.digit_of c = Some d ->
  JS.parseInt (String c r) = JS.round_double <$> JS.parseDigits (String c r) None /\
  JS.parseInt (String "-" (String c r))
  = (fun z => JS.round_double (- z)) <$> JS.parseDigits (String c r) None /\
  is_Some (JS.parseDigits (String c r) None).
Proof.
  intros Hd. split_and!.
  - unfold JS.parseInt. rewrite trimStart_head.
    + apply digit_of_cases in Hd.
      repeat (apply elem_of_cons in Hd as [->|Hd]; [reflexivity|]).
      by apply not_elem_of_nil in Hd.
    + apply digit_of_cases in Hd.
      repeat (apply elem_of_cons in Hd as [->|Hd]; [reflexivity|]).
      by apply not_elem_of_nil in Hd.
    + apply digit_of_cases in Hd.
      repeat (apply elem_of_cons in Hd as [->|Hd]; [reflexivity|]).
      by apply not_elem_of_nil in Hd.
  - unfold JS.parseInt. by rewrite trimStart_head.
  - cbn [JS.parseDigits]. rewrite Hd. apply parseDigits_acc.
Qed.

Lemma parseDigits_uint (d : Decimal.uint) (acc : Z) :
  JS.parseDigits (NilEmpty.string_of_uint d) (Some acc) = Some (uint_value d acc).
Proof.
  revert acc. induction d; intros acc;
    cbn [NilEmpty.string_of_uint uint_value JS.parseDigits]; [reflexivity|..];
    match goal with |- context [JS.digit_of ?c] =>
      let v := eval vm_compute in (JS.digit_of c) in change (JS.digit_of c) with v
    end;
    cbn [default from_option]; rewrite IHd; f_equal; f_equal; unfold id; lia.
Qed.

Lemma parseDigits_first (d : Decimal.uint) :
  d <> Decimal.Nil ->
  JS.parseDigits (NilEmpty.string_of_uint d) None
  = JS.parseDigits (NilEmpty.string_of_uint d) (Some 0).
Proof. destruct d; [congruence|reflexivity..]. Qed.

Lemma uint_value_pos (d : Decimal.uint) (p : positive) :
  uint_value d (Z.pos p) = Z.pos (Pos.of_uint_acc d p).
Proof.
  revert p. induction d; intros p; cbn [uint_value Pos.of_uint_acc]; [reflexivity|..];
    rewrite <- IHd; f_equal; lia.
Qed.

Lemma uint_value_zero (d : Decimal.uint) : uint_value d 0 = Z.of_N (Pos.of_uint d).
Proof.
  induction d; cbn [uint_value Pos.of_uint]; [reflexivity|exact IHd|..];
    cbn [Z.of_N]; rewrite <- uint_value_pos; reflexivity.
Qed.

Lemma to_uint_not_nil (p : positive) : Pos.to_uint p <> Decimal.Nil.
Proof.
  intros Hnil. pose proof (DecimalPos.Unsigned.of_to p) as H.
  rewrite Hnil in H. discriminate.
Qed.

Lemma parseDigits_to_uint (p : positive) :
  JS.parseDigits (NilEmpty.string_of_uint (Pos.to_uint p)) None = Some (Z.pos p).
Proof.
  rewrite parseDigits_first by apply to_uint_not_nil.
  rewrite parseDigits_uint, uint_value_zero, DecimalPos.Unsigned.of_to. reflexivity.
Qed.

(** The numeral of a non-negative integer is made of digits, and they
    read back as that integer. *)
Lemma parseDigits_decimal (z : Z) :
  0 <= z -> JS.parseDigits (JS.decimal z) None = Some z.
Proof.
  intros Hz. destruct z as [|p|p]; [reflexivity| |lia].
  unfold JS.decimal. cbn [Z.to_int NilZero.string_of_int].
  replace (NilZero.string_of_uint (Pos.to_uint p))
    with (NilEmpty.string_of_uint (Pos.to_uint p))
    by (pose proof (to_uint_not_nil p); destruct (Pos.to_uint p); [congruence|reflexivity..]).
  apply parseDigits_to_uint.
Qed.

Lemma decimal_head (z : Z) :
  0 <= z -> exists c r d, JS.decimal z = String c r /\ JS.digit_of c = Some d.
Proof.
  intros Hz. pose proof (parseDigits_decimal z Hz) as Hparse.
  destruct (JS.decimal z) as [|c r]; [discriminate Hparse|].
  cbn [JS.parseDigits] in Hparse.
  destruct (JS.digit_of c) as [d|] eqn:Hd; [by exists c, r, d|discriminate Hparse].
Qed.

Lemma decimal_opp (p : positive) : JS.decimal (Z.neg p) = String "-" (JS.decimal (Z.pos p)).
Proof. reflexivity. Qed.

Lemma round_double_opp (z : Z) : JS.round_double (- z) = - JS.round_double z.
Proof.
  unfold JS.round_double.
  destruct (Z.ltb_spec (- z) 0), (Z.ltb_spec z 0); try lia.
  - by rewrite Z.opp_involutive.
  - by replace z with 0 by lia.
Qed.

(** [parseInt] reads the numeral of an integer as the Number nearest to
    that integer. *)
Lemma parseInt_decimal (z : Z) : JS.parseInt (JS.decimal z) = Some (JS.round_double z).
Proof.
  destruct z as [|p|p]; [reflexivity|..].
  - destruct (decimal_head (Z.pos p)) as (c & r & d & Hdec & Hd); [lia|].
    rewrite Hdec. destruct (parseInt_digit_head c d r Hd) as (-> & _ & _).
    by rewrite <- Hdec, parseDigits_decimal.
  - rewrite decimal_opp.
    destruct (decimal_head (Z.pos p)) as (c & r & d & Hdec & Hd); [lia|].
    rewrite Hdec. destruct (parseInt_digit_head c d r Hd) as (_ & -> & _).
    by rewrite <- Hdec, parseDigits_decimal.
Qed.

Lemma candidate_spec (z unit c : Z) :
  0 <= z -> 0 <= unit -> JS.candidate z unit = Some c -> 0 <= c /\ JS.round_double c = z.
Proof.
  intros Hz Hunit. unfold JS.candidate.
  assert (0 <= z / unit * unit) as Hlo
    by (apply Z.mul_nonneg_nonneg; [apply Z_div_nonneg_nonneg|]; lia).
  destruct (bool_decide_reflect (JS.round_double (z / unit * unit) = z)) as [Hl|_],
    (bool_decide_reflect (JS.round_double (z / unit * unit + unit) = z)) as [Hh|_];
    repeat case_match; intros [= <-]; split; first [exact Hl | exact Hh | lia].
Qed.

(** The search ends on a non-negative integer whose Number value is [z],
    if [z] is a double, and on [z] itself otherwise. *)
Lemma shortest_spec (x : nat) (z unit : Z) :
  0 <= z -> 0 <= unit ->
  0 <= (JS.shortest z unit x).1 /\
  (JS.round_double (JS.shortest z unit x).1 = z \/ (JS.shortest z unit x).1 = z).
Proof.
  intros Hz. revert unit. induction x as [|x IH]; intros unit Hunit; cbn [JS.shortest].
  - destruct (JS.candidate z unit) as [c|] eqn:Hc; cbn; [|auto].
    apply candidate_spec in Hc as [? ?]; auto.
  - destruct (JS.candidate z unit) as [c|] eqn:Hc; cbn.
    + apply candidate_spec in Hc as [? ?]; auto.
    + apply IH. apply Z_div_nonneg_nonneg; lia.
Qed.

(** A Number of at least 10^21 is not the value of an integer below. *)
Lemma round_double_1e21 (c : Z) : 10 ^ 21 <= c -> 10 ^ 21 <= JS.round_double c.
Proof.
  change (10 ^ 21) with 1000000000000000000000. intros Hc.
  unfold JS.round_double. destruct (Z.ltb_spec c 0); [lia|].
  unfold JS.round_nonneg. change (Z.shiftl 1 53) with 9007199254740992.
  destruct (Z.ltb_spec c 9007199254740992); [lia|]. cbv zeta.
  assert (69 <= Z.log2 c) as Hlog
    by (change 69 with (Z.log2 1000000000000000000000); by apply Z.log2_le_mono).
  destruct (Z.log2_spec c) as [Hlow _]; [lia|].
  set (e := Z.log2 c - 52) in *.
  assert (Z.log2 c = 52 + e) as HL by (unfold e; lia). rewrite HL in Hlow.
  rewrite Z.pow_add_r in Hlow by lia.
  rewrite Z.shiftr_div_pow2 by lia.
  assert (0 < 2 ^ e) as Hpos by (apply Z.pow_pos_nonneg; lia).
  assert (1000000000000000000000 <= c / 2 ^ e * 2 ^ e) as Hq.
  { destruct (decide (e = 17)) as [He|He].
    - rewrite He in *. change (2 ^ 17) with 131072 in *.
      pose proof (Z.div_le_lower_bound c 131072 7629394531250000). lia.
    - assert (2 ^ 52 <= c / 2 ^ e) as Hbig by (apply Z.div_le_lower_bound; lia).
      assert (2 ^ 18 <= 2 ^ e) as Hpow by (apply Z.pow_le_mono_r; lia).
      change (2 ^ 52) with 4503599627370496 in Hbig. change (2 ^ 18) with 262144 in Hpow.
      nia. }
  assert (forall q', c / 2 ^ e <= q' ->
            1000000000000000000000
            <= (if JS.Infinity <=? Z.shiftl q' e then JS.Infinity else Z.shiftl q' e)) as Hcap.
  { intros q' Hq'. destruct (Z.leb_spec JS.Infinity (Z.shiftl q' e)).
    - vm_compute. discriminate.
    - rewrite Z.shiftl_mul_pow2 by lia. nia. }
  apply Hcap. repeat case_match; lia.
Qed.

(** Below 10^21 a double is printed with all its digits, and they read
    back as the same double. From 10^21 on they do not: see
    [toString_examples] and [parseInt_rounds]. *)
Lemma parseInt_toString (z : Z) :
  JS.round_double z = z -> - 10 ^ 21 < z < 10 ^ 21 ->
  JS.parseInt (JS.toString z) = Some z.
Proof.
  intros Hdouble Hrange.
  assert (forall p, JS.round_double p = p -> 0 < p < 10 ^ 21 ->
            exists c, JS.toString_pos p = JS.decimal c /\ 0 <= c /\ JS.round_double c = p)
    as Hpos.
  { intros p Hp Hr. unfold JS.toString_pos.
    destruct (Z.leb_spec JS.Infinity p) as [Hinf|_].
    { exfalso. assert (10 ^ 21 <= JS.Infinity) by (vm_compute; discriminate). lia. }
    cbv zeta.
    pose proof (shortest_spec (Z.to_nat (Z.log2 p) + 1) p
                  (10 ^ Z.of_nat (Z.to_nat (Z.log2 p) + 1)) ltac:(lia)
                  ltac:(apply Z.pow_nonneg; lia)) as [Hc Hround].
    destruct (JS.shortest _ _ _) as [c x]. cbn [fst] in Hc, Hround.
    assert (JS.round_double c = p) as Hcp by (destruct Hround; congruence).
    destruct (Z.ltb_spec c (10 ^ 21)) as [_|Hbig]; [by exists c|].
    apply round_double_1e21 in Hbig. lia. }
  unfold JS.toString. destruct (Z.eqb_spec z 0) as [->|Hz]; [reflexivity|].
  destruct (Z.ltb_spec z 0) as [Hneg|Hnn].
  - destruct (Hpos (- z)) as (c & -> & Hc & Hcz); [|lia|].
    { rewrite round_double_opp. lia. }
    destruct (decimal_head c Hc) as (d & r & v & Hdec & Hd).
    change ("-" +:+ JS.decimal c) with (String "-" (JS.decimal c)). rewrite Hdec.
    destruct (parseInt_digit_head d v r Hd) as (_ & -> & _).
    rewrite <- Hdec, parseDigits_decimal by exact Hc. cbn.
    rewrite round_double_opp, Hcz. f_equal. lia.
  - destruct (Hpos z) as (c & -> & Hc & Hcz); [done|lia|].
    by rewrite parseInt_decimal, Hcz.
Qed.

(** What is printed for a finite Number begins with a digit, after the
    minus sign of a negative one: [parseInt] reads a number from it. *)
Lemma toString_pos_head (z : Z) :
  0 < z < JS.Infinity ->
  exists d r v, JS.toString_pos z = String d r /\ JS.digit_of d = Some v.
Proof.
  intros Hz. unfold JS.toString_pos.
  destruct (Z.leb_spec JS.Infinity z) as [Hinf|_]; [lia|]. cbv zeta.
  pose proof (shortest_spec (Z.to_nat (Z.log2 z) + 1) z
                (10 ^ Z.of_nat (Z.to_nat (Z.log2 z) + 1)) ltac:(lia)
                ltac:(apply Z.pow_nonneg; lia)) as [Hc _].
  destruct (JS.shortest _ _ _) as [c x]. cbn [fst] in Hc.
  destruct (Z.ltb_spec c (10 ^ 21)) as [_|Hbig]; [by apply decimal_head|].
  unfold JS.exponential.
  destruct (decimal_head (c / 10 ^ Z.of_nat x)) as (d & r & v & -> & Hd).
  { apply Z_div_nonneg_nonneg; [lia|apply Z.pow_nonneg; lia]. }
  destruct r; eauto.
Qed.

Lemma parseInt_toString_finite (z : Z) :
  - JS.Infinity < z < JS.Infinity -> is_Some (JS.parseInt (JS.toString z)).
Proof.
  intros Hz. unfold JS.toString. destruct (Z.eqb_spec z 0) as [->|Hne]; [by eexists|].
  destruct (Z.ltb_spec z 0).
  - destruct (toString_pos_head (- z)) as (d & r & v & -> & Hd); [lia|].
    change ("-" +:+ String d r) with (String "-" (String d r)).
    destruct (parseInt_digit_head d v r Hd) as (_ & -> & [n ->]). by eexists.
  - destruct (toString_pos_head z) as (d & r & v & -> & Hd); [lia|].
    destruct (parseInt_digit_head d v r Hd) as (-> & _ & [n ->]). by eexists.
Qed.
(** ** One row: the body of the loop of [processChunk] *)

Section Steps.

Context (w : World) (config : ProcessorConfig.t).

Lemma storeCall_eq (op : StoreOp) (s : State) :
  storeCall w op s =
    match store_rejects w op (now s) with
    | Some msg => Throw (mkError msg) (advance (EvStore op) s)
    | None => Ok tt (advance (EvStore op) s)
    end.
Proof.
  unfold storeCall, bind, await.
  destruct (store_rejects w op (now s)); reflexivity.
Qed.

Lemma processThumbnail_eq (id url : string) (s : State) :
  processThumbnail w config id url s =
    match thumbnail_at w config url (now s) with
    | inl msg =>
        Throw (mkError ("Failed to process thumbnail for ID " +:+ id +:+ ": " +:+ msg))
              (advance (EvHttpGet url) s)
    | inr thumbnail => Ok thumbnail (advance (EvHttpGet url) s)
    end.
Proof.
  unfold processThumbnail, thumbnail_at, try_catch, bind, await, throw, ret.
  destruct (axios_get w url (now s) _) as [msg|data]; [reflexivity|].
  destruct (sharp_resize w data _); reflexivity.
Qed.

Lemma bind_eq {A B} (m : M A) (k : A -> M B) (s : State) :
  bind m k s = match m s with Ok a s' => k a s' | Throw e s' => Throw e s' end.
Proof. reflexivity. Qed.

(** The [try] block either runs to its end, or throws after a proper
    prefix of its events. *)
Lemma processChunk_try_spec (row : CSVRow.t) (s : State) :
  match processChunk_try w config row s with
  | Ok _ s' => row_succeeded w config row s s'
  | Throw e s' =>
      exists k, (1 <= k <= 5)%nat /\
        trace s' = trace s ++ take k (success_events (has_image s (CSVRow.id row)) row) /\
        (now s < now s')%nat /\
        connected s' = connected s /\
        failed_images s' = failed_images s /\
        (forall id', id' <> CSVRow.id row -> images s' !! id' = images s !! id')
  end.
Proof.
  destruct row as [id index url].
  unfold processChunk_try, row_succeeded, has_image. cbn [CSVRow.id CSVRow.index CSVRow.url].
  rewrite bind_eq. unfold ImageModel_findOne. rewrite bind_eq, storeCall_eq.
  destruct (store_rejects w (ImageFindOne id) (now s)) as [msg|] eqn:Hfind.
  { exists 1%nat. cbn. repeat split; try lia; done. }
  unfold gets. rewrite bind_eq, processThumbnail_eq. cbn [now advance images].
  destruct (thumbnail_at w config url (S (now s))) as [msg|thumbnail] eqn:Hthumb.
  { exists 2%nat. cbn. rewrite <- app_assoc. repeat split; try lia; done. }
  rewrite bind_eq.
  destruct (JS.parseInt index) as [idx|] eqn:Hidx; cycle 1.
  { destruct (images s !! id); rewrite bind_eq;
      unfold ImageModel_updateOne, ImageModel_create, castNumber;
      rewrite bind_eq; unfold throw;
      exists 2%nat; cbn; rewrite <- ?app_assoc; repeat split; try lia; done. }
  destruct (images s !! id) as [old|] eqn:Himg.
  - rewrite bind_eq. unfold ImageModel_updateOne, castNumber.
    rewrite bind_eq. unfold ret at 1. rewrite bind_eq, storeCall_eq. cbn [now advance].
    destruct (store_rejects w (ImageUpdateOne id) _) as [msg|].
    { exists 3%nat. cbn. rewrite <- ?app_assoc. repeat split; try lia; done. }
    unfold modify, logger.info, emit, FailedImageModel_deleteOne.
    rewrite bind_eq, storeCall_eq. cbn [now advance record_event set_images].
    destruct (store_rejects w (FailedDeleteOne id) _) as [msg|].
    { exists 5%nat. cbn. rewrite <- ?app_assoc. rewrite ?Himg.
      repeat split; try lia; try done.
      intros id' Hne. by rewrite lookup_insert_ne. }
    exists idx, thumbnail. split; [done|]. split; [done|].
    unfold set_failed_images, advance, record_event, set_images, success_events.
    cbn. rewrite ?Himg. rewrite <- ?app_assoc. reflexivity.
  - rewrite bind_eq. unfold ImageModel_create, castNumber.
    rewrite bind_eq. unfold ret at 1. rewrite bind_eq, storeCall_eq. cbn [now advance].
    destruct (store_rejects w (ImageCreate id) _) as [msg|].
    { exists 3%nat. cbn. rewrite <- ?app_assoc. repeat split; try lia; done. }
    unfold gets. rewrite bind_eq. cbn [images advance]. rewrite ?Himg.
    unfold modify, logger.info, emit, FailedImageModel_deleteOne.
    rewrite bind_eq, storeCall_eq. cbn [now advance record_event set_images].
    destruct (store_rejects w (FailedDeleteOne id) _) as [msg|].
    { exists 5%nat. cbn. rewrite <- ?app_assoc.
      repeat split; try lia; try done.
      intros id' Hne. by rewrite lookup_insert_ne. }
    exists idx, thumbnail. split; [done|]. split; [done|].
    unfold set_failed_images, advance, record_event, set_images, success_events.
    cbn. rewrite <- ?app_assoc. reflexivity.
Qed.

(** The [try] block as a function of the state it starts in. *)
Lemma processChunk_try_eq (row : CSVRow.t) (s : State) :
  processChunk_try w config row s =
    let id := CSVRow.id row in
    let s1 := advance (EvStore (ImageFindOne id)) s in
    match store_rejects w (ImageFindOne id) (now s) with
    | Some msg => Throw (mkError msg) s1
    | None =>
        let s2 := advance (EvHttpGet (CSVRow.url row)) s1 in
        match thumbnail_at w config (CSVRow.url row) (S (now s)) with
        | inl msg =>
            Throw (mkError ("Failed to process thumbnail for ID " +:+ id +:+ ": " +:+ msg)) s2
        | inr thumbnail =>
            match JS.parseInt (CSVRow.index row) with
            | None => Throw (mkError "Cast to Number failed for value NaN at path index") s2
            | Some idx =>
                let existing := has_image s id in
                let op := if existing then ImageUpdateOne id else ImageCreate id in
                let s3 := advance (EvStore op) s2 in
                match store_rejects w op (S (S (now s))) with
                | Some msg => Throw (mkError msg) s3
                | None =>
                    let s4 :=
                      advance (EvStore (FailedDeleteOne id))
                        (record_event
                           (EvLog LInfo (if existing then UpdatedExisting id
                                         else CreatedNew id))
                           (set_images (insert id (IImage.mk idx thumbnail)) s3)) in
                    match store_rejects w (FailedDeleteOne id) (S (S (S (now s)))) with
                    | Some msg => Throw (mkError msg) s4
                    | None => Ok tt (set_failed_images (delete id) s4)
                    end
                end
            end
        end
    end.
Proof.
  destruct row as [id index url]. cbv zeta.
  unfold processChunk_try, has_image. cbn [CSVRow.id CSVRow.index CSVRow.url].
  rewrite bind_eq. unfold ImageModel_findOne. rewrite bind_eq, storeCall_eq.
  destruct (store_rejects w (ImageFindOne id) (now s)) as [msg|]; [reflexivity|].
  unfold gets. rewrite bind_eq, processThumbnail_eq. cbn [now advance images].
  destruct (thumbnail_at w config url (S (now s))) as [msg|thumbnail]; [reflexivity|].
  rewrite bind_eq.
  destruct (JS.parseInt index) as [idx|]; cycle 1.
  { destruct (images s !! id); rewrite bind_eq;
      unfold ImageModel_updateOne, ImageModel_create, castNumber;
      rewrite bind_eq; reflexivity. }
  destruct (images s !! id) as [old|] eqn:Himg.
  - rewrite bind_eq. unfold ImageModel_updateOne, castNumber.
    rewrite bind_eq. unfold ret at 1. rewrite bind_eq, storeCall_eq. cbn [now advance].
    rewrite bool_decide_eq_true_2 by eauto.
    destruct (store_rejects w (ImageUpdateOne id) _) as [msg|]; [reflexivity|].
    unfold modify, logger.info, emit, FailedImageModel_deleteOne.
    rewrite bind_eq, storeCall_eq. unfold set_images.
    cbn [now advance record_event images failed_images connected trace].
    rewrite ?Himg.
    destruct (store_rejects w (FailedDeleteOne id) _) as [msg|]; reflexivity.
  - rewrite bind_eq. unfold ImageModel_create, castNumber.
    rewrite bind_eq. unfold ret at 1. rewrite bind_eq, storeCall_eq. cbn [now advance].
    rewrite bool_decide_eq_false_2 by (intros [? ?]; discriminate).
    destruct (store_rejects w (ImageCreate id) _) as [msg|]; [reflexivity|].
    unfold gets. rewrite bind_eq. cbn [images advance]. rewrite ?Himg.
    unfold modify, logger.info, emit, FailedImageModel_deleteOne.
    rewrite bind_eq, storeCall_eq. cbn [now advance record_event set_images].
    destruct (store_rejects w (FailedDeleteOne id) _) as [msg|]; reflexivity.
Qed.

Lemma processChunk_catch_eq (row : CSVRow.t) (error : Error) (s : State) :
  processChunk_catch w row error s =
    match JS.parseInt (CSVRow.index row) with
    | None => Throw (mkError "Cast to Number failed for value NaN at path index") s
    | Some idx =>
        let s1 := advance (EvStore (FailedFindOneAndUpdate (CSVRow.id row))) s in
        match store_rejects w (FailedFindOneAndUpdate (CSVRow.id row)) (now s) with
        | Some msg => Throw (mkError msg) s1
        | None =>
            Ok tt (record_event
                     (EvLog LError (FailedToProcess (CSVRow.id row) (CSVRow.url row) error))
                     (set_failed_images
                        (fun m => <[CSVRow.id row :=
                                      IFailedImage.mk idx (CSVRow.url row) (message error)
                                        (inc_attempts (m !! CSVRow.id row)) (now s)]> m)
                        s1))
        end
    end.
Proof.
  unfold processChunk_catch, newDate, gets. rewrite bind_eq.
  unfold FailedImageModel_findOneAndUpdate, castNumber.
  destruct (JS.parseInt (CSVRow.index row)) as [idx|]; [|reflexivity].
  rewrite !bind_eq. unfold ret at 1. rewrite bind_eq, storeCall_eq.
  destruct (store_rejects w _ (now s)); reflexivity.
Qed.

Lemma processChunk_body_eq (row : CSVRow.t) (successCount : Z) (s : State) :
  processChunk_body w config row successCount s =
    match processChunk_try w config row s with
    | Ok _ s' => Ok (successCount + 1) s'
    | Throw error s' =>
        match processChunk_catch w row error s' with
        | Ok _ s'' => Ok successCount s''
        | Throw e s'' => Throw e s''
        end
    end.
Proof.
  unfold processChunk_body, try_catch. rewrite !bind_eq.
  destruct (processChunk_try w config row s); reflexivity.
Qed.

(** A completed iteration either succeeded and counted the row, or wrote
    the failure to the ledger and left the count alone. *)
Lemma processChunk_body_spec (row : CSVRow.t) (sc sc' : Z) (s s' : State) :
  processChunk_body w config row sc s = Ok sc' s' ->
  (sc' = sc + 1 /\ row_succeeded w config row s s') \/
  (sc' = sc /\ exists e k, row_failed row e k s s').
Proof.
  rewrite processChunk_body_eq.
  pose proof (processChunk_try_spec row s) as Htry.
  destruct (processChunk_try w config row s) as [[] s1|e s1].
  { intros [= <- <-]. left. split; [reflexivity|exact Htry]. }
  destruct Htry as (k & Hk & Htr & Hnow & Hconn & Hfailed & Himg).
  rewrite processChunk_catch_eq.
  destruct (JS.parseInt (CSVRow.index row)) as [idx|] eqn:Hidx; [|discriminate].
  cbv zeta.
  destruct (store_rejects w _ (now s1)); [discriminate|].
  intros [= <- <-]. right. split; [reflexivity|].
  exists e, k, idx, (now s1).
  unfold set_failed_images, record_event, advance. cbn.
  rewrite Htr, Hfailed, <- !app_assoc.
  repeat split; try done; try lia.
Qed.

(** An iteration can only throw out of its [catch] block. It does not when
    the index of the row is a number and the ledger accepts the write. *)
Lemma processChunk_body_returns (row : CSVRow.t) (sc : Z) (s : State) :
  is_Some (JS.parseInt (CSVRow.index row)) ->
  (forall t, store_rejects w (FailedFindOneAndUpdate (CSVRow.id row)) t = None) ->
  exists sc' s', processChunk_body w config row sc s = Ok sc' s'.
Proof.
  intros [idx Hidx] Hledger.
  rewrite processChunk_body_eq.
  destruct (processChunk_try w config row s) as [[] s1|e s1]; [eauto|].
  rewrite processChunk_catch_eq, Hidx. cbv zeta. rewrite Hledger. eauto.
Qed.

(** Whatever its outcome, an iteration touches no document of another id. *)
Lemma processChunk_body_frame (row : CSVRow.t) (sc : Z) (s : State) (id' : string) :
  id' <> CSVRow.id row ->
  let s' := final_state (processChunk_body w config row sc s) in
  images s' !! id' = images s !! id' /\
  failed_images s' !! id' = failed_images s !! id'.
Proof.
  intros Hne. cbv zeta. rewrite processChunk_body_eq.
  pose proof (processChunk_try_spec row s) as Htry.
  destruct (processChunk_try w config row s) as [[] s1|e s1].
  { destruct Htry as (idx & thumbnail & _ & _ & ->). cbn.
    rewrite lookup_insert_ne, lookup_delete_ne by done. done. }
  destruct Htry as (k & _ & _ & _ & _ & Hfailed & Himg).
  rewrite processChunk_catch_eq.
  destruct (JS.parseInt (CSVRow.index row)) as [idx|]; cbv zeta.
  - destruct (store_rejects w _ (now s1)); cbn.
    + rewrite Hfailed. auto.
    + rewrite lookup_insert_ne, Hfailed by done. auto.
  - cbn. rewrite Hfailed. auto.
Qed.

End Steps.

(** ** The loops: a chunk, and a pass *)

Lemma success_events_prefix (existing : bool) (row : CSVRow.t) (k : nat) :
  (1 <= k)%nat ->
  let evs := take k (success_events existing row) in
  milestones evs = [RowStarted (CSVRow.id row)] /\
  failures evs = [] /\ ledger_writes evs = [].
Proof.
  intros Hk. destruct k as [|[|[|[|[|k]]]]]; [lia| | | | |];
    destruct existing; cbn; rewrite ?take_nil; repeat split; reflexivity.
Qed.

Lemma success_events_all (existing : bool) (row : CSVRow.t) :
  let evs := success_events existing row in
  milestones evs = [RowStarted (CSVRow.id row)] /\
  failures evs = [] /\ ledger_writes evs = [].
Proof. destruct existing; repeat split; reflexivity. Qed.

Lemma milestones_app (l1 l2 : list Event) :
  milestones (l1 ++ l2) = milestones l1 ++ milestones l2.
Proof. apply omap_app. Qed.

Lemma failures_app (l1 l2 : list Event) : failures (l1 ++ l2) = failures l1 ++ failures l2.
Proof. apply omap_app. Qed.

Lemma ledger_writes_app (l1 l2 : list Event) :
  ledger_writes (l1 ++ l2) = ledger_writes l1 ++ ledger_writes l2.
Proof. apply omap_app. Qed.

Section Loops.

Context (w : World) (config : ProcessorConfig.t).

(** What one completed iteration adds to the trace. *)
Lemma processChunk_body_events (row : CSVRow.t) (sc sc' : Z) (s s' : State) :
  processChunk_body w config row sc s = Ok sc' s' ->
  exists evs, trace s' = trace s ++ evs /\
    milestones evs = [RowStarted (CSVRow.id row)] /\
    ledger_writes evs = failures evs /\
    ((sc' = sc + 1 /\ failures evs = []) \/
     (sc' = sc /\ failures evs = [CSVRow.id row])).
Proof.
  intros H. apply processChunk_body_spec in H as [[-> Hok]|[-> (e & k & Hfail)]].
  - destruct Hok as (idx & thumbnail & _ & _ & ->). cbn.
    eexists. split; [reflexivity|].
    destruct (success_events_all (has_image s (CSVRow.id row)) row) as (-> & -> & ->).
    auto.
  - destruct Hfail as (idx & t & _ & Hk & _ & _ & _ & Htr & _).
    eexists. split; [exact Htr|].
    destruct (success_events_prefix (has_image s (CSVRow.id row)) row k) as (Hm & Hf & Hl);
      [lia|].
    rewrite milestones_app, ledger_writes_app, failures_app, Hm, Hf, Hl.
    cbn. auto.
Qed.

Lemma processChunk_loop_events (rows : list CSVRow.t) (sc sc' : Z) (s s' : State) :
  processChunk_loop w config rows sc s = Ok sc' s' ->
  exists evs, trace s' = trace s ++ evs /\
    milestones evs = map (fun row => RowStarted (CSVRow.id row)) rows /\
    ledger_writes evs = failures evs /\
    sc' = sc + Z.of_nat (length rows) - Z.of_nat (length (failures evs)) /\
    (length (failures evs) <= length rows)%nat.
Proof.
  revert sc s. induction rows as [|row rows IH]; intros sc s; cbn [processChunk_loop].
  - intros [= <- <-]. exists []. rewrite app_nil_r. cbn. repeat split; lia.
  - rewrite bind_eq.
    destruct (processChunk_body w config row sc s) as [sc1 s1|] eqn:Hbody; [|discriminate].
    intros Hrest.
    apply processChunk_body_events in Hbody as (evs1 & Htr1 & Hm1 & Hl1 & Hcount).
    apply IH in Hrest as (evs2 & Htr2 & Hm2 & Hl2 & Hsc & Hle).
    exists (evs1 ++ evs2).
    rewrite Htr2, Htr1, <- app_assoc, milestones_app, ledger_writes_app, failures_app.
    rewrite Hm1, Hm2, Hl1, Hl2, length_app. cbn [map length].
    repeat split; try done;
      destruct Hcount as [[-> ->]|[-> ->]]; cbn [length]; lia.
Qed.

Lemma processImages_loop_events (chunks : list (list CSVRow.t)) (k nchunks nrows : nat)
    (p f : Z) (s s' : State) (counts : Z * Z) :
  processImages_loop w config chunks k nchunks nrows p f s = Ok counts s' ->
  exists evs, trace s' = trace s ++ evs /\
    pass_log nchunks nrows k p f chunks (milestones evs) counts.1 counts.2 /\
    ledger_writes evs = failures evs /\
    counts.2 = f + Z.of_nat (length (failures evs)) /\
    counts.1 + counts.2 = p + f + Z.of_nat (length (concat chunks)) /\
    (length (failures evs) <= length (concat chunks))%nat.
Proof.
  revert k p f s. induction chunks as [|chunk chunks IH]; intros k p f s;
    cbn [processImages_loop].
  - intros [= <- <-]. exists []. rewrite app_nil_r. cbn. repeat split; try lia.
    constructor.
  - rewrite bind_eq. unfold processChunk.
    destruct (processChunk_loop w config chunk 0 s) as [sc s1|] eqn:Hchunk; [|discriminate].
    rewrite bind_eq. unfold logger.info at 1, emit.
    intros Hrest.
    apply processChunk_loop_events in Hchunk as (evs1 & Htr1 & Hm1 & Hl1 & Hsc & Hle).
    apply IH in Hrest as (evs2 & Htr2 & Hlog & Hl2 & Hf & Hsum & Hle2).
    cbn [trace record_event] in Htr2.
    eexists (evs1 ++ _ :: evs2). split.
    { rewrite Htr2, Htr1, <- !app_assoc. reflexivity. }
    rewrite milestones_app, ledger_writes_app, failures_app.
    cbn [milestones ledger_writes failures omap list_omap milestone failure_of ledger_write_of].
    fold (milestones evs2) (ledger_writes evs2) (failures evs2).
    rewrite Hm1, Hl1, Hl2. cbn [concat]. rewrite !length_app.
    split; [|repeat split; try done; lia].
    constructor; try lia. exact Hlog.
Qed.


(** [_.chunk] with a size of at least one cuts the list into consecutive
    non-empty slices of at most that size. *)
Lemma chunk_aux_concat {A} (n fuel : nat) (l : list A) :
  (1 <= n)%nat -> (length l <= fuel)%nat -> concat (Lodash.chunk_aux fuel n l) = l.
Proof.
  intros Hn. revert l. induction fuel as [|fuel IH]; intros l Hlen.
  - destruct l; [reflexivity|cbn in Hlen; lia].
  - destruct l as [|x l]; [reflexivity|].
    cbn [Lodash.chunk_aux concat]. rewrite IH, take_drop; [reflexivity|].
    rewrite length_drop. cbn [length] in *. lia.
Qed.


Lemma chunk_concat {A} (l : list A) (size : Z) :
  1 <= size -> concat (Lodash.chunk l size) = l.
Proof.
  intros Hsize. unfold Lodash.chunk.
  destruct (Z.ltb_spec size 1); [lia|].
  apply chunk_aux_concat; lia.
Qed.


Lemma chunk_below_one {A} (l : list A) (size : Z) : size < 1 -> Lodash.chunk l size = [].
Proof.
  intros Hsize. unfold Lodash.chunk. destruct (Z.ltb_spec size 1); [reflexivity|lia].
Qed.

(** What a completed pass adds to the trace, and what it returns. *)
Lemma processImages_events (rows : list CSVRow.t) (s s' : State) (r : ProcessingResult.t) :
  processImages w config rows s = Ok r s' ->
  let chunks := Lodash.chunk rows (ProcessorConfig.batchSize config) in
  exists evs, trace s' = trace s ++ evs /\
    pass_log (length chunks) (length rows) 0 0 0 chunks (milestones evs)
      (ProcessingResult.processed r) (ProcessingResult.failed r) /\
    ledger_writes evs = failures evs /\
    ProcessingResult.total r = Z.of_nat (length rows) /\
    ProcessingResult.failed r = Z.of_nat (length (failures evs)) /\
    ProcessingResult.processed r + ProcessingResult.failed r
      = Z.of_nat (length (concat chunks)) /\
    (length (failures evs) <= length (concat chunks))%nat.
Proof.
  unfold processImages. cbv zeta. rewrite bind_eq.
  destruct (processImages_loop _ _ _ _ _ _ _ _ s) as [counts s1|] eqn:Hloop; [|discriminate].
  intros [= <- <-].
  apply processImages_loop_events in Hloop as (evs & Htr & Hlog & Hl & Hf & Hsum & Hle).
  exists evs. cbn. repeat split; try done; lia.
Qed.

End Loops.

(** ** Counts and progress of a pass *)







(** ** Row failures and the pass *)

Section Absorb.

Context (w : World) (config : ProcessorConfig.t).

Lemma processChunk_loop_returns (rows : list CSVRow.t) (sc : Z) (s : State) :
  Forall index_is_number rows -> ledger_accepts w ->
  exists sc' s', processChunk_loop w config rows sc s = Ok sc' s'.
Proof.
  intros Hrows Hledger. revert sc s.
  induction Hrows as [|row rows Hrow _ IH]; intros sc s; cbn [processChunk_loop].
  - unfold ret. eauto.
  - rewrite bind_eq.
    destruct (processChunk_body_returns w config row sc s Hrow (Hledger _)) as (sc1 & s1 & ->).
    apply IH.
Qed.

Lemma processImages_loop_returns (chunks : list (list CSVRow.t)) (k nchunks nrows : nat)
    (p f : Z) (s : State) :
  Forall (Forall index_is_number) chunks -> ledger_accepts w ->
  exists counts s', processImages_loop w config chunks k nchunks nrows p f s = Ok counts s'.
Proof.
  intros Hchunks Hledger. revert k p f s.
  induction Hchunks as [|chunk chunks Hchunk _ IH]; intros k p f s;
    cbn [processImages_loop].
  - unfold ret. eauto.
  - rewrite bind_eq. unfold processChunk.
    destruct (processChunk_loop_returns chunk 0 s Hchunk Hledger) as (sc & s1 & ->).
    rewrite bind_eq. unfold logger.info at 1, emit. apply IH.
Qed.

Lemma chunk_aux_Forall {A} (P : A -> Prop) (fuel n : nat) (l : list A) :
  Forall P l -> Forall (Forall P) (Lodash.chunk_aux fuel n l).
Proof.
  revert l. induction fuel as [|fuel IH]; intros l Hl; [constructor|].
  destruct l as [|x l]; [constructor|].
  cbn [Lodash.chunk_aux]. constructor.
  - apply Forall_take, Hl.
  - apply IH, Forall_drop, Hl.
Qed.

(** A pass over rows whose index is a number returns whenever the store
    accepts the writes to the failure ledger. *)
Lemma processImages_returns (rows : list CSVRow.t) (s : State) :
  Forall index_is_number rows -> ledger_accepts w ->
  exists r s', processImages w config rows s = Ok r s'.
Proof.
  intros Hrows Hledger. unfold processImages. cbv zeta. rewrite bind_eq.
  destruct (processImages_loop_returns
              (Lodash.chunk rows (ProcessorConfig.batchSize config)) 0
              (length (Lodash.chunk rows (ProcessorConfig.batchSize config)))
              (length rows) 0 0 s) as (counts & s' & ->); [|exact Hledger|unfold ret; eauto].
  unfold Lodash.chunk. destruct (_ <? 1); [constructor|].
  apply chunk_aux_Forall, Hrows.
Qed.

Lemma pass_log_rows_started (nch nr k : nat) (p f pn fn : Z)
    (chunks : list (list CSVRow.t)) (ms : list Milestone) :
  pass_log nch nr k p f chunks ms pn fn ->
  omap row_started ms = map CSVRow.id (concat chunks).
Proof.
  induction 1 as [|k p f chunk chunks p' f' rest pn fn _ _ _ _ IH]; [reflexivity|].
  rewrite omap_app. cbn [concat omap list_omap row_started].
  fold (omap row_started rest). rewrite map_app, IH. f_equal.
  clear. induction chunk as [|row chunk IH]; [reflexivity|].
  cbn. f_equal. exact IH.
Qed.

(** A completed iteration, by what its [try] block did. *)
Lemma processChunk_body_outcome (row : CSVRow.t) (sc sc' : Z) (s s' : State) :
  processChunk_body w config row sc s = Ok sc' s' ->
  match processChunk_try w config row s with
  | Ok _ _ => sc' = sc + 1 /\ row_succeeded w config row s s'
  | Throw e _ => sc' = sc /\ exists k, row_failed row e k s s'
  end.
Proof.
  rewrite processChunk_body_eq.
  pose proof (processChunk_try_spec w config row s) as Htry.
  destruct (processChunk_try w config row s) as [[] s1|e s1].
  { intros [= <- <-]. split; [reflexivity|exact Htry]. }
  destruct Htry as (k & Hk & Htr & Hnow & Hconn & Hfailed & Himg).
  rewrite processChunk_catch_eq.
  destruct (JS.parseInt (CSVRow.index row)) as [idx|] eqn:Hidx; [|discriminate].
  cbv zeta.
  destruct (store_rejects w _ (now s1)); [discriminate|].
  intros [= <- <-]. split; [reflexivity|].
  exists k, idx, (now s1).
  unfold set_failed_images, record_event, advance. cbn.
  rewrite Htr, Hfailed, <- !app_assoc.
  repeat split; try done; try lia.
Qed.

(** The [try] block throws exactly when something goes wrong for the row,
    and throws that error. *)
Lemma processChunk_try_cause (row : CSVRow.t) (s : State) :
  is_Some (JS.parseInt (CSVRow.index row)) ->
  failure_cause w config row s =
    match processChunk_try w config row s with
    | Ok _ _ => None
    | Throw e _ => Some e
    end.
Proof.
  intros [idx Hidx]. rewrite processChunk_try_eq. unfold failure_cause. cbv zeta.
  rewrite Hidx.
  destruct (store_rejects w (ImageFindOne _) _); [reflexivity|].
  destruct (thumbnail_at w config _ _); [reflexivity|].
  destruct (store_rejects w (if has_image s _ then _ else _) _); [reflexivity|].
  destruct (store_rejects w (FailedDeleteOne _) _); reflexivity.
Qed.

Lemma processChunk_body_absorbs (row : CSVRow.t) (sc sc' : Z) (s s' : State) :
  processChunk_body w config row sc s = Ok sc' s' ->
  match failure_cause w config row s with
  | None => sc' = sc + 1 /\ row_succeeded w config row s s'
  | Some e => sc' = sc /\ exists k, row_failed row e k s s'
  end.
Proof.
  intros Hbody. apply processChunk_body_outcome in Hbody.
  assert (is_Some (JS.parseInt (CSVRow.index row))) as Hidx.
  { destruct (processChunk_try w config row s).
    - destruct Hbody as (_ & idx & ? & Hidx & _). eauto.
    - destruct Hbody as (_ & k & idx & ? & Hidx & _). eauto. }
  rewrite (processChunk_try_cause row s Hidx).
  by destruct (processChunk_try w config row s).
Qed.

Lemma processChunk_loop_absorbs (rows : list CSVRow.t) (sc sc' : Z) (s s' : State) :
  processChunk_loop w config rows sc s = Ok sc' s' ->
  exists n, absorbed w config rows s s' n /\
            sc' = sc + Z.of_nat (length rows) - Z.of_nat n.
Proof.
  revert sc s. induction rows as [|row rows IH]; intros sc s; cbn [processChunk_loop].
  - intros [= <- <-]. exists 0%nat. split; [constructor|cbn; lia].
  - rewrite bind_eq.
    destruct (processChunk_body w config row sc s) as [sc1 s1|] eqn:Hbody; [|discriminate].
    intros (n & Hrest & ->)%IH.
    apply processChunk_body_absorbs in Hbody.
    destruct (failure_cause w config row s) as [e|] eqn:Hcause.
    + destruct Hbody as (-> & k & Hfail). exists (S n). split.
      * eapply absorbed_failure; eauto.
      * cbn [length]. lia.
    + destruct Hbody as (-> & Hok). exists n. split.
      * eapply absorbed_success; eauto.
      * cbn [length]. lia.
Qed.

Lemma absorbed_app (rows1 rows2 : list CSVRow.t) (s s1 s' : State) (n1 n2 : nat) :
  absorbed w config rows1 s s1 n1 -> absorbed w config rows2 s1 s' n2 ->
  absorbed w config (rows1 ++ rows2) s s' (n1 + n2).
Proof.
  induction 1 as [s|row rows s s0 s1 n Hcause Hok _ IH|row rows e k s s0 s1 n Hcause Hf _ IH
                  |rows m s s1 n _ IH]; intros Hrest.
  - exact Hrest.
  - eapply absorbed_success; eauto.
  - cbn. eapply absorbed_failure; eauto.
  - eapply absorbed_notified; eauto.
Qed.

Lemma processImages_loop_absorbs (chunks : list (list CSVRow.t)) (k nchunks nrows : nat)
    (p f : Z) (s s' : State) (counts : Z * Z) :
  processImages_loop w config chunks k nchunks nrows p f s = Ok counts s' ->
  exists n, absorbed w config (concat chunks) s s' n /\ counts.2 = f + Z.of_nat n.
Proof.
  revert k p f s. induction chunks as [|chunk chunks IH]; intros k p f s;
    cbn [processImages_loop].
  - intros [= <- <-]. exists 0%nat. split; [constructor|cbn; lia].
  - rewrite bind_eq. unfold processChunk.
    destruct (processChunk_loop w config chunk 0 s) as [sc s1|] eqn:Hchunk; [|discriminate].
    rewrite bind_eq. unfold logger.info at 1, emit.
    intros (n2 & Hrest & ->)%IH.
    apply processChunk_loop_absorbs in Hchunk as (n1 & Hfirst & ->).
    exists (n1 + n2)%nat. split; [|lia].
    cbn [concat]. eapply absorbed_app; [exact Hfirst|].
    eapply absorbed_notified. exact Hrest.
Qed.

Lemma processImages_absorbs (rows : list CSVRow.t) (s s' : State) (r : ProcessingResult.t) :
  processImages w config rows s = Ok r s' ->
  exists n, absorbed w config (concat (Lodash.chunk rows (ProcessorConfig.batchSize config)))
              s s' n /\
            ProcessingResult.failed r = Z.of_nat n.
Proof.
  unfold processImages. cbv zeta. rewrite bind_eq.
  destruct (processImages_loop _ _ _ _ _ _ _ _ s) as [counts s1|] eqn:Hloop; [|discriminate].
  intros [= <- <-].
  apply processImages_loop_absorbs in Hloop as (n & Habs & Hn).
  exists n. split; [exact Habs|]. cbn. lia.
Qed.

End Absorb.

(** C4, as the code has it: when the store accepts the upserts of the
    failure ledger and the index of every row is a number (as it is for
    the rows that [readCSV] returns), no failure of a row leaves
    [processImages]. The call returns, and row by row: a row for which
    nothing goes wrong succeeds; a row whose lookup is rejected, whose
    thumbnail cannot be obtained, or whose image write or ledger delete is
    rejected has that error written to the ledger with one attempt more,
    is logged and is counted in [failed]; then the next row is taken up,
    in this chunk and in every later one. Every row of every chunk was
    taken up in order (all the rows, when the batch size is at least
    one), and every failure that was logged had its ledger upsert issued
    and accepted. *)
Theorem processImages_absorbs_row_failures (w : World) (config : ProcessorConfig.t)
    (rows : list CSVRow.t) (s : State) :
  Forall index_is_number rows ->
  ledger_accepts w ->
  exists r s' evs,
    processImages w config rows s = Ok r s' /\
    trace s' = trace s ++ evs /\
    rows_started evs
      = map CSVRow.id (concat (Lodash.chunk rows (ProcessorConfig.batchSize config))) /\
    (1 <= ProcessorConfig.batchSize config -> rows_started evs = map CSVRow.id rows) /\
    ledger_writes evs = failures evs /\
    ProcessingResult.failed r = Z.of_nat (length (failures evs)) /\
    absorbed w config (concat (Lodash.chunk rows (ProcessorConfig.batchSize config)))
      s s' (length (failures evs)) /\
    (1 <= ProcessorConfig.batchSize config ->
     absorbed w config rows s s' (length (failures evs))).
Proof.
  intros Hrows Hledger.
  destruct (processImages_returns w config rows s Hrows Hledger) as (r & s' & Hrun).
  exists r, s'.
  pose proof (processImages_events w config rows s s' r Hrun)
    as (evs & Htr & Hlog & Hwrites & _ & Hfailed & _).
  exists evs.
  assert (rows_started evs
          = map CSVRow.id (concat (Lodash.chunk rows (ProcessorConfig.batchSize config))))
    as Hstarted by (unfold rows_started; exact (pass_log_rows_started _ _ _ _ _ _ _ _ _ Hlog)).
  destruct (processImages_absorbs w config rows s s' r Hrun) as (n & Habs & Hn).
  assert (n = length (failures evs)) as -> by lia.
  split_and!; try done.
  - intros Hsize. by rewrite Hstarted, chunk_concat.
  - intros Hsize. by rewrite chunk_concat in Habs.
Qed.

Lemma processImages_absorbs_row_failures_witness :
  let w := world_of (lookup_fails_for "B") http_ok "" in
  let o := processImages w (config_with_batchSize 2) [rowA; rowB; rowC] initial_state in
  o = Ok (ProcessingResult.mk 3 2 1) (final_state o) /\
  IFailedImage.error <$> failed_images (final_state o) !! "B" = Some "connection lost" /\
  rows_started (trace (final_state o)) = ["A"; "B"; "C"] /\
  absorbed w (config_with_batchSize 2) [rowA; rowB; rowC] initial_state (final_state o) 1.
Proof.
  cbv zeta. split; [vm_compute; reflexivity|]. split; [vm_compute; reflexivity|].
  split; [vm_compute; reflexivity|].
  destruct (processImages_absorbs_row_failures
              (world_of (lookup_fails_for "B") http_ok "") (config_with_batchSize 2)
              [rowA; rowB; rowC] initial_state)
    as (r & s' & evs & Hrun & _ & _ & _ & _ & Hfailed & _ & Habs).
  - repeat constructor; vm_compute; eauto.
  - intros id t. reflexivity.
  - rewrite Hrun. cbn [final_state].
    assert (r = ProcessingResult.mk 3 2 1) as ->.
    { assert (Some r = Some (ProcessingResult.mk 3 2 1)) as [= ->]; [|reflexivity].
      change (Some r) with (match Ok r s' with Ok a _ => Some a | Throw _ _ => None end).
      rewrite <- Hrun. vm_compute. reflexivity. }
    cbn in Hfailed.
    replace 1%nat with (length (failures evs)) by lia.
    apply Habs. vm_compute. discriminate.
Defined.

(** C4 as stated fails when the store is down: the lookup of the first row
    is rejected, the upsert of the ledger in the [catch] block is rejected
    too, and that error leaves [processImages]. Nothing was recorded and the
    second row was never taken up. *)
Lemma processImages_store_down_propagates :
  let o := processImages (world_of store_down http_ok "") default_config
                         [rowA; rowB] initial_state in
  o = Throw (mkError "connection lost") (final_state o) /\
  failed_images (final_state o) = ∅ /\
  (EvStore (ImageFindOne "B") ∉ trace (final_state o)).
Proof.
  cbv zeta. split; [vm_compute; reflexivity|]. split; [vm_compute; reflexivity|].
  apply (bool_decide_unpack _). vm_compute. exact I.
Qed.
(** ** The failure ledger *)

Lemma row_failed_ledger (row : CSVRow.t) (e : Error) (k : nat) (s s' : State) :
  row_failed row e k s s' ->
  exists idx t,
    JS.parseInt (CSVRow.index row) = Some idx /\
    (now s < t)%nat /\ now s' = S t /\
    last (trace s') = Some (EvLog LError (FailedToProcess (CSVRow.id row) (CSVRow.url row) e)) /\
    failed_images s' !! CSVRow.id row =
      Some (IFailedImage.mk idx (CSVRow.url row) (message e)
              (inc_attempts (failed_images s !! CSVRow.id row)) t).
Proof.
  intros (idx & t & Hidx & _ & Hlt & Hnow & _ & Htr & Hfailed & _).
  exists idx, t. repeat split; try done.
  - rewrite Htr. change [?a; ?b] with ([a] ++ [b]). rewrite !app_assoc. apply last_snoc.
  - rewrite Hfailed. apply lookup_insert_eq.
Qed.


(** ** Invariants of a pass, row by row *)

Section Invariant.

Context (w : World) (config : ProcessorConfig.t).

(** [J done s]: the rows [done] of the pass over [all] have been handled
    and the state is [s]. *)
Context (J : list CSVRow.t -> State -> Prop) (all : list CSVRow.t).

Hypothesis J_success : forall done row rest s s1,
  all = done ++ row :: rest -> J done s ->
  row_succeeded w config row s s1 -> J (done ++ [row]) s1.

Hypothesis J_failure : forall done row rest e k s s1,
  all = done ++ row :: rest -> J done s ->
  row_failed row e k s s1 -> J (done ++ [row]) s1.

Hypothesis J_log : forall done s m, J done s -> J done (record_event (EvLog LInfo m) s).

Lemma processChunk_loop_invariant (rows done rest : list CSVRow.t) (sc sc' : Z) (s s' : State) :
  all = done ++ rows ++ rest -> J done s ->
  processChunk_loop w config rows sc s = Ok sc' s' -> J (done ++ rows) s'.
Proof.
  revert done sc s. induction rows as [|row rows IH]; intros done sc s Hall HJ;
    cbn [processChunk_loop].
  - intros [= <- <-]. by rewrite app_nil_r.
  - rewrite bind_eq.
    destruct (processChunk_body w config row sc s) as [sc1 s1|] eqn:Hbody; [|discriminate].
    intros Hrest.
    replace (done ++ row :: rows) with ((done ++ [row]) ++ rows) by by rewrite <- app_assoc.
    eapply IH; [by rewrite <- app_assoc| |exact Hrest].
    apply processChunk_body_spec in Hbody as [[_ Hok]|[_ (e & k & Hfail)]].
    + eapply J_success; [exact Hall|exact HJ|exact Hok].
    + eapply J_failure; [exact Hall|exact HJ|exact Hfail].
Qed.

Lemma processImages_loop_invariant (chunks : list (list CSVRow.t)) (done : list CSVRow.t)
    (k nch nr : nat) (p f : Z) (s s' : State) (counts : Z * Z) :
  all = done ++ concat chunks -> J done s ->
  processImages_loop w config chunks k nch nr p f s = Ok counts s' -> J all s'.
Proof.
  revert done k p f s. induction chunks as [|chunk chunks IH]; intros done k p f s Hall HJ;
    cbn [processImages_loop].
  - intros [= <- <-]. cbn in Hall. rewrite app_nil_r in Hall. by subst.
  - rewrite bind_eq. unfold processChunk.
    destruct (processChunk_loop w config chunk 0 s) as [sc s1|] eqn:Hchunk; [|discriminate].
    rewrite bind_eq. unfold logger.info at 1, emit.
    cbn [concat] in Hall.
    apply (IH (done ++ chunk)); [by rewrite <- app_assoc|].
    apply J_log. eapply processChunk_loop_invariant; [exact Hall|exact HJ|exact Hchunk].
Qed.

Lemma processImages_invariant (s s' : State) (r : ProcessingResult.t) :
  1 <= ProcessorConfig.batchSize config -> J [] s ->
  processImages w config all s = Ok r s' -> J all s'.
Proof.
  intros Hsize HJ. unfold processImages. cbv zeta. rewrite bind_eq.
  destruct (processImages_loop _ _ _ _ _ _ _ _ s) as [counts s1|] eqn:Hloop; [|discriminate].
  intros [= <- <-].
  eapply (processImages_loop_invariant _ []); [|exact HJ|exact Hloop].
  by rewrite chunk_concat.
Qed.

End Invariant.

(** ** The fate of every row *)

Lemma elem_of_map_id (x : string) (rows : list CSVRow.t) :
  x ∈ map CSVRow.id rows <-> exists row, row ∈ rows /\ CSVRow.id row = x.
Proof.
  rewrite list_elem_of_In, in_map_iff. split.
  - intros (row & Hid & Hin). exists row. by rewrite list_elem_of_In.
  - intros (row & Hin & Hid). exists row. by rewrite <- list_elem_of_In.
Qed.

Lemma nodup_ids_fresh (done rest : list CSVRow.t) (row : CSVRow.t) :
  NoDup (map CSVRow.id (done ++ row :: rest)) -> CSVRow.id row ∉ map CSVRow.id done.
Proof.
  rewrite map_app. intros Hnd Hin.
  apply NoDup_app in Hnd as (_ & Hdisj & _).
  apply (Hdisj _ Hin). cbn. left.
Qed.

Section Fate.

Context (w : World) (config : ProcessorConfig.t) (all : list CSVRow.t) (s0 : State).
Hypothesis ids_distinct : NoDup (map CSVRow.id all).

Lemma fate_invariant_init : fate_invariant s0 [] s0.
Proof.
  exists []. rewrite app_nil_r. split; [done|]. split; [|split; [done|]].
  - intros id Hin. cbn in Hin. by apply not_elem_of_nil in Hin.
  - intros row Hin. by apply not_elem_of_nil in Hin.
Qed.

Lemma fate_invariant_success (done : list CSVRow.t) (row : CSVRow.t) (rest : list CSVRow.t)
    (s s1 : State) :
  all = done ++ row :: rest -> fate_invariant s0 done s ->
  row_succeeded w config row s s1 -> fate_invariant s0 (done ++ [row]) s1.
Proof.
  intros Hall (evs & Htr & Hsub & Hframe & Hfates) (idx & thumbnail & Hidx & _ & ->).
  pose proof ids_distinct as Hfresh. rewrite Hall in Hfresh. apply nodup_ids_fresh in Hfresh.
  destruct (success_events_all (has_image s (CSVRow.id row)) row) as (_ & Hnofail & _).
  exists (evs ++ success_events (has_image s (CSVRow.id row)) row).
  cbn [trace images failed_images]. rewrite failures_app, Hnofail, app_nil_r.
  split; [by rewrite Htr, app_assoc|]. split; [|split].
  - intros id Hin. rewrite map_app, elem_of_app. left. by apply Hsub.
  - intros id. rewrite map_app, elem_of_app. intros Hnot.
    assert (id <> CSVRow.id row) as Hne by (intros ->; apply Hnot; right; cbn; left).
    rewrite lookup_insert_ne, lookup_delete_ne by done.
    apply Hframe. intros Hin. apply Hnot. by left.
  - intros row' [Hin| ->%list_elem_of_singleton]%elem_of_app.
    + assert (CSVRow.id row' <> CSVRow.id row) as Hne.
      { intros Heq. apply Hfresh. apply elem_of_map_id. eauto. }
      specialize (Hfates row' Hin).
      unfold row_fate, image_stored in *. cbn [images failed_images].
      rewrite lookup_insert_ne, lookup_delete_ne, failures_app, Hnofail, app_nil_r by done.
      done.
    + left. rewrite failures_app, Hnofail, app_nil_r. split; [|split].
      * intros Hin. by apply Hfresh, Hsub.
      * apply lookup_delete_eq.
      * eexists. cbn [images]. split; [apply lookup_insert_eq|exact Hidx].
Qed.

Lemma fate_invariant_failure (done : list CSVRow.t) (row : CSVRow.t) (rest : list CSVRow.t)
    (e : Error) (k : nat) (s s1 : State) :
  all = done ++ row :: rest -> fate_invariant s0 done s ->
  row_failed row e k s s1 -> fate_invariant s0 (done ++ [row]) s1.
Proof.
  intros Hall (evs & Htr & Hsub & Hframe & Hfates)
    (idx & t & Hidx & Hk & _ & _ & _ & Htr1 & Hfailed & Himg).
  pose proof ids_distinct as Hfresh. rewrite Hall in Hfresh. apply nodup_ids_fresh in Hfresh.
  destruct (success_events_prefix (has_image s (CSVRow.id row)) row k) as (_ & Hnofail & _);
    [lia|].
  eexists (evs ++ _). split; [rewrite Htr1, Htr, <- app_assoc; reflexivity|].
  rewrite !failures_app, Hnofail. cbn [app failures omap list_omap failure_of].
  split; [|split].
  - intros id [Hin| ->%list_elem_of_singleton]%elem_of_app;
      rewrite map_app, elem_of_app; [left; by apply Hsub|right; cbn; left].
  - intros id. rewrite map_app, elem_of_app. intros Hnot.
    assert (id <> CSVRow.id row) as Hne by (intros ->; apply Hnot; right; cbn; left).
    rewrite Hfailed, lookup_insert_ne, Himg by done.
    apply Hframe. intros Hin. apply Hnot. by left.
  - intros row' [Hin| ->%list_elem_of_singleton]%elem_of_app.
    + assert (CSVRow.id row' <> CSVRow.id row) as Hne.
      { intros Heq. apply Hfresh. apply elem_of_map_id. eauto. }
      specialize (Hfates row' Hin).
      unfold row_fate, image_stored in *.
      rewrite Hfailed, lookup_insert_ne, Himg, !failures_app, Hnofail by done.
      cbn [app failures omap list_omap failure_of].
      destruct Hfates as [(Hnot & Hnone & Himage)|(Hyes & Hdoc)].
      * left. split; [|done]. rewrite elem_of_app, list_elem_of_singleton. tauto.
      * right. split; [|done]. rewrite elem_of_app. by left.
    + right. rewrite !failures_app, Hnofail. cbn [app failures omap list_omap failure_of].
      split; [rewrite elem_of_app, list_elem_of_singleton; by right|].
      rewrite Hfailed, lookup_insert_eq. eexists. split; [reflexivity|].
      cbn. by destruct (Hframe _ Hfresh) as [_ ->].
Qed.

Lemma fate_invariant_log (done : list CSVRow.t) (s : State) (m : LogMsg) :
  fate_invariant s0 done s -> fate_invariant s0 done (record_event (EvLog LInfo m) s).
Proof.
  intros (evs & Htr & Hsub & Hframe & Hfates).
  exists (evs ++ [EvLog LInfo m]). unfold row_fate, image_stored in *.
  cbn [trace record_event images failed_images].
  rewrite failures_app. cbn [failures omap list_omap failure_of]. rewrite app_nil_r.
  split; [by rewrite Htr, app_assoc|]. done.
Qed.

End Fate.

Lemma inc_attempts_pos (old : option IFailedImage.t) : (1 <= inc_attempts old)%nat.
Proof. destruct old; cbn; lia. Qed.

(** C6, as the code has it: after a pass over rows with pairwise distinct
    ids that returns, every row is in exactly one of two situations: either
    the ledger has no entry for its id and [images] holds an entry with the
    index of the row, or the ledger has an entry with [attempts >= 1]. The
    first is the case exactly when no failure was logged for the id in this
    pass, also when the id was in the ledger before the pass; the second
    when one was, and then [attempts] is one more than before the pass. *)
Theorem pass_settles_every_row (w : World) (config : ProcessorConfig.t)
    (rows : list CSVRow.t) (s s' : State) (r : ProcessingResult.t) :
  1 <= ProcessorConfig.batchSize config ->
  NoDup (map CSVRow.id rows) ->
  processImages w config rows s = Ok r s' ->
  exists evs, trace s' = trace s ++ evs /\
    forall row, row ∈ rows ->
      exactly_one (failed_images s' !! CSVRow.id row = None /\ image_stored row s')
                  (failure_recorded row s') /\
      ((CSVRow.id row ∉ failures evs) ->
         failed_images s' !! CSVRow.id row = None /\ image_stored row s') /\
      ((CSVRow.id row ∈ failures evs) ->
         exists doc, failed_images s' !! CSVRow.id row = Some doc /\
           IFailedImage.attempts doc = inc_attempts (failed_images s !! CSVRow.id row)).
Proof.
  intros Hsize Hnodup Hrun.
  pose proof (processImages_invariant w config (fate_invariant s) rows
                (fate_invariant_success w config rows s Hnodup)
                (fate_invariant_failure rows s Hnodup)
                (fate_invariant_log s)
                s s' r Hsize (fate_invariant_init s) Hrun)
    as (evs & Htr & _ & _ & Hfates).
  exists evs. split; [exact Htr|].
  intros row Hin.
  destruct (Hfates row Hin) as [(Hnot & Hnone & Himage)|(Hyes & doc & Hdoc & Hatt)].
  - split; [|split].
    + left. split; [done|]. intros (doc & Hdoc & _). congruence.
    + done.
    + intros Hyes. by destruct Hnot.
  - split; [|split].
    + right. split.
      * intros [Hnone _]. congruence.
      * exists doc. split; [done|]. rewrite Hatt. apply inc_attempts_pos.
    + intros Hnot. by destruct Hnot.
    + intros _. eauto.
Qed.

Lemma pass_settles_every_row_witness :
  let w := world_of store_up (http_until 2) "" in
  let s' := final_state (processImages w default_config [rowA; rowB] initial_state) in
  exists evs, trace s' = trace initial_state ++ evs /\
    forall row, row ∈ [rowA; rowB] ->
      exactly_one (failed_images s' !! CSVRow.id row = None /\ image_stored row s')
                  (failure_recorded row s') /\
      ((CSVRow.id row ∉ failures evs) ->
         failed_images s' !! CSVRow.id row = None /\ image_stored row s') /\
      ((CSVRow.id row ∈ failures evs) ->
         exists doc, failed_images s' !! CSVRow.id row = Some doc /\
           IFailedImage.attempts doc
             = inc_attempts (failed_images initial_state !! CSVRow.id row)).
Proof.
  apply (pass_settles_every_row (world_of store_up (http_until 2) "") default_config
           [rowA; rowB] initial_state _ (ProcessingResult.mk 2 1 1)).
  - vm_compute. discriminate.
  - apply (bool_decide_unpack _). vm_compute. exact I.
  - vm_compute. reflexivity.
Defined.

(** C6 as stated fails in two ways. When a row that succeeded in an earlier
    pass fails in this one, [images] still holds its index and the ledger
    has an entry: both alternatives hold. When two rows share an id and the
    second succeeds after the first failed, [images] holds the index of the
    second and the ledger is empty: for the first row neither holds. *)
Lemma pass_fate_not_exactly_one :
  (let w := world_of store_up (http_until 2) "" in
   let s1 := final_state (processImages w default_config [rowA] initial_state) in
   let s2 := final_state (processImages w default_config [rowA] s1) in
   ~ exactly_one (image_stored rowA s2) (failure_recorded rowA s2)) /\
  (let w := world_of store_up (http_from 2) "" in
   let s' := final_state (processImages w default_config [rowA; rowA2] initial_state) in
   ~ exactly_one (image_stored rowA s') (failure_recorded rowA s')).
Proof.
  split; cbv zeta.
  - intros [[_ Hnot]|[Hnot _]]; apply Hnot.
    + eexists. split; [vm_compute; reflexivity|vm_compute; lia].
    + eexists. split; vm_compute; reflexivity.
  - intros [[(img & Himg & Hidx) _]|[_ (doc & Hdoc & _)]].
    + vm_compute in Himg. injection Himg as <-. vm_compute in Hidx. discriminate.
    + vm_compute in Hdoc. discriminate.
Qed.
(** ** What a pass can touch, whatever its outcome *)

Lemma rows_started_app (l1 l2 : list Event) :
  rows_started (l1 ++ l2) = rows_started l1 ++ rows_started l2.
Proof. unfold rows_started. by rewrite milestones_app, omap_app. Qed.

Lemma touches_refl (ids : list string) (s : State) : touches ids s s.
Proof.
  exists []. rewrite app_nil_r. split; [done|]. split; [|done].
  intros id Hin. by apply not_elem_of_nil in Hin.
Qed.

Lemma touches_trans (ids1 ids2 : list string) (s s1 s2 : State) :
  touches ids1 s s1 -> touches ids2 s1 s2 -> touches (ids1 ++ ids2) s s2.
Proof.
  intros (evs1 & Htr1 & Hst1 & Hfr1) (evs2 & Htr2 & Hst2 & Hfr2).
  exists (evs1 ++ evs2). split; [by rewrite Htr2, Htr1, app_assoc|]. split.
  - intros id. rewrite rows_started_app, !elem_of_app. intros [?|?]; auto.
  - intros id Hnot. rewrite elem_of_app in Hnot.
    destruct (Hfr2 id) as [-> ->]; [tauto|]. apply Hfr1. tauto.
Qed.

Lemma touches_log (s : State) (m : LogMsg) (ids : list string) :
  (forall id, milestone (EvLog LInfo m) <> Some (RowStarted id)) ->
  touches ids s (record_event (EvLog LInfo m) s).
Proof.
  intros Hm. exists [EvLog LInfo m]. split; [done|]. split; [|done].
  intros id. unfold rows_started, milestones. cbn [omap list_omap].
  destruct (milestone (EvLog LInfo m)) as [[id'|n]|] eqn:Hmil; cbn.
  - by destruct (Hm id').
  - intros Hin. by apply not_elem_of_nil in Hin.
  - intros Hin. by apply not_elem_of_nil in Hin.
Qed.

Section Touches.

Context (w : World) (config : ProcessorConfig.t).

Lemma processChunk_body_trace (row : CSVRow.t) (sc : Z) (s : State) :
  exists evs,
    trace (final_state (processChunk_body w config row sc s)) = trace s ++ evs /\
    rows_started evs = [CSVRow.id row].
Proof.
  rewrite processChunk_body_eq.
  pose proof (processChunk_try_spec w config row s) as Htry.
  destruct (processChunk_try w config row s) as [[] s1|e s1].
  { destruct Htry as (idx & thumbnail & _ & _ & ->). cbn.
    eexists. split; [reflexivity|]. unfold rows_started.
    by destruct (success_events_all (has_image s (CSVRow.id row)) row) as (-> & _). }
  destruct Htry as (k & Hk & Htr & _).
  destruct (success_events_prefix (has_image s (CSVRow.id row)) row k) as (Hm & _); [lia|].
  assert (rows_started (take k (success_events (has_image s (CSVRow.id row)) row))
          = [CSVRow.id row]) as Hstarted by (unfold rows_started; by rewrite Hm).
  rewrite processChunk_catch_eq.
  destruct (JS.parseInt (CSVRow.index row)) as [idx|]; cbv zeta.
  - destruct (store_rejects w _ (now s1)); cbn; rewrite Htr, <- !app_assoc;
      (eexists; split; [reflexivity|]); by rewrite rows_started_app, Hstarted.
  - cbn. eexists. split; [exact Htr|exact Hstarted].
Qed.

Lemma processChunk_body_touches (row : CSVRow.t) (sc : Z) (s : State) :
  touches [CSVRow.id row] s (final_state (processChunk_body w config row sc s)).
Proof.
  destruct (processChunk_body_trace row sc s) as (evs & Htr & Hstarted).
  exists evs. split; [exact Htr|]. split.
  - by rewrite Hstarted.
  - intros id Hnot. apply processChunk_body_frame.
    intros ->. apply Hnot. apply list_elem_of_singleton. reflexivity.
Qed.

Lemma processChunk_loop_touches (rows : list CSVRow.t) (sc : Z) (s : State) :
  touches (map CSVRow.id rows) s (final_state (processChunk_loop w config rows sc s)).
Proof.
  revert sc s. induction rows as [|row rows IH]; intros sc s; cbn [processChunk_loop].
  - apply touches_refl.
  - rewrite bind_eq.
    pose proof (processChunk_body_touches row sc s) as Hbody.
    destruct (processChunk_body w config row sc s) as [sc1 s1|e s1]; cbn [final_state] in Hbody.
    + apply (touches_trans [CSVRow.id row] _ _ _ _ Hbody (IH sc1 s1)).
    + cbn [final_state]. rewrite <- (app_nil_r (map _ _)).
      change (map CSVRow.id (row :: rows) ++ []) with
        ([CSVRow.id row] ++ (map CSVRow.id rows ++ [])).
      eapply touches_trans; [exact Hbody|apply touches_refl].
Qed.

Lemma processImages_loop_touches (chunks : list (list CSVRow.t)) (k nch nr : nat)
    (p f : Z) (s : State) :
  touches (map CSVRow.id (concat chunks)) s
    (final_state (processImages_loop w config chunks k nch nr p f s)).
Proof.
  revert k p f s. induction chunks as [|chunk chunks IH]; intros k p f s;
    cbn [processImages_loop].
  - apply touches_refl.
  - rewrite bind_eq. unfold processChunk. cbn [concat]. rewrite map_app.
    pose proof (processChunk_loop_touches chunk 0 s) as Hchunk.
    destruct (processChunk_loop w config chunk 0 s) as [sc s1|e s1]; cbn [final_state] in Hchunk.
    + rewrite bind_eq. unfold logger.info at 1, emit.
      eapply touches_trans; [exact Hchunk|].
      rewrite <- (app_nil_l (map CSVRow.id (concat chunks))).
      eapply touches_trans; [|apply IH].
      apply touches_log. discriminate.
    + cbn [final_state]. eapply touches_trans; [exact Hchunk|apply touches_refl].
Qed.

Lemma processImages_touches (rows : list CSVRow.t) (s : State) :
  touches (map CSVRow.id rows) s (final_state (processImages w config rows s)).
Proof.
  unfold processImages. cbv zeta. rewrite bind_eq.
  pose proof (processImages_loop_touches
                (Lodash.chunk rows (ProcessorConfig.batchSize config)) 0
                (length (Lodash.chunk rows (ProcessorConfig.batchSize config)))
                (length rows) 0 0 s) as Hloop.
  assert (forall id, id ∈ map CSVRow.id (concat (Lodash.chunk rows
                              (ProcessorConfig.batchSize config)))
                     -> id ∈ map CSVRow.id rows) as Hsub.
  { destruct (Z.ltb_spec (ProcessorConfig.batchSize config) 1) as [Hlt|Hge].
    - rewrite chunk_below_one by exact Hlt. cbn. intros id Hin.
      by apply not_elem_of_nil in Hin.
    - by rewrite chunk_concat. }
  assert (touches (map CSVRow.id rows) s
            (final_state (processImages_loop w config
               (Lodash.chunk rows (ProcessorConfig.batchSize config)) 0
               (length (Lodash.chunk rows (ProcessorConfig.batchSize config)))
               (length rows) 0 0 s))) as Htouch.
  { destruct Hloop as (evs & Htr & Hst & Hfr). exists evs. split; [exact Htr|]. split.
    - intros id Hin. apply Hsub, Hst, Hin.
    - intros id Hnot. apply Hfr. intros Hin. apply Hnot, Hsub, Hin. }
  destruct (processImages_loop _ _ _ _ _ _ _ _ s); exact Htouch.
Qed.

End Touches.

(** ** The retry pass *)

Lemma retryFailed_eq (w : World) (config : ProcessorConfig.t) (maxAttempts : nat) (s : State) :
  retryFailed w config maxAttempts s =
    match store_rejects w FailedFind (now s) with
    | Some msg => Throw (mkError msg) (advance (EvStore FailedFind) s)
    | None =>
        if (length (eligible maxAttempts s) =? 0)%nat
        then Ok (ProcessingResult.mk 0 0 0) (advance (EvStore FailedFind) s)
        else processImages w config (map row_of_failure (eligible maxAttempts s))
                           (advance (EvStore FailedFind) s)
    end.
Proof.
  unfold retryFailed, FailedImageModel_find_lt. rewrite !bind_eq, storeCall_eq.
  destruct (store_rejects w FailedFind (now s)); [reflexivity|].
  unfold gets. change (filter _ (map_to_list (failed_images (advance (EvStore FailedFind) s))))
    with (eligible maxAttempts s).
  destruct (length (eligible maxAttempts s) =? 0)%nat; reflexivity.
Qed.

Lemma elem_of_eligible (maxAttempts : nat) (s : State) (id : string) (doc : IFailedImage.t) :
  (id, doc) ∈ eligible maxAttempts s <->
  failed_images s !! id = Some doc /\ (IFailedImage.attempts doc < maxAttempts)%nat.
Proof.
  unfold eligible. rewrite list_elem_of_filter, elem_of_map_to_list. cbn. tauto.
Qed.



(** ** Running a pass again *)

Lemma last_row_for_snoc (id : string) (done : list CSVRow.t) (row : CSVRow.t) :
  last_row_for id (done ++ [row]) =
    if decide (CSVRow.id row = id) then Some row else last_row_for id done.
Proof.
  unfold last_row_for. rewrite filter_app, filter_cons, filter_nil.
  destruct (decide (CSVRow.id row = id)) as [Heq|Hne].
  - apply last_snoc.
  - by rewrite app_nil_r.
Qed.

Lemma last_row_for_elem (id : string) (rows : list CSVRow.t) (row : CSVRow.t) :
  last_row_for id rows = Some row -> row ∈ rows.
Proof.
  unfold last_row_for. intros Hlast.
  assert (row ∈ filter (fun row => CSVRow.id row = id) rows) as Hin.
  { apply last_Some in Hlast as (l' & ->). rewrite elem_of_app. right. left. }
  by apply list_elem_of_filter in Hin as [_ Hin].
Qed.

Section Idempotence.

Context (w : World) (config : ProcessorConfig.t) (all : list CSVRow.t) (s0 : State).

Lemma success_invariant_init : success_invariant w config s0 [] s0.
Proof. exists []. rewrite app_nil_r. split; [done|]. intros _ id. by cbn. Qed.

Lemma success_invariant_success (done : list CSVRow.t) (row : CSVRow.t)
    (rest : list CSVRow.t) (s s1 : State) :
  all = done ++ row :: rest -> success_invariant w config s0 done s ->
  row_succeeded w config row s s1 -> success_invariant w config s0 (done ++ [row]) s1.
Proof.
  intros _ (evs & Htr & Hgood) (idx & thumbnail & Hidx & Hthumb & ->).
  destruct (success_events_all (has_image s (CSVRow.id row)) row) as (_ & Hnofail & _).
  eexists (evs ++ _). cbn [trace]. split; [by rewrite Htr, <- app_assoc|].
  rewrite failures_app, Hnofail, app_nil_r. intros Hnone id.
  specialize (Hgood Hnone id). unfold all_succeeded_at in *.
  rewrite last_row_for_snoc. cbn [images failed_images].
  destruct (decide (CSVRow.id row = id)) as [<-|Hne].
  - exists idx, thumbnail, (S (now s)).
    by rewrite lookup_insert_eq, lookup_delete_eq.
  - by rewrite lookup_insert_ne, lookup_delete_ne.
Qed.

Lemma success_invariant_failure (done : list CSVRow.t) (row : CSVRow.t)
    (rest : list CSVRow.t) (e : Error) (k : nat) (s s1 : State) :
  all = done ++ row :: rest -> success_invariant w config s0 done s ->
  row_failed row e k s s1 -> success_invariant w config s0 (done ++ [row]) s1.
Proof.
  intros _ (evs & Htr & _) (idx & t & _ & _ & _ & _ & _ & Htr1 & _).
  eexists (evs ++ _). split; [rewrite Htr1, Htr, <- app_assoc; reflexivity|].
  rewrite !failures_app. cbn [failures omap list_omap failure_of].
  intros Hnil. apply app_eq_nil in Hnil as [_ Hnil].
  apply app_eq_nil in Hnil as [_ Hnil]. discriminate.
Qed.

Lemma success_invariant_log (done : list CSVRow.t) (s : State) (m : LogMsg) :
  success_invariant w config s0 done s ->
  success_invariant w config s0 done (record_event (EvLog LInfo m) s).
Proof.
  intros (evs & Htr & Hgood).
  exists (evs ++ [EvLog LInfo m]). cbn [trace record_event].
  split; [by rewrite Htr, app_assoc|].
  rewrite failures_app. cbn [failures omap list_omap failure_of]. rewrite app_nil_r.
  intros Hnone id. specialize (Hgood Hnone id).
  unfold all_succeeded_at in *. by cbn [images failed_images record_event].
Qed.

Lemma processImages_below_one (rows : list CSVRow.t) (s : State) :
  ProcessorConfig.batchSize config < 1 ->
  processImages w config rows s
    = Ok (ProcessingResult.mk (Z.of_nat (length rows)) 0 0) s.
Proof.
  intros Hsmall. unfold processImages. by rewrite chunk_below_one.
Qed.

(** After a pass in which no row failed, every id is as [all_succeeded_at]
    says. *)
Lemma processImages_all_succeeded (s' : State) (r : ProcessingResult.t) :
  1 <= ProcessorConfig.batchSize config ->
  processImages w config all s0 = Ok r s' ->
  ProcessingResult.failed r = 0 ->
  forall id, all_succeeded_at w config s0 all s' id.
Proof.
  intros Hsize Hrun Hfailed.
  pose proof (processImages_invariant w config (success_invariant w config s0) all
                success_invariant_success success_invariant_failure success_invariant_log
                s0 s' r Hsize success_invariant_init Hrun) as (evs & Htr & Hgood).
  apply Hgood.
  apply processImages_events in Hrun as (evs' & Htr' & _ & _ & _ & Hcount & _).
  rewrite Htr in Htr'. apply app_inv_head in Htr' as ->.
  destruct (failures evs'); [reflexivity|]. cbn in Hcount. lia.
Qed.

End Idempotence.

(** C8, as the code has it: when the same rows are processed twice and
    every row succeeds in both runs, the second run leaves the failure
    ledger as the first left it, and no record of it was not already there,
    unchanged, before the first run, so no attempts counter has grown;
    [images] holds the same ids with the same index as after the first run;
    and it holds the same thumbnails too when every url of the rows yields
    the same thumbnail whenever it is fetched. *)
Theorem pass_twice_same_images (w : World) (config : ProcessorConfig.t)
    (rows : list CSVRow.t) (s0 s1 s2 : State) (r1 r2 : ProcessingResult.t) :
  processImages w config rows s0 = Ok r1 s1 -> ProcessingResult.failed r1 = 0 ->
  processImages w config rows s1 = Ok r2 s2 -> ProcessingResult.failed r2 = 0 ->
  failed_images s2 = failed_images s1 /\
  (forall id doc, failed_images s2 !! id = Some doc -> failed_images s0 !! id = Some doc) /\
  (forall id, IImage.index <$> images s2 !! id = IImage.index <$> images s1 !! id) /\
  ((forall row t t', row ∈ rows ->
      thumbnail_at w config (CSVRow.url row) t = thumbnail_at w config (CSVRow.url row) t') ->
   images s2 = images s1).
Proof.
  intros Hrun1 Hok1 Hrun2 Hok2.
  destruct (Z.ltb_spec (ProcessorConfig.batchSize config) 1) as [Hsmall|Hsize].
  { rewrite processImages_below_one in Hrun1, Hrun2 by exact Hsmall.
    injection Hrun1 as _ <-. injection Hrun2 as _ <-. done. }
  pose proof (processImages_all_succeeded w config rows s0 s1 r1 Hsize Hrun1 Hok1) as H1.
  pose proof (processImages_all_succeeded w config rows s1 s2 r2 Hsize Hrun2 Hok2) as H2.
  unfold all_succeeded_at in *.
  split; [|split; [|split]].
  - apply map_eq. intros id. specialize (H1 id). specialize (H2 id).
    destruct (last_row_for id rows).
    + destruct H1 as (? & ? & ? & _ & _ & _ & ->). by destruct H2 as (? & ? & ? & _ & _ & _ & ->).
    + by destruct H2 as [_ ->].
  - intros id doc. specialize (H1 id). specialize (H2 id).
    destruct (last_row_for id rows).
    + destruct H2 as (? & ? & ? & _ & _ & _ & ->). discriminate.
    + destruct H2 as [_ ->]. by destruct H1 as [_ ->].
  - intros id. specialize (H1 id). specialize (H2 id).
    destruct (last_row_for id rows).
    + destruct H1 as (idx1 & ? & ? & Hidx1 & _ & -> & _).
      destruct H2 as (idx2 & ? & ? & Hidx2 & _ & -> & _). cbn. congruence.
    + by destruct H2 as [-> _].
  - intros Hstable. apply map_eq. intros id. specialize (H1 id). specialize (H2 id).
    destruct (last_row_for id rows) as [row|] eqn:Hlast.
    + apply last_row_for_elem in Hlast.
      destruct H1 as (idx1 & th1 & t1 & Hidx1 & Hth1 & -> & _).
      destruct H2 as (idx2 & th2 & t2 & Hidx2 & Hth2 & -> & _).
      rewrite (Hstable row t1 t2 Hlast) in Hth1. congruence.
    + by destruct H2 as [-> _].
Qed.

Lemma pass_twice_same_images_witness :
  let w := world_of store_up http_ok "" in
  let s1 := final_state (processImages w (config_with_batchSize 2)
                           [rowA; rowB; rowA2] initial_state) in
  let s2 := final_state (processImages w (config_with_batchSize 2) [rowA; rowB; rowA2] s1) in
  failed_images s2 = failed_images s1 /\ images s2 = images s1.
Proof.
  cbv zeta.
  destruct (pass_twice_same_images (world_of store_up http_ok "") (config_with_batchSize 2)
              [rowA; rowB; rowA2] initial_state
              (final_state (processImages (world_of store_up http_ok "")
                              (config_with_batchSize 2) [rowA; rowB; rowA2] initial_state))
              (final_state (processImages (world_of store_up http_ok "")
                              (config_with_batchSize 2) [rowA; rowB; rowA2]
                 (final_state (processImages (world_of store_up http_ok "")
                                 (config_with_batchSize 2) [rowA; rowB; rowA2] initial_state))))
              (ProcessingResult.mk 3 3 0) (ProcessingResult.mk 3 3 0))
    as (Hledger & _ & _ & Himages).
  - vm_compute. reflexivity.
  - reflexivity.
  - vm_compute. reflexivity.
  - reflexivity.
  - split; [exact Hledger|]. apply Himages. intros row t t' _. reflexivity.
Defined.

(** C8 as stated fails when a host serves another image the second time:
    every row succeeds in both runs, and the second run overwrites the
    thumbnail, so [images] is not what one run left. *)
Lemma pass_twice_other_thumbnail :
  let w := world_of store_up (http_changing 2) "" in
  let o1 := processImages w default_config [rowA] initial_state in
  let o2 := processImages w default_config [rowA] (final_state o1) in
  o1 = Ok (ProcessingResult.mk 1 1 0) (final_state o1) /\
  o2 = Ok (ProcessingResult.mk 1 1 0) (final_state o2) /\
  images (final_state o1) !! "A" = Some (IImage.mk 1 [Byte.x2a]) /\
  images (final_state o2) !! "A" = Some (IImage.mk 1 [Byte.x2b]) /\
  images (final_state o2) <> images (final_state o1).
Proof.
  cbv zeta. split_and!; try (vm_compute; reflexivity).
  intros Heq. apply (f_equal (fun m => m !! "A")) in Heq.
  vm_compute in Heq. discriminate.
Qed.
(** ** The row source *)

Lemma truthy_true (s : string) : JS.truthy s = true <-> s <> "".
Proof. destruct s; cbn; split; congruence. Qed.

(** [validateRow], condition by condition. *)
Lemma validateRow_true (w : World) (row : gmap string (option string)) :
  validateRow w row = true <->
  field_has (prop row "id") (fun id => id <> "") /\
  field_has (prop row "url") (fun url => url <> "" /\ URL_parses w url = true) /\
  field_has (prop row "index") (fun index => is_Some (JS.parseInt index)).
Proof.
  unfold validateRow, validateUrl, field_has.
  destruct (prop row "id") as [id|], (prop row "url") as [url|],
    (prop row "index") as [index|]; try (split; [discriminate|tauto]).
  rewrite !andb_true_iff, !truthy_true, bool_decide_eq_true.
  split; [tauto|]. intros (Hid & (Hurl & Hparses) & Hindex).
  repeat split; try done.
  intros ->. by destruct Hindex.
Qed.

Lemma is_digit_digit_of (c : ascii) : is_digit c = true <-> is_Some (JS.digit_of c).
Proof.
  destruct c as [[] [] [] [] [] [] [] []]; vm_compute;
    (split; [first [discriminate | eauto] | first [reflexivity | intros [? ?]; discriminate]]).
Qed.

Lemma parseDigits_head (s : string) :
  is_Some (JS.parseDigits s None) <->
  match s with String c _ => is_digit c = true | EmptyString => False end.
Proof.
  destruct s as [|c r]; cbn [JS.parseDigits]; [split; [by intros [? ?]|done]|].
  rewrite is_digit_digit_of.
  destruct (JS.digit_of c) as [d|]; [|done].
  split; [eauto|]. intros _. apply parseDigits_acc.
Qed.

(** On a trimmed value [parseInt] gives a number exactly when the value
    begins with a base-10 integer. *)
Lemma parseInt_begins (index : string) :
  JS.trimStart index = index ->
  is_Some (JS.parseInt index) <-> begins_with_integer index = true.
Proof.
  intros Htrim. unfold JS.parseInt. rewrite Htrim.
  destruct index as [|c r]; [split; [by intros [? ?]|discriminate]|].
  destruct c as [[] [] [] [] [] [] [] []]; cbv beta iota; rewrite fmap_is_Some;
    first [ exact (parseDigits_head (String _ r))
          | destruct r as [|c2 r2];
            [split; [by intros [? ?]|discriminate]|exact (parseDigits_head (String c2 r2))] ].
Qed.

(** A text that is a base-10 integer begins with one. *)
Lemma base10_integer_begins (index : string) :
  base10_integer index = true -> begins_with_integer index = true.
Proof.
  destruct index as [|c r]; [discriminate|].
  destruct c as [[] [] [] [] [] [] [] []]; cbv beta iota delta [base10_integer begins_with_integer];
    try (destruct r as [|c2 r2]; [discriminate|]);
    cbn [all_digits String.eqb negb andb]; rewrite ?andb_true_iff; tauto.
Qed.

Lemma spec_retains_retains (w : World) (row : gmap string (option string)) :
  spec_retains w row -> retains w row.
Proof.
  unfold spec_retains, retains, field_has. intros (Hid & Hurl & Hindex).
  split; [exact Hid|]. split; [exact Hurl|].
  destruct (prop row "index"); [by apply base10_integer_begins|done].
Qed.

Lemma reduce_headers_other (headers : list string) (index : nat) (values : list string)
    (obj : gmap string (option string)) (key : string) :
  key ∉ headers -> reduce_headers headers index values obj !! key = obj !! key.
Proof.
  revert index obj. induction headers as [|header headers IH]; intros index obj Hnot; [done|].
  cbn [reduce_headers]. rewrite not_elem_of_cons in Hnot. destruct Hnot as [Hne Hnot].
  rewrite IH by done. by rewrite lookup_insert_ne.
Qed.

(** A property named by a header holds the value of some column. *)
Lemma reduce_headers_column (headers : list string) (index : nat) (values : list string)
    (obj : gmap string (option string)) (key : string) :
  key ∈ headers ->
  exists column, reduce_headers headers index values obj !! key = Some (values !! column).
Proof.
  revert index obj. induction headers as [|header headers IH]; intros index obj Hin.
  - by apply not_elem_of_nil in Hin.
  - cbn [reduce_headers]. destruct (decide (key ∈ headers)) as [Hlater|Hlast].
    + by apply IH.
    + apply elem_of_cons in Hin as [->|Hin]; [|done].
      exists index. rewrite reduce_headers_other by done. apply lookup_insert_eq.
Qed.

(** The values of a row are trimmed. *)
Lemma mapRow_trimmed (headers : list string) (line : string) :
  trimmed_fields (mapRow headers line).
Proof.
  intros key v. unfold mapRow, prop.
  destruct (decide (key ∈ headers)) as [Hin|Hout].
  - destruct (reduce_headers_column headers 0 (map JS.trim (JS.split "," line)) ∅ key Hin)
      as (column & ->).
    cbn. change (map JS.trim (JS.split "," line)) with (JS.trim <$> JS.split "," line).
    rewrite list_lookup_fmap.
    destruct (JS.split "," line !! column) as [u|]; [|discriminate].
    intros [= <-]. apply trimStart_trim.
  - rewrite reduce_headers_other by done. discriminate.
Qed.

(** On a row of trimmed values [validateRow] is the rule [retains]. *)
Lemma validateRow_retains (w : World) (row : gmap string (option string)) :
  trimmed_fields row -> validateRow w row = true <-> retains w row.
Proof.
  intros Htrimmed. rewrite validateRow_true. unfold retains, field_has.
  destruct (prop row "index") as [index|] eqn:Hindex; [|done].
  by rewrite (parseInt_begins index (Htrimmed "index" index Hindex)).
Qed.

(** A blank line gives a row without id, which is not retained. *)
Lemma blank_line_dropped (w : World) (headers : list string) (line : string) :
  "id" ∈ headers -> blank line -> ~ retains w (mapRow headers line).
Proof.
  intros Hid Hblank.
  assert (prop (mapRow headers line) "id" = Some ""
          \/ prop (mapRow headers line) "id" = None) as Hprop.
  { unfold mapRow, prop. rewrite (blank_split line Hblank). cbn [map].
    unfold blank in Hblank. rewrite Hblank.
    destruct (reduce_headers_column headers 0 [""] ∅ "id" Hid) as (column & ->).
    destruct column as [|column]; cbn; rewrite ?lookup_nil; auto. }
  unfold retains, field_has. destruct Hprop as [-> | ->]; tauto.
Qed.

Lemma filter_blank_lines (w : World) (headers : list string) (lines : list string) :
  "id" ∈ headers ->
  filter (fun row => validateRow w row = true)
         (map (mapRow headers) (filter (fun row => JS.truthy (JS.trim row) = true) lines))
  = filter (retains w) (map (mapRow headers) lines).
Proof.
  intros Hid. induction lines as [|line lines IH]; [done|].
  rewrite filter_cons. cbn [map]. rewrite (filter_cons (retains w)).
  pose proof (validateRow_retains w (mapRow headers line) (mapRow_trimmed headers line)) as Hiff.
  destruct (decide (JS.truthy (JS.trim line) = true)) as [Hfull|Hblank].
  - cbn [map]. rewrite filter_cons, IH.
    destruct (decide (validateRow w (mapRow headers line) = true)) as [Hv|Hv],
      (decide (retains w (mapRow headers line))) as [Hs|Hs]; tauto.
  - rewrite IH.
    destruct (decide (retains w (mapRow headers line))) as [Hs|Hs]; [|done].
    exfalso. apply (blank_line_dropped w headers line Hid); [|exact Hs].
    unfold blank. destruct (JS.trim line); [done|]. by destruct Hblank.
Qed.

(** C2, as the code has it: when the file can be read and its first
    non-blank line names the columns id, url and index, [readCSV] returns,
    for every line after that one, the row of the line if and only if its
    id is non-empty, its url is non-empty and parses, and its index begins
    with a base-10 integer (a decimal digit after an optional sign; what
    follows the digits is not looked at). The other lines are left out,
    the call does not fail because of them and nothing is logged: reading
    the file is the only event. Every row that the rule of the
    specification retains, with an index that is a base-10 integer as a
    whole, is among the rows returned. *)
Theorem readCSV_retains (w : World) (s : State) (data headersLine : string)
    (blanks body : list string) :
  fs_readFile w (now s) = inr data ->
  JS.split "010" data = blanks ++ headersLine :: body ->
  Forall blank blanks -> ~ blank headersLine ->
  "id" ∈ headers_of headersLine -> "url" ∈ headers_of headersLine ->
  "index" ∈ headers_of headersLine ->
  readCSV w s =
    Ok (map asCSVRow (filter (retains w) (map (mapRow (headers_of headersLine)) body)))
       (advance EvReadFile s) /\
  (forall line, line ∈ body ->
     spec_retains w (mapRow (headers_of headersLine) line) ->
     mapRow (headers_of headersLine) line
       ∈ filter (retains w) (map (mapRow (headers_of headersLine)) body)).
Proof.
  intros Hfile Hlines Hblanks Hheader Hid Hurl Hindex. split.
  - unfold readCSV, try_catch. rewrite bind_eq. unfold await. rewrite Hfile, Hlines.
    rewrite filter_app, filter_cons.
    assert (filter (fun row => JS.truthy (JS.trim row) = true) blanks = []) as ->.
    { clear -Hblanks. induction Hblanks as [|line lines Hline _ IH]; [done|].
      rewrite filter_cons, IH. unfold blank in Hline. by rewrite Hline. }
    assert (JS.truthy (JS.trim headersLine) = true) as Htrim.
    { apply truthy_true. exact Hheader. }
    rewrite decide_True by exact Htrim. cbn [app].
    assert (JS.truthy headersLine = true) as ->.
    { apply truthy_true. intros ->. by apply Hheader. }
    cbn [negb]. fold (headers_of headersLine). unfold includes.
    rewrite !bool_decide_eq_true_2 by done. cbn [negb orb].
    unfold ret. by rewrite filter_blank_lines.
  - intros line Hline Hspec. apply list_elem_of_filter. split.
    + by apply spec_retains_retains.
    + rewrite list_elem_of_In. apply in_map. by rewrite <- list_elem_of_In.
Qed.

Lemma readCSV_retains_witness :
  let w := world_of store_up http_ok sample_csv in
  readCSV w initial_state = Ok [rowA] (advance EvReadFile initial_state).
Proof.
  cbv zeta.
  destruct (readCSV_retains (world_of store_up http_ok sample_csv) initial_state sample_csv
             "id,url,index" []
             ["A,https://x/a.png,1"; ""; "B,not-a-url,2"; "C,https://x/c.png,abc";
              ",https://x/d.png,4"]) as [Hrun _].
  - vm_compute. reflexivity.
  - reflexivity.
  - constructor.
  - vm_compute. discriminate.
  - apply (bool_decide_unpack _). vm_compute. exact I.
  - apply (bool_decide_unpack _). vm_compute. exact I.
  - apply (bool_decide_unpack _). vm_compute. exact I.
  - rewrite Hrun. vm_compute. reflexivity.
Defined.

(** C2 as stated fails for an index with text after its digits: the row
    of [trailing_text_csv] has the index 12abc, which is no base-10
    integer, and [readCSV] returns it. *)
Lemma readCSV_retains_trailing_text :
  let w := world_of store_up http_ok trailing_text_csv in
  readCSV w initial_state
    = Ok [CSVRow.mk "A" "12abc" "https://x/a.png"] (advance EvReadFile initial_state) /\
  ~ spec_retains w (mapRow (headers_of "id,url,index") "A,https://x/a.png,12abc").
Proof.
  cbv zeta. split; [vm_compute; reflexivity|].
  apply (bool_decide_unpack _). vm_compute. exact I.
Qed.
(** ** Start-up, clean-up and exit *)

Lemma initialize_eq (w : World) (config : ProcessorConfig.t) (s : State) :
  initialize w config s =
    match store_rejects w Connect (now s) with
    | Some msg =>
        Throw (mkError msg)
          (record_event (EvLog LError (InitializationFailed (mkError msg)))
             (advance (EvStore Connect) s))
    | None =>
        let s1 := advance EvStat
                    (record_event (EvLog LInfo MongoConnected)
                       (set_connected true (advance (EvStore Connect) s))) in
        match fs_stat w (S (now s)) with
        | inl msg =>
            Throw (mkError msg)
              (record_event (EvLog LError (InitializationFailed (mkError msg))) s1)
        | inr size =>
            if ProcessorConfig.maxFileSize config <? size
            then
              let e := mkError ("File size exceeds limit of "
                                +:+ JS.toString (ProcessorConfig.maxFileSize config)
                                +:+ " bytes") in
              Throw e (record_event (EvLog LError (InitializationFailed e)) s1)
            else Ok tt s1
        end
    end.
Proof.
  unfold initialize, try_catch, mongoose_connect. rewrite !bind_eq, storeCall_eq.
  destruct (store_rejects w Connect (now s)); [reflexivity|].
  cbn. destruct (fs_stat w (S (now s))) as [msg|size]; [reflexivity|].
  destruct (ProcessorConfig.maxFileSize config <? size); reflexivity.
Qed.

(** X1: [initialize] returns exactly when the store accepts the connection
    and the CSV file exists with a size of at most [maxFileSize]; the
    connection is then open. Otherwise it logs the error and throws that
    same error: the rejection of the store, the error of [stat], or "File
    size exceeds limit of N bytes". In the last two cases the connection
    was opened and [initialize] leaves it open. The collections are never
    touched. *)
Theorem initialize_outcome (w : World) (config : ProcessorConfig.t) (s : State) :
  match initialize w config s with
  | Ok _ s' =>
      store_rejects w Connect (now s) = None /\
      (exists size, fs_stat w (S (now s)) = inr size /\
                    size <= ProcessorConfig.maxFileSize config) /\
      connected s' = true /\
      images s' = images s /\ failed_images s' = failed_images s
  | Throw e s' =>
      last (trace s') = Some (EvLog LError (InitializationFailed e)) /\
      images s' = images s /\ failed_images s' = failed_images s /\
      ((store_rejects w Connect (now s) = Some (message e) /\ connected s' = connected s) \/
       (store_rejects w Connect (now s) = None /\ connected s' = true /\
        (fs_stat w (S (now s)) = inl (message e) \/
         exists size, fs_stat w (S (now s)) = inr size /\
           ProcessorConfig.maxFileSize config < size /\
           message e = "File size exceeds limit of "
                       +:+ JS.toString (ProcessorConfig.maxFileSize config) +:+ " bytes")))
  end.
Proof.
  rewrite initialize_eq.
  destruct (store_rejects w Connect (now s)) as [msg|] eqn:Hconnect.
  { cbn. split; [apply last_snoc|]. auto. }
  cbv zeta. destruct (fs_stat w (S (now s))) as [msg|size] eqn:Hstat.
  { cbn. split; [apply last_snoc|]. split; [done|]. split; [done|]. right. auto. }
  destruct (Z.ltb_spec (ProcessorConfig.maxFileSize config) size) as [Hbig|Hfits].
  - cbn. split; [apply last_snoc|]. split; [done|]. split; [done|]. right.
    split; [done|]. split; [done|]. right. exists size. auto.
  - cbn. split; [done|]. split; [eauto|]. auto.
Qed.

Lemma cleanup_eq (w : World) (s : State) :
  cleanup w s =
    match store_rejects w Disconnect (now s) with
    | None =>
        Ok tt (record_event (EvLog LInfo MongoDisconnected)
                 (set_connected false (advance (EvStore Disconnect) s)))
    | Some msg =>
        Ok tt (record_event (EvLog LError (CleanupError (mkError msg)))
                 (advance (EvStore Disconnect) s))
    end.
Proof.
  unfold cleanup, try_catch, mongoose_disconnect. rewrite !bind_eq, storeCall_eq.
  destruct (store_rejects w Disconnect (now s)); reflexivity.
Qed.

(** X2: [cleanup] never throws. When the store accepts the disconnect the
    connection is closed and that is logged; when it rejects it the error
    is logged and swallowed and the connection stays as it was. The
    collections are not touched. *)
Theorem cleanup_outcome (w : World) (s : State) :
  exists s', cleanup w s = Ok tt s' /\
    images s' = images s /\ failed_images s' = failed_images s /\
    match store_rejects w Disconnect (now s) with
    | None =>
        connected s' = false /\
        trace s' = trace s ++ [EvStore Disconnect; EvLog LInfo MongoDisconnected]
    | Some msg =>
        connected s' = connected s /\
        trace s' = trace s ++ [EvStore Disconnect; EvLog LError (CleanupError (mkError msg))]
    end.
Proof.
  rewrite cleanup_eq.
  destruct (store_rejects w Disconnect (now s)) as [msg|];
    eexists; (split; [reflexivity|]); cbn; rewrite <- app_assoc; auto.
Qed.

(** X3: the process always ends through [process.exit], and its status
    tells whether [main] was fulfilled: status 0 after [cleanup] has run on
    the state [main] left, or status 1 right after the error was printed,
    with no store call and nothing else after the rejection. *)
Theorem index_ts_exit_status (w : World) (config : ProcessorConfig.t) (s : State) :
  match main w config s with
  | Ok _ s1 =>
      exists s2, cleanup w s1 = Ok tt s2 /\
        index_ts w config s = Exited 0 (record_event (EvExit 0) s2)
  | Throw e s1 =>
      index_ts w config s
        = Exited 1 (record_event (EvExit 1) (record_event (EvConsoleError e) s1)) /\
      trace (settled_state (index_ts w config s))
        = trace s1 ++ [EvConsoleError e; EvExit 1] /\
      connected (settled_state (index_ts w config s)) = connected s1
  end.
Proof.
  destruct (main w config s) as [r s1|e s1] eqn:Hmain.
  - destruct (index_ts_fulfilled w config s s1 r Hmain) as (s2 & Hs2 & ->).
    exists s2. split; [|done]. rewrite cleanup_eq in *.
    destruct (store_rejects w Disconnect (now s1)); cbn in Hs2; by subst.
  - rewrite (index_ts_rejected w config s s1 e Hmain). cbn.
    split; [done|]. by rewrite <- app_assoc.
Qed.

(** ** Reading the file: errors and the rows that come out *)

Lemma readCSV_eq (w : World) (s : State) :
  readCSV w s =
    let failed e := Throw e (record_event (EvLog LError (CSVReadingFailed e))
                               (advance EvReadFile s)) in
    match fs_readFile w (now s) with
    | inl msg => failed (mkError msg)
    | inr data =>
        match csv_lines data with
        | [] => failed csv_empty_error
        | headersLine :: rows =>
            if bool_decide ("id" ∈ headers_of headersLine /\ "url" ∈ headers_of headersLine
                            /\ "index" ∈ headers_of headersLine)
            then Ok (map asCSVRow
                       (filter (fun row => validateRow w row = true)
                               (map (mapRow (headers_of headersLine)) rows)))
                    (advance EvReadFile s)
            else failed csv_headers_error
        end
    end.
Proof.
  unfold readCSV, try_catch. rewrite bind_eq. unfold await. cbv zeta.
  destruct (fs_readFile w (now s)) as [msg|data]; [reflexivity|].
  fold (csv_lines data).
  pose proof (fun x => proj1 (list_elem_of_filter
                (fun row => JS.truthy (JS.trim row) = true) (JS.split "010" data) x)) as Hkept.
  fold (csv_lines data) in Hkept.
  destruct (csv_lines data) as [|headersLine rows]; [reflexivity|].
  assert (JS.truthy headersLine = true) as ->.
  { destruct (Hkept headersLine) as [Hfull _]; [left|].
    destruct headersLine; [discriminate Hfull|reflexivity]. }
  cbn [negb]. fold (headers_of headersLine). unfold includes.
  destruct (decide ("id" ∈ headers_of headersLine)) as [Hid|Hid];
    destruct (decide ("url" ∈ headers_of headersLine)) as [Hurl|Hurl];
    destruct (decide ("index" ∈ headers_of headersLine)) as [Hindex|Hindex];
    rewrite ?(bool_decide_eq_true_2 _ Hid), ?(bool_decide_eq_false_2 _ Hid),
      ?(bool_decide_eq_true_2 _ Hurl), ?(bool_decide_eq_false_2 _ Hurl),
      ?(bool_decide_eq_true_2 _ Hindex), ?(bool_decide_eq_false_2 _ Hindex);
    cbn [negb orb];
    first [ rewrite bool_decide_eq_true_2 by done; reflexivity
          | rewrite bool_decide_eq_false_2 by tauto; reflexivity ].
Qed.

Lemma validateRow_valid (w : World) (row : gmap string (option string)) :
  validateRow w row = true -> valid_row w (asCSVRow row).
Proof.
  intros Hvalid%validateRow_true. unfold field_has in Hvalid.
  unfold valid_row, index_is_number, asCSVRow. cbn.
  destruct (prop row "id"), (prop row "url"), (prop row "index"); cbn; tauto.
Qed.

(** X4: [readCSV] fails in three ways, and in no other: the file cannot
    be read (the error of the file system), the file has no line with
    anything but white space on it ("CSV file is empty or has no headers"),
    or the first such line lacks one of the columns id, url, index
    ("Invalid CSV structure: missing required headers"), whatever follows
    it. Each failure is logged once and thrown on. The header names count
    without regard to case and surrounding white space, a byte order mark
    included. *)
Theorem readCSV_failures (w : World) (s : State) :
  let failed e :=
    Throw e (record_event (EvLog LError (CSVReadingFailed e)) (advance EvReadFile s)) in
  let complete headersLine :=
    "id" ∈ headers_of headersLine /\ "url" ∈ headers_of headersLine
    /\ "index" ∈ headers_of headersLine in
  (forall msg, fs_readFile w (now s) = inl msg -> readCSV w s = failed (mkError msg)) /\
  (forall data, fs_readFile w (now s) = inr data -> csv_lines data = [] ->
     readCSV w s = failed csv_empty_error) /\
  (forall data headersLine rows,
     fs_readFile w (now s) = inr data -> csv_lines data = headersLine :: rows ->
     ~ complete headersLine -> readCSV w s = failed csv_headers_error) /\
  (forall e s', readCSV w s = Throw e s' ->
     s' = record_event (EvLog LError (CSVReadingFailed e)) (advance EvReadFile s) /\
     (fs_readFile w (now s) = inl (message e) \/
      exists data, fs_readFile w (now s) = inr data /\
        ((csv_lines data = [] /\ e = csv_empty_error) \/
         (exists headersLine rows, csv_lines data = headersLine :: rows /\
            ~ complete headersLine /\ e = csv_headers_error)))).
Proof.
  cbv zeta. split_and!.
  - intros msg Hfile. by rewrite readCSV_eq, Hfile.
  - intros data Hfile Hlines. by rewrite readCSV_eq, Hfile, Hlines.
  - intros data headersLine rows Hfile Hlines Hmissing.
    rewrite readCSV_eq, Hfile, Hlines. cbv zeta. by rewrite bool_decide_eq_false_2.
  - intros e s'. rewrite readCSV_eq. cbv zeta.
    destruct (fs_readFile w (now s)) as [msg|data]; [intros [= <- <-]; auto|].
    destruct (csv_lines data) as [|headersLine rows] eqn:Hlines.
    { intros [= <- <-]. split; [done|]. right. exists data. auto. }
    destruct (decide ("id" ∈ headers_of headersLine /\ "url" ∈ headers_of headersLine
                      /\ "index" ∈ headers_of headersLine)) as [Hall|Hmissing].
    + by rewrite bool_decide_eq_true_2.
    + rewrite bool_decide_eq_false_2 by done. intros [= <- <-]. split; [done|].
      right. exists data. split; [done|]. right. eauto.
Qed.

Lemma readCSV_failures_witness :
  let failed e :=
    Throw e (record_event (EvLog LError (CSVReadingFailed e))
               (advance EvReadFile initial_state)) in
  readCSV (world_of store_up http_ok (bom +:+ blank_csv)) initial_state
    = failed csv_empty_error /\
  readCSV (world_of store_up http_ok headless_csv) initial_state
    = failed csv_headers_error /\
  is_Some (ok_rows (readCSV (world_of store_up http_ok (bom +:+ sample_csv)) initial_state)).
Proof.
  cbv zeta. split_and!.
  - destruct (readCSV_failures (world_of store_up http_ok (bom +:+ blank_csv)) initial_state)
      as (_ & Hempty & _).
    apply (Hempty (bom +:+ blank_csv)); vm_compute; reflexivity.
  - destruct (readCSV_failures (world_of store_up http_ok headless_csv) initial_state)
      as (_ & _ & Hheaders & _).
    apply (Hheaders headless_csv "id,index" ["A,1"]); [reflexivity|vm_compute; reflexivity|].
    intros (_ & Hurl & _). revert Hurl. apply (bool_decide_unpack _). vm_compute. exact I.
  - vm_compute. by eexists.
Defined.

(** X5: every row that [readCSV] returns has a non-empty id, a non-empty
    url that parses and an index that [parseInt] reads as a number, and
    there is at most one row per non-blank line after the header; reading
    the file is the only thing that happened. *)
Theorem readCSV_rows_valid (w : World) (s s' : State) (rows : list CSVRow.t) :
  readCSV w s = Ok rows s' ->
  Forall (valid_row w) rows /\
  s' = advance EvReadFile s /\
  exists data, fs_readFile w (now s) = inr data /\
    (length rows < length (csv_lines data))%nat.
Proof.
  rewrite readCSV_eq. cbv zeta.
  destruct (fs_readFile w (now s)) as [msg|data]; [discriminate|].
  destruct (csv_lines data) as [|headersLine lines] eqn:Hlines; [discriminate|].
  destruct (bool_decide _); [|discriminate].
  intros [= <- <-]. split; [|split; [done|]].
  - apply Forall_forall. intros row Hrow.
    rewrite list_elem_of_In, in_map_iff in Hrow. destruct Hrow as (obj & <- & Hobj).
    rewrite <- list_elem_of_In, list_elem_of_filter in Hobj.
    apply validateRow_valid, Hobj.
  - exists data. split; [done|]. rewrite Hlines, length_map. cbn [length].
    pose proof (length_filter (fun row => validateRow w row = true)
                  (map (mapRow (headers_of headersLine)) lines)) as Hle.
    rewrite length_map in Hle. lia.
Qed.

Lemma readCSV_rows_valid_witness :
  let w := world_of store_up http_ok sample_csv in
  Forall (valid_row w) [rowA].
Proof.
  cbv zeta.
  destruct (readCSV_rows_valid (world_of store_up http_ok sample_csv) initial_state
              (advance EvReadFile initial_state) [rowA]) as [Hvalid _].
  - vm_compute. reflexivity.
  - exact Hvalid.
Defined.

(** ** [start]: from the file to the result *)

Lemma start_eq (w : World) (config : ProcessorConfig.t) (s : State) :
  start w config s =
    let failed e s' := Throw e (record_event (EvLog LError (ProcessingFailed e)) s') in
    match initialize w config s with
    | Throw e s1 => failed e s1
    | Ok _ s1 =>
        match readCSV w s1 with
        | Throw e s2 => failed e s2
        | Ok rows s2 =>
            match processImages w config rows
                    (record_event (EvLog LInfo (StartingToProcess (length rows))) s2) with
            | Ok r s3 => Ok r s3
            | Throw e s3 => failed e s3
            end
        end
    end.
Proof.
  unfold start, try_catch. rewrite !bind_eq. cbv zeta.
  destruct (initialize w config s) as [[] s1|e s1]; [|reflexivity].
  rewrite bind_eq. destruct (readCSV w s1) as [rows s2|e s2]; [|reflexivity].
  rewrite bind_eq. unfold logger.info at 1, emit.
  destruct (processImages w config rows _); reflexivity.
Qed.

(** Neither [initialize] nor [readCSV] takes up a row, asks a host or
    touches a collection, whatever their outcome. *)
Lemma initialize_quiet (w : World) (config : ProcessorConfig.t) (s : State) :
  let s' := final_state (initialize w config s) in
  images s' = images s /\ failed_images s' = failed_images s /\
  exists evs, trace s' = trace s ++ evs /\ rows_started evs = [] /\ http_requests evs = [].
Proof.
  cbv zeta. rewrite initialize_eq.
  destruct (store_rejects w Connect (now s)); cbv zeta;
    [|destruct (fs_stat w (S (now s))) as [|size];
      [|destruct (ProcessorConfig.maxFileSize config <? size)]];
    cbn; rewrite <- ?app_assoc; (split; [done|]); (split; [done|]);
    (eexists; split; [reflexivity|]); done.
Qed.

Lemma readCSV_quiet (w : World) (s : State) :
  let s' := final_state (readCSV w s) in
  images s' = images s /\ failed_images s' = failed_images s /\
  exists evs, trace s' = trace s ++ evs /\ rows_started evs = [] /\ http_requests evs = [].
Proof.
  cbv zeta. rewrite readCSV_eq. cbv zeta.
  destruct (fs_readFile w (now s)) as [|data];
    [|destruct (csv_lines data); [|destruct (bool_decide _)]];
    cbn; rewrite <- ?app_assoc; (split; [done|]); (split; [done|]);
    (eexists; split; [reflexivity|]); done.
Qed.

(** X6: when [initialize] fails, or [readCSV] fails after it, [start] logs
    "Processing failed" and throws that same error, and the pass never
    began: no row was taken up, no host was asked and both collections are
    as they were. *)
Theorem start_source_failure (w : World) (config : ProcessorConfig.t)
    (s s1 : State) (e : Error) :
  (initialize w config s = Throw e s1 \/
   exists s0, initialize w config s = Ok tt s0 /\ readCSV w s0 = Throw e s1) ->
  start w config s = Throw e (record_event (EvLog LError (ProcessingFailed e)) s1) /\
  images s1 = images s /\ failed_images s1 = failed_images s /\
  exists evs, trace s1 = trace s ++ evs /\ rows_started evs = [] /\ http_requests evs = [].
Proof.
  intros Hfail. rewrite start_eq. cbv zeta.
  pose proof (initialize_quiet w config s) as Hinit. cbv zeta in Hinit.
  destruct Hfail as [Hi|(s0 & Hi & Hread)]; rewrite Hi in *; cbn [final_state] in Hinit.
  - split; [reflexivity|exact Hinit].
  - pose proof (readCSV_quiet w s0) as Hcsv. cbv zeta in Hcsv.
    rewrite Hread in *. cbn [final_state] in Hcsv.
    destruct Hinit as (Himg0 & Hled0 & evs0 & Htr0 & Hst0 & Hht0).
    destruct Hcsv as (Himg1 & Hled1 & evs1 & Htr1 & Hst1 & Hht1).
    split; [reflexivity|]. split; [congruence|]. split; [congruence|].
    exists (evs0 ++ evs1). split; [by rewrite Htr1, Htr0, app_assoc|].
    unfold http_requests in *. by rewrite rows_started_app, omap_app, Hst0, Hst1, Hht0, Hht1.
Qed.

Lemma start_source_failure_witness :
  let w := world_of store_up http_ok blank_csv in
  let s0 := final_state (initialize w default_config initial_state) in
  let s1 := final_state (readCSV w s0) in
  start w default_config initial_state
    = Throw csv_empty_error (record_event (EvLog LError (ProcessingFailed csv_empty_error)) s1)
  /\ images s1 = ∅.
Proof.
  cbv zeta.
  destruct (start_source_failure (world_of store_up http_ok blank_csv) default_config
              initial_state
              (final_state (readCSV (world_of store_up http_ok blank_csv)
                 (final_state (initialize (world_of store_up http_ok blank_csv)
                                 default_config initial_state))))
              csv_empty_error) as (Hstart & Himg & _).
  - right. eexists. split; vm_compute; reflexivity.
  - split; [exact Hstart|exact Himg].
Defined.

(** A pass leaves the connection as it found it. *)
Lemma processImages_connected (w : World) (config : ProcessorConfig.t)
    (rows : list CSVRow.t) (s s' : State) (r : ProcessingResult.t) :
  processImages w config rows s = Ok r s' -> connected s' = connected s.
Proof.
  intros Hrun.
  destruct (Z.ltb_spec (ProcessorConfig.batchSize config) 1) as [Hsmall|Hsize].
  { rewrite processImages_below_one in Hrun by exact Hsmall. by injection Hrun as _ <-. }
  apply (processImages_invariant w config (fun _ st => connected st = connected s) rows)
    with (s := s) (r := r); try done.
  - intros done row rest st st1 _ Hst (idx & thumbnail & _ & _ & ->). exact Hst.
  - intros done row rest e k st st1 _ Hst (idx & t & _ & _ & _ & _ & Hconn & _). congruence.
Qed.

(** X7: once [initialize] and [readCSV] have returned, [start] returns
    whenever the store accepts the upserts of the failure ledger: the rows
    that [readCSV] lets through never make a pass abort. The result counts
    exactly those rows, split into processed and failed when the batch
    size is at least one, and the connection is still open. *)
Theorem start_returns (w : World) (config : ProcessorConfig.t)
    (s s1 s2 : State) (rows : list CSVRow.t) :
  initialize w config s = Ok tt s1 ->
  readCSV w s1 = Ok rows s2 ->
  ledger_accepts w ->
  exists r s',
    start w config s = Ok r s' /\
    ProcessingResult.total r = Z.of_nat (length rows) /\
    (1 <= ProcessorConfig.batchSize config ->
     ProcessingResult.total r = ProcessingResult.processed r + ProcessingResult.failed r) /\
    connected s' = true.
Proof.
  intros Hinit Hread Hledger. rewrite start_eq, Hinit, Hread. cbv zeta.
  assert (Forall index_is_number rows) as Hrows.
  { rewrite readCSV_eq in Hread. cbv zeta in Hread.
    destruct (fs_readFile w (now s1)) as [msg|data]; [discriminate|].
    destruct (csv_lines data) as [|headersLine lines]; [discriminate|].
    destruct (bool_decide _); [|discriminate].
    injection Hread as <- _. apply Forall_forall. intros row Hrow.
    rewrite list_elem_of_In, in_map_iff in Hrow. destruct Hrow as (obj & <- & Hobj).
    rewrite <- list_elem_of_In, list_elem_of_filter in Hobj.
    destruct Hobj as [Hobj _].
    by apply validateRow_valid in Hobj as (_ & _ & _ & Hindex). }
  destruct (processImages_returns w config rows
              (record_event (EvLog LInfo (StartingToProcess (length rows))) s2)
              Hrows Hledger) as (r & s' & Hrun).
  rewrite Hrun. exists r, s'. split; [reflexivity|].
  pose proof (processImages_events w config rows _ s' r Hrun)
    as (evs & Htr & _ & _ & Htotal & _ & Hsum & _).
  split; [exact Htotal|]. split.
  - intros Hsize. rewrite chunk_concat in Hsum by exact Hsize. lia.
  - rewrite (processImages_connected w config rows _ s' r Hrun). cbn.
    rewrite readCSV_eq in Hread. cbv zeta in Hread.
    destruct (fs_readFile w (now s1)) as [msg|data]; [discriminate|].
    destruct (csv_lines data); [discriminate|].
    destruct (bool_decide _); [|discriminate].
    injection Hread as _ <-. cbn.
    rewrite initialize_eq in Hinit.
    destruct (store_rejects w Connect (now s)); [discriminate|]. cbv zeta in Hinit.
    destruct (fs_stat w (S (now s))) as [|size]; [discriminate|].
    destruct (ProcessorConfig.maxFileSize config <? size); [discriminate|].
    by injection Hinit as <-.
Qed.

Lemma start_returns_witness :
  let w := world_of store_up (http_until 6) sample_csv in
  exists r s', start w default_config initial_state = Ok r s' /\
    ProcessingResult.total r = 1 /\ connected s' = true.
Proof.
  cbv zeta.
  destruct (start_returns (world_of store_up (http_until 6) sample_csv) default_config
              initial_state
              (final_state (initialize (world_of store_up (http_until 6) sample_csv)
                              default_config initial_state))
              (final_state (readCSV (world_of store_up (http_until 6) sample_csv)
                 (final_state (initialize (world_of store_up (http_until 6) sample_csv)
                                 default_config initial_state))))
              [rowA]) as (r & s' & Hstart & Htotal & _ & Hconn).
  - vm_compute. reflexivity.
  - vm_compute. reflexivity.
  - intros id t. reflexivity.
  - exists r, s'. auto.
Defined.
(** ** More on a chunk and on a pass *)

Section Chunk.

Context (w : World) (config : ProcessorConfig.t).

Lemma processChunk_loop_app (rows1 rows2 : list CSVRow.t) (sc : Z) (s : State) :
  processChunk_loop w config (rows1 ++ rows2) sc s =
    match processChunk_loop w config rows1 sc s with
    | Ok sc1 s1 => processChunk_loop w config rows2 sc1 s1
    | Throw e s1 => Throw e s1
    end.
Proof.
  revert sc s. induction rows1 as [|row rows1 IH]; intros sc s; [reflexivity|].
  cbn [app processChunk_loop]. rewrite !bind_eq.
  destruct (processChunk_body w config row sc s); [apply IH|reflexivity].
Qed.

Lemma processChunk_loop_shift (rows : list CSVRow.t) (sc : Z) (s : State) :
  processChunk_loop w config rows sc s =
    match processChunk_loop w config rows 0 s with
    | Ok n s' => Ok (sc + n) s'
    | Throw e s' => Throw e s'
    end.
Proof.
  revert sc s. induction rows as [|row rows IH]; intros sc s; cbn [processChunk_loop].
  - unfold ret. f_equal. lia.
  - rewrite !bind_eq, !processChunk_body_eq.
    destruct (processChunk_try w config row s) as [[] s1|e s1].
    + rewrite (IH (sc + 1)), (IH (0 + 1)).
      destruct (processChunk_loop w config rows 0 s1); [f_equal; lia|reflexivity].
    + destruct (processChunk_catch w row e s1) as [[] s2|e2 s2]; [|reflexivity].
      rewrite (IH sc). reflexivity.
Qed.

(** X8: the count [processChunk] returns is the number of its rows minus
    the failures it logged, so it lies between zero and the number of rows;
    it took up every row in order, and it logs no progress notification
    itself. *)
Theorem processChunk_count (rows : list CSVRow.t) (s s' : State) (n : Z) :
  processChunk w config rows s = Ok n s' ->
  0 <= n <= Z.of_nat (length rows) /\
  exists evs, trace s' = trace s ++ evs /\
    n = Z.of_nat (length rows) - Z.of_nat (length (failures evs)) /\
    rows_started evs = map CSVRow.id rows /\
    notifications evs = [].
Proof.
  unfold processChunk. intros Hrun.
  apply processChunk_loop_events in Hrun as (evs & Htr & Hm & _ & Hn & Hle).
  split; [lia|]. exists evs. split; [exact Htr|]. split; [lia|].
  unfold rows_started, notifications. rewrite Hm.
  clear. induction rows as [|row rows [IH1 IH2]]; [done|].
  cbn. by rewrite IH1, IH2.
Qed.

(** X9: a chunk of two parts is its first part followed by its second
    part from the state the first one left, and the counts add up. There is
    no roll-back: when the second part throws, what the first part wrote
    stays written. *)
Theorem processChunk_app (rows1 rows2 : list CSVRow.t) (s : State) :
  processChunk w config (rows1 ++ rows2) s =
    match processChunk w config rows1 s with
    | Ok n1 s1 =>
        match processChunk w config rows2 s1 with
        | Ok n2 s2 => Ok (n1 + n2) s2
        | Throw e s2 => Throw e s2
        end
    | Throw e s1 => Throw e s1
    end.
Proof.
  unfold processChunk. rewrite processChunk_loop_app.
  destruct (processChunk_loop w config rows1 0 s) as [n1 s1|e s1]; [|reflexivity].
  apply processChunk_loop_shift.
Qed.

(** X10: whatever its outcome, a pass takes up no row for an id that is
    not among its rows and leaves the image and the ledger record of such
    an id as they were, also when it aborts half-way. *)
Theorem processImages_leaves_other_ids (rows : list CSVRow.t) (s : State) (id : string) :
  id ∉ map CSVRow.id rows ->
  let s' := final_state (processImages w config rows s) in
  images s' !! id = images s !! id /\
  failed_images s' !! id = failed_images s !! id /\
  exists evs, trace s' = trace s ++ evs /\ (id ∉ rows_started evs).
Proof.
  intros Hnot. cbv zeta.
  destruct (processImages_touches w config rows s) as (evs & Htr & Hstarted & Hframe).
  destruct (Hframe id Hnot) as [Himg Hled].
  split; [exact Himg|]. split; [exact Hled|].
  exists evs. split; [exact Htr|]. intros Hin. apply Hnot, Hstarted, Hin.
Qed.

(** X11: a success wipes the history of an id. When a row succeeds and the
    next row of the same id fails, the ledger record that failure writes
    has [attempts = 1], however many attempts the id had before the
    success. *)
Theorem success_resets_attempts (row1 row2 : CSVRow.t) (sc1 sc2 : Z) (s s1 s2 : State) :
  CSVRow.id row1 = CSVRow.id row2 ->
  processChunk_body w config row1 sc1 s = Ok (sc1 + 1) s1 ->
  processChunk_body w config row2 sc2 s1 = Ok sc2 s2 ->
  failed_images s1 !! CSVRow.id row1 = None /\
  exists doc, failed_images s2 !! CSVRow.id row1 = Some doc /\
    IFailedImage.attempts doc = 1%nat /\
    IFailedImage.url doc = CSVRow.url row2.
Proof.
  intros Hid H1 H2.
  apply processChunk_body_spec in H1 as [[_ Hok]|[Hsc _]]; [|lia].
  apply processChunk_body_spec in H2 as [[Hsc _]|[_ (e & k & Hfail)]]; [lia|].
  destruct Hok as (idx & thumbnail & _ & _ & ->).
  apply row_failed_ledger in Hfail as (idx2 & t & _ & _ & _ & _ & Hentry).
  rewrite <- Hid in Hentry. cbn [failed_images] in Hentry.
  rewrite lookup_delete_eq in Hentry. cbn [failed_images].
  split; [apply lookup_delete_eq|]. eexists. split; [exact Hentry|]. done.
Qed.

(** X12: a pass that returns has asked the hosts at most once per row, in
    the order of the rows: the urls requested are a sublist of the urls of
    the rows (a row whose lookup was rejected is not fetched). *)
Theorem processImages_requests (rows : list CSVRow.t) (s s' : State) (r : ProcessingResult.t) :
  processImages w config rows s = Ok r s' ->
  exists evs, trace s' = trace s ++ evs /\
    sublist (http_requests evs) (map CSVRow.url rows).
Proof.
  intros Hrun.
  destruct (Z.ltb_spec (ProcessorConfig.batchSize config) 1) as [Hsmall|Hsize].
  { rewrite processImages_below_one in Hrun by exact Hsmall. injection Hrun as _ <-.
    exists []. rewrite app_nil_r. split; [done|]. apply sublist_nil_l. }
  apply (processImages_invariant w config
           (fun done st => exists evs, trace st = trace s ++ evs /\
                             sublist (http_requests evs) (map CSVRow.url done)) rows)
    with (s := s) (r := r); try done.
  - intros done row rest st st1 _ (evs & Htr & Hsub) (idx & thumbnail & _ & _ & ->).
    eexists (evs ++ _). cbn [trace]. split; [by rewrite Htr, <- app_assoc|].
    unfold http_requests in *. rewrite omap_app, map_app.
    apply sublist_app; [exact Hsub|]. by destruct (has_image st (CSVRow.id row)).
  - intros done row rest e k st st1 _ (evs & Htr & Hsub)
      (idx & t & _ & Hk & _ & _ & _ & Htr1 & _).
    eexists (evs ++ _). split; [rewrite Htr1, Htr, <- app_assoc; reflexivity|].
    unfold http_requests in *. rewrite !omap_app, map_app.
    apply sublist_app; [exact Hsub|]. cbn [omap list_omap http_request_of app].
    rewrite app_nil_r.
    destruct k as [|[|[|[|[|k]]]]]; [lia|..]; destruct (has_image st (CSVRow.id row));
      cbn; rewrite ?take_nil; cbn; try reflexivity; apply sublist_nil_l.
  - intros done st m (evs & Htr & Hsub). exists (evs ++ [EvLog LInfo m]).
    cbn [trace record_event]. split; [by rewrite Htr, app_assoc|].
    unfold http_requests in *. rewrite omap_app. cbn. by rewrite app_nil_r.
  - exists []. rewrite app_nil_r. split; [done|]. apply sublist_nil_l.
Qed.

End Chunk.

Lemma processChunk_count_witness :
  let w := world_of (lookup_fails_for "B") http_ok "" in
  exists evs,
    trace (final_state (processChunk w default_config [rowA; rowB; rowC] initial_state))
      = trace initial_state ++ evs /\
    2 = 3 - Z.of_nat (length (failures evs)).
Proof.
  cbv zeta.
  destruct (processChunk_count (world_of (lookup_fails_for "B") http_ok "") default_config
              [rowA; rowB; rowC] initial_state
              (final_state (processChunk (world_of (lookup_fails_for "B") http_ok "")
                              default_config [rowA; rowB; rowC] initial_state))
              2) as (_ & evs & Htr & Hn & _).
  - vm_compute. reflexivity.
  - exists evs. split; [exact Htr|exact Hn].
Defined.

Lemma processImages_leaves_other_ids_witness :
  let w := world_of store_down http_ok "" in
  let s' := final_state (processImages w default_config [rowB] ledger_state) in
  failed_images s' !! "A" = Some docA.
Proof.
  cbv zeta.
  destruct (processImages_leaves_other_ids (world_of store_down http_ok "") default_config
              [rowB] ledger_state "A") as (_ & Hled & _).
  - apply (bool_decide_unpack _). vm_compute. exact I.
  - rewrite Hled. vm_compute. reflexivity.
Defined.

Lemma success_resets_attempts_witness :
  let w := world_of store_up (http_until 12) "" in
  let s1 := final_state (processChunk_body w default_config rowA 0 ledger_state) in
  let s2 := final_state (processChunk_body w default_config rowA2 1 s1) in
  exists doc, failed_images s2 !! "A" = Some doc /\ IFailedImage.attempts doc = 1%nat.
Proof.
  cbv zeta.
  destruct (success_resets_attempts (world_of store_up (http_until 12) "") default_config
              rowA rowA2 0 1 ledger_state
              (final_state (processChunk_body (world_of store_up (http_until 12) "")
                              default_config rowA 0 ledger_state))
              (final_state (processChunk_body (world_of store_up (http_until 12) "")
                              default_config rowA2 1
                 (final_state (processChunk_body (world_of store_up (http_until 12) "")
                                 default_config rowA 0 ledger_state)))))
    as (_ & doc & Hdoc & Hatt & _).
  - reflexivity.
  - vm_compute. reflexivity.
  - vm_compute. reflexivity.
  - exists doc. split; [exact Hdoc|exact Hatt].
Defined.

Lemma processImages_requests_witness :
  let w := world_of (lookup_fails_for "B") http_ok "" in
  let s' := final_state (processImages w default_config [rowA; rowB; rowC] initial_state) in
  exists evs, trace s' = trace initial_state ++ evs /\
    sublist (http_requests evs) ["https://x/a.png"; "https://x/b.png"; "https://x/c.png"].
Proof.
  apply (processImages_requests (world_of (lookup_fails_for "B") http_ok "") default_config
           [rowA; rowB; rowC] initial_state _ (ProcessingResult.mk 3 2 1)).
  vm_compute. reflexivity.
Defined.
(** ** Inspecting and retrying the failures *)

#[local] Instance later_first_total : Total later_first.
Proof. intros a b. unfold later_first. lia. Qed.

#[local] Instance later_first_transitive : Transitive later_first.
Proof. intros a b c. unfold later_first. lia. Qed.

(** X13: when the store answers, [getFailedImages] returns every record
    of the ledger exactly once, also those that have used up their
    attempts, with the latest attempt first, and changes nothing: the query
    is its only effect. *)
Theorem getFailedImages_lists_all (w : World) (s : State) :
  store_rejects w FailedFind (now s) = None ->
  exists records,
    getFailedImages w s = Ok records (advance (EvStore FailedFind) s) /\
    records ≡ₚ map_to_list (failed_images s) /\
    (forall id doc, (id, doc) ∈ records <-> failed_images s !! id = Some doc) /\
    StronglySorted later_first records.
Proof.
  intros Hfind. unfold getFailedImages. rewrite bind_eq, storeCall_eq, Hfind.
  eexists. split; [reflexivity|]. cbn [failed_images advance].
  split; [apply merge_sort_Permutation|]. split.
  - intros id doc. rewrite merge_sort_Permutation. apply elem_of_map_to_list.
  - apply StronglySorted_merge_sort; apply _.
Qed.

Lemma getFailedImages_lists_all_witness :
  getFailedImages (world_of store_up http_ok "") ledger_state
    = Ok [("B", docB); ("A", docA)] (advance (EvStore FailedFind) ledger_state).
Proof.
  destruct (getFailedImages_lists_all (world_of store_up http_ok "") ledger_state)
    as (records & Hrun & _); [reflexivity|].
  rewrite Hrun. f_equal. injection Hrun as <-. vm_compute. reflexivity.
Defined.

Lemma retry_rows_are_numbers (items : list (string * IFailedImage.t)) :
  Forall (fun item => finite (IFailedImage.index item.2)) items ->
  Forall index_is_number (map row_of_failure items).
Proof.
  induction 1 as [|item items Hitem _ IH]; constructor; [|exact IH].
  unfold index_is_number. cbn. by apply parseInt_toString_finite.
Qed.

Lemma retry_rows_distinct (maxAttempts : nat) (s : State) :
  NoDup (map CSVRow.id (map row_of_failure (eligible maxAttempts s))).
Proof.
  rewrite map_map. cbn.
  change (map (fun item : string * IFailedImage.t => item.1) (eligible maxAttempts s))
    with ((eligible maxAttempts s).*1).
  eapply sublist_NoDup; [apply (NoDup_fst_map_to_list (failed_images s))|].
  apply fmap_sublist, sublist_filter.
Qed.

(** X14: when the store answers the query and accepts the upserts of the
    ledger, and no record with [attempts < maxAttempts] holds an infinite
    index, [retryFailed] returns: the rows it rebuilds from such records
    never abort the pass. Its [total] is the number of records with
    [attempts < maxAttempts], split into processed and failed when the
    batch size is at least one. (An infinite index is printed as
    "Infinity", which is no number to [parseInt]: the cast error then
    leaves [retryFailed].) *)
Theorem retryFailed_returns (w : World) (config : ProcessorConfig.t)
    (maxAttempts : nat) (s : State) :
  store_rejects w FailedFind (now s) = None ->
  ledger_accepts w ->
  (forall id doc,
     failed_images s !! id = Some doc -> (IFailedImage.attempts doc < maxAttempts)%nat ->
     finite (IFailedImage.index doc)) ->
  exists r s',
    retryFailed w config maxAttempts s = Ok r s' /\
    ProcessingResult.total r = Z.of_nat (length (eligible maxAttempts s)) /\
    (1 <= ProcessorConfig.batchSize config ->
     ProcessingResult.total r = ProcessingResult.processed r + ProcessingResult.failed r).
Proof.
  intros Hfind Hledger Hfinite. rewrite retryFailed_eq, Hfind.
  assert (Forall (fun item => finite (IFailedImage.index item.2)) (eligible maxAttempts s))
    as Hitems.
  { apply Forall_forall. intros [id doc] [Hdoc Hlt]%elem_of_eligible.
    exact (Hfinite id doc Hdoc Hlt). }
  destruct (eligible maxAttempts s) as [|item items] eqn:Helig.
  { cbn. eexists _, _. split; [reflexivity|]. cbn. split; [done|]. lia. }
  cbn [length Nat.eqb].
  destruct (processImages_returns w config (map row_of_failure (item :: items))
              (advance (EvStore FailedFind) s)
              (retry_rows_are_numbers (item :: items) Hitems) Hledger) as (r & s' & Hrun).
  exists r, s'. split; [exact Hrun|].
  pose proof (processImages_events w config _ _ s' r Hrun)
    as (evs & _ & _ & _ & Htotal & _ & Hsum & _).
  rewrite length_map in Htotal. split; [exact Htotal|].
  intros Hsize. rewrite chunk_concat, length_map in Hsum by exact Hsize. lia.
Qed.

Lemma retryFailed_returns_witness :
  exists r s',
    retryFailed (world_of store_up http_down "") default_config 3 ledger_state = Ok r s' /\
    ProcessingResult.total r = 1.
Proof.
  destruct (retryFailed_returns (world_of store_up http_down "") default_config 3 ledger_state)
    as (r & s' & Hrun & Htotal & _).
  - reflexivity.
  - intros id t. reflexivity.
  - intros id doc Hdoc _. unfold ledger_state in Hdoc. cbn [failed_images] in Hdoc.
    apply lookup_insert_Some in Hdoc as [[_ <-]|[_ Hdoc]]; [split; vm_compute; reflexivity|].
    apply lookup_insert_Some in Hdoc as [[_ <-]|[_ Hdoc]]; [split; vm_compute; reflexivity|].
    by rewrite lookup_empty in Hdoc.
  - exists r, s'. split; [exact Hrun|]. rewrite Htotal. vm_compute. reflexivity.
Defined.

(** What a returning retry does to every id. *)
Lemma retryFailed_step (w : World) (config : ProcessorConfig.t) (maxAttempts : nat)
    (s s' : State) (r : ProcessingResult.t) (id : string) :
  1 <= ProcessorConfig.batchSize config ->
  retryFailed w config maxAttempts s = Ok r s' ->
  match failed_images s !! id with
  | Some doc =>
      if decide (IFailedImage.attempts doc < maxAttempts)%nat
      then
        (failed_images s' !! id = None /\
         exists img, images s' !! id = Some img /\
           JS.parseInt (JS.toString (IFailedImage.index doc)) = Some (IImage.index img))
        \/
        (exists doc', failed_images s' !! id = Some doc' /\
           IFailedImage.attempts doc' = S (IFailedImage.attempts doc))
      else failed_images s' !! id = Some doc /\ images s' !! id = images s !! id
  | None => failed_images s' !! id = None /\ images s' !! id = images s !! id
  end.
Proof.
  intros Hsize. rewrite retryFailed_eq.
  destruct (store_rejects w FailedFind (now s)); [discriminate|].
  assert (forall doc, failed_images s !! id = Some doc ->
            (IFailedImage.attempts doc < maxAttempts)%nat ->
            row_of_failure (id, doc) ∈ map row_of_failure (eligible maxAttempts s)) as Hsel.
  { intros doc Hdoc Hlt. rewrite list_elem_of_In. apply in_map.
    rewrite <- list_elem_of_In. by apply elem_of_eligible. }
  assert ((forall doc, failed_images s !! id = Some doc ->
             (maxAttempts <= IFailedImage.attempts doc)%nat) ->
          id ∉ map CSVRow.id (map row_of_failure (eligible maxAttempts s))) as Hout.
  { intros Hmax (row & Hrow & Hid)%elem_of_map_id.
    rewrite list_elem_of_In, in_map_iff in Hrow.
    destruct Hrow as ([id' doc'] & <- & Hitem). cbn in Hid. subst id'.
    rewrite <- list_elem_of_In, elem_of_eligible in Hitem.
    destruct Hitem as [Hdoc' Hlt]. specialize (Hmax _ Hdoc'). lia. }
  destruct (length (eligible maxAttempts s) =? 0)%nat eqn:Hlen.
  { intros [= <- <-]. cbn [images failed_images advance].
    destruct (failed_images s !! id) as [doc|] eqn:Hdoc; [|done].
    destruct (decide (IFailedImage.attempts doc < maxAttempts)%nat) as [Hlt|]; [|done].
    specialize (Hsel doc eq_refl Hlt).
    destruct (eligible maxAttempts s); [by apply not_elem_of_nil in Hsel|discriminate]. }
  intros Hrun.
  pose proof (processImages_invariant w config
                (fate_invariant (advance (EvStore FailedFind) s))
                (map row_of_failure (eligible maxAttempts s))
                (fate_invariant_success w config _ _ (retry_rows_distinct maxAttempts s))
                (fate_invariant_failure _ _ (retry_rows_distinct maxAttempts s))
                (fate_invariant_log _)
                _ s' r Hsize (fate_invariant_init _) Hrun)
    as (evs & _ & _ & Hframe & Hfates).
  cbn [images failed_images advance] in Hframe.
  destruct (failed_images s !! id) as [doc|] eqn:Hdoc.
  - destruct (decide (IFailedImage.attempts doc < maxAttempts)%nat) as [Hlt|Hge].
    + destruct (Hfates _ (Hsel doc eq_refl Hlt))
        as [(_ & Hnone & img & Himg & Hidx)|(_ & doc' & Hdoc' & Hatt)]; cbn in *.
      * left. split; [exact Hnone|]. exists img. split; [exact Himg|exact Hidx].
      * right. exists doc'. split; [exact Hdoc'|]. by rewrite Hatt, Hdoc.
    + destruct (Hframe id) as [Himg Hled].
      { apply Hout. intros doc' [= <-]. lia. }
      by rewrite Hled.
  - destruct (Hframe id) as [Himg Hled]; [apply Hout; discriminate|].
    by rewrite Hled.
Qed.

(** X15: a retry pass that returns (batch size at least one) makes
    progress on every record it selected: either the record is gone from
    the ledger and [images] holds, for its id, the number that [parseInt]
    reads from the text [toString] prints for the index of the record (the
    index itself when that is a double below 10^21 in magnitude), or the
    record counts exactly one attempt more. A record it did not select,
    and the image of its id, are as they were, and no record appears for
    an id that had none. *)
Theorem retryFailed_progress (w : World) (config : ProcessorConfig.t) (maxAttempts : nat)
    (s s' : State) (r : ProcessingResult.t) :
  1 <= ProcessorConfig.batchSize config ->
  retryFailed w config maxAttempts s = Ok r s' ->
  (forall id doc,
     failed_images s !! id = Some doc -> (IFailedImage.attempts doc < maxAttempts)%nat ->
     (failed_images s' !! id = None /\
      exists img, images s' !! id = Some img /\
        JS.parseInt (JS.toString (IFailedImage.index doc)) = Some (IImage.index img) /\
        (below_1e21 (IFailedImage.index doc) -> IImage.index img = IFailedImage.index doc))
     \/
     (exists doc', failed_images s' !! id = Some doc' /\
        IFailedImage.attempts doc' = S (IFailedImage.attempts doc))) /\
  (forall id doc,
     failed_images s !! id = Some doc -> (maxAttempts <= IFailedImage.attempts doc)%nat ->
     failed_images s' !! id = Some doc /\ images s' !! id = images s !! id) /\
  (forall id, failed_images s !! id = None ->
     failed_images s' !! id = None /\ images s' !! id = images s !! id).
Proof.
  intros Hsize Hrun. split; [|split].
  - intros id doc Hdoc Hlt.
    pose proof (retryFailed_step w config maxAttempts s s' r id Hsize Hrun) as Hstep.
    rewrite Hdoc in Hstep. rewrite decide_True in Hstep by done.
    destruct Hstep as [(Hnone & img & Himg & Hidx)|Hmore]; [left|by right].
    split; [exact Hnone|]. exists img. split; [exact Himg|]. split; [exact Hidx|].
    intros [Hdouble Hrange]. rewrite parseInt_toString in Hidx by done. by injection Hidx.
  - intros id doc Hdoc Hge.
    pose proof (retryFailed_step w config maxAttempts s s' r id Hsize Hrun) as Hstep.
    rewrite Hdoc in Hstep. rewrite decide_False in Hstep by lia. exact Hstep.
  - intros id Hnone.
    pose proof (retryFailed_step w config maxAttempts s s' r id Hsize Hrun) as Hstep.
    by rewrite Hnone in Hstep.
Qed.

Lemma retryFailed_progress_witness :
  let w := world_of store_up http_ok "" in
  let s' := final_state (retryFailed w default_config 3 ledger_state) in
  failed_images s' !! "A" = Some docA /\
  failed_images s' !! "B" = None /\
  exists img, images s' !! "B" = Some img /\ IImage.index img = 2.
Proof.
  cbv zeta.
  destruct (retryFailed_progress (world_of store_up http_ok "") default_config 3
              ledger_state
              (final_state (retryFailed (world_of store_up http_ok "") default_config 3
                              ledger_state))
              (ProcessingResult.mk 1 1 0)) as (Hsel & Hkeep & _).
  - vm_compute. discriminate.
  - vm_compute. reflexivity.
  - split; [apply (Hkeep "A" docA); [vm_compute; reflexivity|vm_compute; lia]|].
    destruct (Hsel "B" docB) as [(Hnone & img & Himg & _ & Hsame)|(doc' & Hdoc' & _)];
      [vm_compute; reflexivity|vm_compute; lia| |vm_compute in Hdoc'; discriminate Hdoc'].
    split; [exact Hnone|]. exists img. split; [exact Himg|].
    apply Hsame. split; [vm_compute; reflexivity|]. split; vm_compute; reflexivity.
Defined.

Lemma retried_attempts (w : World) (config : ProcessorConfig.t) (maxAttempts : nat)
    (n : nat) (s s' : State) :
  1 <= ProcessorConfig.batchSize config ->
  retried w config maxAttempts n s s' ->
  forall m,
    (forall id doc, failed_images s !! id = Some doc ->
       (m <= IFailedImage.attempts doc \/ maxAttempts <= IFailedImage.attempts doc)%nat) ->
    forall id doc, failed_images s' !! id = Some doc ->
      (m + n <= IFailedImage.attempts doc \/ maxAttempts <= IFailedImage.attempts doc)%nat.
Proof.
  intros Hsize. induction 1 as [s|n s s1 s2 r Hrun _ IH]; intros m Hm id doc Hdoc.
  - specialize (Hm id doc Hdoc). lia.
  - replace (m + S n)%nat with (S m + n)%nat by lia.
    refine (IH (S m) _ id doc Hdoc). clear id doc Hdoc.
    intros id doc1 Hdoc1.
    pose proof (retryFailed_step w config maxAttempts s s1 r id Hsize Hrun) as Hstep.
    destruct (failed_images s !! id) as [doc|] eqn:Hdoc.
    + destruct (decide (IFailedImage.attempts doc < maxAttempts)%nat) as [Hlt|Hge].
      * destruct Hstep as [[Hnone _]|(doc' & Hdoc' & Hatt)]; [congruence|].
        rewrite Hdoc1 in Hdoc'. injection Hdoc' as <-.
        specialize (Hm id doc Hdoc). lia.
      * destruct Hstep as [Hsame _]. rewrite Hdoc1 in Hsame. injection Hsame as ->. lia.
    + destruct Hstep as [Hnone _]. congruence.
Qed.

(** X16: retrying runs out. After [maxAttempts] retry passes in a row that
    returned (batch size at least one), no record of the ledger has
    [attempts < maxAttempts]: the next [retryFailed] selects nothing and
    returns the zero result, the query being its only store call. *)
Theorem retries_run_out (w : World) (config : ProcessorConfig.t) (maxAttempts : nat)
    (s s' : State) :
  1 <= ProcessorConfig.batchSize config ->
  retried w config maxAttempts maxAttempts s s' ->
  eligible maxAttempts s' = [] /\
  (store_rejects w FailedFind (now s') = None ->
   retryFailed w config maxAttempts s'
     = Ok (ProcessingResult.mk 0 0 0) (advance (EvStore FailedFind) s')).
Proof.
  intros Hsize Hretried.
  assert (eligible maxAttempts s' = []) as Hnone.
  { destruct (eligible maxAttempts s') as [|[id doc] items] eqn:Helig; [done|].
    assert ((id, doc) ∈ eligible maxAttempts s') as Hin by (rewrite Helig; left).
    apply elem_of_eligible in Hin as [Hdoc Hlt].
    pose proof (retried_attempts w config maxAttempts maxAttempts s s' Hsize Hretried 0%nat)
      as Hatt.
    destruct (Hatt (fun _ _ _ => or_introl (Nat.le_0_l _)) id doc Hdoc); lia. }
  split; [exact Hnone|].
  intros Hfind. by rewrite retryFailed_eq, Hfind, Hnone.
Qed.

Lemma retries_run_out_witness :
  let w := world_of store_up http_down "" in
  let s1 := final_state (retryFailed w default_config 2 ledger_state) in
  let s2 := final_state (retryFailed w default_config 2 s1) in
  eligible 2 s2 = [].
Proof.
  cbv zeta.
  apply (retries_run_out (world_of store_up http_down "") default_config 2 ledger_state).
  - vm_compute. discriminate.
  - eapply retried_again; [vm_compute; reflexivity|].
    eapply retried_again; [vm_compute; reflexivity|].
    apply retried_none.
Defined.
(** ** The batch size *)

(** X17: a batch size the constructor cannot read switches the pass off.
    With no [batchSize] override and a [DEFAULT_BATCH_SIZE] that is not a
    number, or is one below 1, [processImages] processes no row: it returns
    [total] equal to the number of rows with [processed = failed = 0] and
    leaves the state, trace included, as it was. *)
Theorem unreadable_batch_size_processes_nothing (env : Env) (overrides : PartialConfig.t)
    (w : World) (rows : list CSVRow.t) (s : State) :
  PartialConfig.batchSize overrides = None ->
  (forall n, JS.parseInt (or_else (DEFAULT_BATCH_SIZE env) "50") = Some n -> n < 1) ->
  processImages w (constructor env overrides) rows s
    = Ok (ProcessingResult.mk (Z.of_nat (length rows)) 0 0) s.
Proof.
  intros Hnone Hsmall. apply processImages_below_one.
  unfold constructor. cbn. rewrite Hnone. cbn.
  destruct (JS.parseInt (or_else (DEFAULT_BATCH_SIZE env) "50")) as [n|]; cbn; [|lia].
  by apply Hsmall.
Qed.

Lemma unreadable_batch_size_processes_nothing_witness :
  processImages (world_of store_up http_ok "")
    (constructor (mkEnv None (Some "fifty")) (PartialConfig.mk None None None None))
    [rowA; rowB] initial_state
  = Ok (ProcessingResult.mk 2 0 0) initial_state.
Proof.
  apply (unreadable_batch_size_processes_nothing (mkEnv None (Some "fifty"))
           (PartialConfig.mk None None None None) (world_of store_up http_ok "")
           [rowA; rowB] initial_state).
  - reflexivity.
  - intros n Hn. vm_compute in Hn. discriminate.
Defined.

Section BatchSize.

Context (w : World) (config : ProcessorConfig.t).

Lemma same_data_refl (s : State) : same_data s s.
Proof. by repeat split. Qed.

Lemma same_outcome_trans {A} (o1 o2 o3 : Outcome A) :
  same_outcome o1 o2 -> same_outcome o2 o3 -> same_outcome o1 o3.
Proof.
  unfold same_outcome, same_data.
  destruct o1, o2, o3; try done;
    intros (-> & -> & -> & -> & -> & ->) (-> & -> & -> & -> & -> & ->); done.
Qed.

Lemma without_notifications_app (l1 l2 : list Event) :
  without_notifications (l1 ++ l2) = without_notifications l1 ++ without_notifications l2.
Proof. apply filter_app. Qed.

(** What an iteration does depends on the collections and on the clock,
    not on the trace. *)
Lemma processChunk_body_same (row : CSVRow.t) (sc : Z) (s1 s2 : State) :
  same_data s1 s2 ->
  same_outcome (processChunk_body w config row sc s1) (processChunk_body w config row sc s2).
Proof.
  destruct s1 as [i1 f1 c1 n1 t1], s2 as [i2 f2 c2 n2 t2].
  intros (Himg & Hled & Hconn & Hnow & Htr). cbn in Himg, Hled, Hconn, Hnow.
  cbn [trace] in Htr. subst i2 f2 c2 n2.
  rewrite !processChunk_body_eq, !processChunk_try_eq. cbv zeta.
  unfold has_image. cbn [now images].
  assert (forall l, without_notifications (t1 ++ l) = without_notifications (t2 ++ l))
    as Happ by (intros l; by rewrite !without_notifications_app, Htr).
  assert (forall (e : Error) (k : nat) (a1 a2 : list Event)
                 (i : gmap string IImage.t),
            without_notifications a1 = without_notifications a2 ->
            same_outcome
              match processChunk_catch w row e (mkState i f1 c1 k a1) with
              | Ok _ s'' => Ok sc s''
              | Throw e' s'' => Throw e' s''
              end
              match processChunk_catch w row e (mkState i f1 c1 k a2) with
              | Ok _ s'' => Ok sc s''
              | Throw e' s'' => Throw e' s''
              end) as Hcatch.
  { intros e k a1 a2 i Ha. rewrite !processChunk_catch_eq. cbn [now].
    destruct (JS.parseInt (CSVRow.index row)); cbv zeta; [|by cbn].
    destruct (store_rejects w _ k); unfold same_outcome, same_data; cbn;
      rewrite !without_notifications_app, Ha; done. }
  destruct (store_rejects w (ImageFindOne (CSVRow.id row)) n1);
    [apply Hcatch; cbn; apply Happ|].
  destruct (thumbnail_at w config (CSVRow.url row) (S n1));
    [apply Hcatch; cbn; rewrite <- !app_assoc; apply Happ|].
  destruct (JS.parseInt (CSVRow.index row)) eqn:Hidx;
    [|apply Hcatch; cbn; rewrite <- !app_assoc; apply Happ].
  destruct (store_rejects w (if bool_decide _ then _ else _) (S (S n1)));
    [apply Hcatch; cbn; rewrite <- !app_assoc; apply Happ|].
  destruct (store_rejects w (FailedDeleteOne _) _);
    [apply Hcatch; cbn; rewrite <- !app_assoc; apply Happ|].
  unfold same_outcome, same_data. cbn. rewrite <- !app_assoc.
  split_and!; first [done | apply Happ].
Qed.

Lemma processChunk_loop_same (rows : list CSVRow.t) (sc : Z) (s1 s2 : State) :
  same_data s1 s2 ->
  same_outcome (processChunk_loop w config rows sc s1) (processChunk_loop w config rows sc s2).
Proof.
  revert sc s1 s2. induction rows as [|row rows IH]; intros sc s1 s2 Hsame;
    cbn [processChunk_loop].
  - by cbn.
  - rewrite !bind_eq. pose proof (processChunk_body_same row sc s1 s2 Hsame) as Hbody.
    destruct (processChunk_body w config row sc s1), (processChunk_body w config row sc s2);
      try done.
    destruct Hbody as [-> Hsame']. by apply IH.
Qed.


Lemma same_outcome_sym {A} (o1 o2 : Outcome A) : same_outcome o1 o2 -> same_outcome o2 o1.
Proof.
  unfold same_outcome, same_data.
  destruct o1, o2; try done; intros (-> & -> & -> & -> & -> & ->); done.
Qed.

Lemma same_outcome_refl {A} (o : Outcome A) : same_outcome o o.
Proof. destruct o; cbn; split; try done; apply same_data_refl. Qed.

Lemma flat_result_same (p f : Z) (nrows : nat) (o1 o2 : Outcome Z) :
  same_outcome o1 o2 -> same_outcome (flat_result p f nrows o1) (flat_result p f nrows o2).
Proof. destruct o1, o2; try done. by intros [-> ?]. Qed.

(** Up to the trace, the loop over the chunks is the loop over all their
    rows. *)
Lemma processImages_loop_flat (chunks : list (list CSVRow.t)) (k nch nr : nat)
    (p f : Z) (s : State) :
  same_outcome
    (processImages_loop w config chunks k nch nr p f s)
    (flat_result p f (length (concat chunks))
       (processChunk_loop w config (concat chunks) 0 s)).
Proof.
  revert k p f s. induction chunks as [|chunk chunks IH]; intros k p f s.
  - cbn. split; [f_equal; lia|apply same_data_refl].
  - cbn [processImages_loop concat]. rewrite bind_eq. unfold processChunk.
    rewrite processChunk_loop_app.
    destruct (processChunk_loop w config chunk 0 s) as [sc s1|e s1] eqn:Hchunk;
      [|apply same_outcome_refl].
    rewrite bind_eq. unfold logger.info at 1, emit.
    eapply same_outcome_trans; [apply IH|].
    rewrite (processChunk_loop_shift w config (concat chunks) sc s1).
    pose proof (processChunk_loop_same (concat chunks) 0
                  (record_event
                     (EvLog LInfo
                        (BatchCompleted (k + 1) nch (p + sc) nr
                           (f + (Z.of_nat (length chunk) - sc)))) s1) s1) as Hsame.
    specialize (Hsame ltac:(repeat split; cbn;
                              rewrite ?without_notifications_app, ?app_nil_r; done)).
    destruct (processChunk_loop w config (concat chunks) 0 _) as [n1 s1'|e1 s1'],
      (processChunk_loop w config (concat chunks) 0 s1) as [n2 s2'|e2 s2'];
      try (by destruct Hsame); try (exfalso; by apply Hsame);
      destruct Hsame as [-> Hdata]; try by repeat split.
    cbn. split; [|exact Hdata]. rewrite length_app. f_equal; lia.
Qed.

End BatchSize.

Lemma processChunk_loop_batchSize (w : World) (config : ProcessorConfig.t) (b : Z)
    (rows : list CSVRow.t) (sc : Z) (s : State) :
  processChunk_loop w (with_batchSize b config) rows sc s
  = processChunk_loop w config rows sc s.
Proof.
  revert sc s. induction rows as [|row rows IH]; intros sc s; [reflexivity|].
  cbn [processChunk_loop]. rewrite !bind_eq.
  change (processChunk_body w (with_batchSize b config) row sc s)
    with (processChunk_body w config row sc s).
  destruct (processChunk_body w config row sc s); [apply IH|reflexivity].
Qed.

(** Up to the trace, a pass with a batch size of at least one is one chunk
    that holds all the rows. *)
Lemma processImages_flat (w : World) (config : ProcessorConfig.t) (b : Z)
    (rows : list CSVRow.t) (s : State) :
  1 <= b ->
  same_outcome
    (processImages w (with_batchSize b config) rows s)
    (match processChunk w config rows s with
     | Ok n s' =>
         Ok (ProcessingResult.mk (Z.of_nat (length rows)) n (Z.of_nat (length rows) - n)) s'
     | Throw e s' => Throw e s'
     end).
Proof.
  intros Hb. unfold processImages, processChunk. cbv zeta. rewrite bind_eq.
  cbn [ProcessorConfig.batchSize with_batchSize].
  pose proof (processImages_loop_flat w (with_batchSize b config) (Lodash.chunk rows b) 0
                (length (Lodash.chunk rows b)) (length rows) 0 0 s) as Hflat.
  rewrite chunk_concat, processChunk_loop_batchSize in Hflat by exact Hb.
  destruct (processImages_loop _ _ _ _ _ _ _ _ s) as [counts s1|e s1],
    (processChunk_loop w config rows 0 s) as [n s2|e2 s2]; try done.
  destruct Hflat as [-> Hdata]. cbn. split; [|exact Hdata]. f_equal; lia.
Qed.

(** X18: the batch size changes the progress notifications and nothing
    else. For any two batch sizes of at least one, a pass over the same
    rows from the same state ends the same way: the same result or the
    same error, the same [images] and [failed_images], the same clock, and
    the same trace once the progress notifications are taken out of it. *)
Theorem batch_size_only_changes_progress (w : World) (config : ProcessorConfig.t)
    (b1 b2 : Z) (rows : list CSVRow.t) (s : State) :
  1 <= b1 -> 1 <= b2 ->
  match processImages w (with_batchSize b1 config) rows s,
        processImages w (with_batchSize b2 config) rows s with
  | Ok r1 s1, Ok r2 s2 =>
      r1 = r2 /\ images s1 = images s2 /\ failed_images s1 = failed_images s2 /\
      connected s1 = connected s2 /\ now s1 = now s2 /\
      without_notifications (trace s1) = without_notifications (trace s2)
  | Throw e1 s1, Throw e2 s2 =>
      e1 = e2 /\ images s1 = images s2 /\ failed_images s1 = failed_images s2 /\
      connected s1 = connected s2 /\ now s1 = now s2 /\
      without_notifications (trace s1) = without_notifications (trace s2)
  | _, _ => False
  end.
Proof.
  intros Hb1 Hb2.
  assert (same_outcome (processImages w (with_batchSize b1 config) rows s)
                       (processImages w (with_batchSize b2 config) rows s)) as Hsame.
  { eapply same_outcome_trans; [apply (processImages_flat w config b1 rows s Hb1)|].
    apply same_outcome_sym, (processImages_flat w config b2 rows s Hb2). }
  exact Hsame.
Qed.

Lemma batch_size_only_changes_progress_witness :
  let w := world_of (lookup_fails_for "B") (http_until 9) "" in
  let o1 := processImages w (with_batchSize 1 default_config) [rowA; rowB; rowC]
              initial_state in
  let o2 := processImages w (with_batchSize 50 default_config) [rowA; rowB; rowC]
              initial_state in
  without_notifications (trace (final_state o1))
    = without_notifications (trace (final_state o2)) /\
  length (notifications (trace (final_state o1))) = 3%nat /\
  length (notifications (trace (final_state o2))) = 1%nat.
Proof.
  cbv zeta.
  pose proof (batch_size_only_changes_progress
                (world_of (lookup_fails_for "B") (http_until 9) "")
                default_config 1 50 [rowA; rowB; rowC] initial_state
                ltac:(lia) ltac:(lia)) as Hsame.
  split; [|split; vm_compute; reflexivity].
  destruct (processImages _ (with_batchSize 1 default_config) _ _) as [r1 s1|e1 s1],
    (processImages _ (with_batchSize 50 default_config) _ _) as [r2 s2|e2 s2];
    try done; cbn [final_state]; apply Hsame.
Defined.
(** ** One row, path by path *)

(** X19: a row that succeeds is an upsert by id. [images] then holds, for
    its id, the number [parseInt] reads from its index and the thumbnail
    fetched in this iteration; the ledger record of the id, if any, is gone;
    every other document is as it was. The store was asked to update when
    the id had an image and to create when it had none, never both, and the
    ledger was not written. *)
Theorem row_success_upserts (w : World) (config : ProcessorConfig.t)
    (row : CSVRow.t) (sc : Z) (s s' : State) :
  processChunk_body w config row sc s = Ok (sc + 1) s' ->
  exists idx thumbnail evs,
    JS.parseInt (CSVRow.index row) = Some idx /\
    thumbnail_at w config (CSVRow.url row) (S (now s)) = inr thumbnail /\
    images s' = <[CSVRow.id row := IImage.mk idx thumbnail]> (images s) /\
    failed_images s' = delete (CSVRow.id row) (failed_images s) /\
    trace s' = trace s ++ evs /\
    ((EvStore (ImageUpdateOne (CSVRow.id row)) ∈ evs) <-> is_Some (images s !! CSVRow.id row)) /\
    ((EvStore (ImageCreate (CSVRow.id row)) ∈ evs) <-> images s !! CSVRow.id row = None) /\
    ledger_writes evs = [].
Proof.
  intros Hrun.
  apply processChunk_body_spec in Hrun as [[_ Hok]|[Hsc _]]; [|lia].
  destruct Hok as (idx & thumbnail & Hidx & Hthumb & ->).
  exists idx, thumbnail, (success_events (has_image s (CSVRow.id row)) row).
  cbn [images failed_images trace]. split_and!; try done.
  - unfold has_image, success_events.
    destruct (images s !! CSVRow.id row) as [old|]; cbn.
    + split; [eauto|]. intros _. do 2 right. left.
    + split; [|by intros [? ?]].
      intros Hin. repeat (apply elem_of_cons in Hin as [Hin|Hin]; [discriminate|]).
      by apply not_elem_of_nil in Hin.
  - unfold has_image, success_events.
    destruct (images s !! CSVRow.id row) as [old|]; cbn.
    + split; [|discriminate].
      intros Hin. repeat (apply elem_of_cons in Hin as [Hin|Hin]; [discriminate|]).
      by apply not_elem_of_nil in Hin.
    + split; [done|]. intros _. do 2 right. left.
  - by destruct (has_image s (CSVRow.id row)).
Qed.

Lemma row_success_upserts_witness :
  let w := world_of store_up http_ok "" in
  let s' := final_state (processChunk_body w default_config rowA 0 ledger_state) in
  exists idx thumbnail,
    images s' = <["A" := IImage.mk idx thumbnail]> (images ledger_state) /\
    failed_images s' = delete "A" (failed_images ledger_state).
Proof.
  cbv zeta.
  destruct (row_success_upserts (world_of store_up http_ok "") default_config rowA 0
              ledger_state
              (final_state (processChunk_body (world_of store_up http_ok "") default_config
                              rowA 0 ledger_state)))
    as (idx & thumbnail & evs & _ & _ & Himg & Hled & _).
  - vm_compute. reflexivity.
  - exists idx, thumbnail. split; [exact Himg|exact Hled].
Defined.


